(** * Triad balance: sieves, compensated prefix sums and tail certificates

    A shallow embedding of [src/triad.py], [src/tails.py], of
    [compute_values] of [sanity_check.py] and of the functions of
    [scripts/triad_full.py], with the properties stated in the specification
    and further properties of the code.

    Modelling conventions.
    - Python [int] is [Z] (unbounded, signed); [//] on a positive divisor is
      [Z.div] (both floor).
    - Python [list] is [list]; subscripts go through [getitem] / [setitem],
      which raise [IndexError] out of range and wrap negative subscripts.
    - Exceptions are explicit: a computation returns a [result].
    - Python [float] is an interface, [FloatOps]: a carrier with the
      operations the sources use, each raising what Python raises
      ([OverflowError] when an [int] too large is converted,
      [ZeroDivisionError] for a zero divisor, [ValueError] for a logarithm
      outside its domain).  What is proved for every [FloatOps] does not
      depend on how the operations round.  [Exact] interprets the interface over
      the real numbers [R], every operation exact and no conversion
      overflowing: the properties of the values computed (tail bounds,
      compensation, the certified interval) are proved there.  [FloatMore]
      adds the three operations only [scripts/triad_full.py] uses.  [Double]
      interprets the interface over IEEE binary64 numbers, with the
      logarithms and the power, which IEEE 754 does not fix, left to the
      C library [Libm]: what the real numbers hide (a conversion that
      overflows, two results that round to the same double) is proved
      there.
    - A generator is its trace: the list of records it yields, followed by
      the way it ends (exhaustion or an exception). *)

From Stdlib Require Import ZArith List Lia Reals Lra Bool Znumtheory.
From mathcomp Require ssreflect ssrfun ssrbool eqtype ssrnat seq div prime bigop.
From Stdlib Require Floats.
From Equations Require Import Equations.
Import ListNotations.
Open Scope Z_scope.

(* ===================================================================== *)
(** ** Exceptions and the result monad *)

Inductive exn : Type :=
| IndexError
| ZeroDivisionError
| ValueError
| RuntimeError
| KeyError
| ArithmeticError
| OverflowError
| OutOfFuel.  (* not a Python exception: a [while] loop of the model ran out
                 of fuel; [sieve_while_fuel] shows it is never produced *)

Inductive result (A : Type) : Type :=
| Ok (a : A)
| Raise (e : exn).

Arguments Ok {A} a.
Arguments Raise {A} e.

Definition bind {A B : Type} (m : result A) (k : A -> result B) : result B :=
  match m with
  | Ok a => k a
  | Raise e => Raise e
  end.

Notation "x <- m ;; k" := (bind m (fun x => k))
  (at level 61, m at next level, right associativity).
Notation "' pat <- m ;; k" := (bind m (fun x => match x with pat => k end))
  (at level 61, pat pattern, m at next level, right associativity).

(** A [for] loop threading a state through a body that may raise. *)
Fixpoint foldM {A B : Type} (body : A -> B -> result A) (xs : list B) (a : A)
  : result A :=
  match xs with
  | [] => Ok a
  | x :: xs' => a' <- body a x ;; foldM body xs' a'
  end.

(* ===================================================================== *)
(** ** Python lists and ranges *)

Definition len {A : Type} (l : list A) : Z := Z.of_nat (length l).

(** [range(a, b)] *)
Definition py_range (a b : Z) : list Z :=
  map (fun k => a + Z.of_nat k) (seq 0 (Z.to_nat (b - a))).

(** [range(a, b, st)] for a positive step (the only one the sources use). *)
Definition py_range_step (a b st : Z) : list Z :=
  map (fun k => a + Z.of_nat k * st) (seq 0 (Z.to_nat ((b - a + st - 1) / st))).

(** [[x] * n]: empty when [n <= 0]. *)
Definition py_repeat {A : Type} (x : A) (n : Z) : list A := repeat x (Z.to_nat n).

(** Total update at a position; the list is unchanged out of range. *)
Fixpoint upd {A : Type} (l : list A) (k : nat) (v : A) : list A :=
  match l, k with
  | [], _ => []
  | _ :: t, O => v :: t
  | h :: t, S k' => h :: upd t k' v
  end.

(** Python subscript normalisation: a negative subscript counts from the end. *)
Definition norm_index {A : Type} (l : list A) (i : Z) : Z :=
  if i <? 0 then i + len l else i.

(** [l[i]] *)
Definition getitem {A : Type} (l : list A) (i : Z) : result A :=
  let j := norm_index l i in
  if (0 <=? j) && (j <? len l) then
    match nth_error l (Z.to_nat j) with
    | Some x => Ok x
    | None => Raise IndexError
    end
  else Raise IndexError.

(** [l[i] = v] *)
Definition setitem {A : Type} (l : list A) (i : Z) (v : A) : result (list A) :=
  let j := norm_index l i in
  if (0 <=? j) && (j <? len l) then Ok (upd l (Z.to_nat j) v)
  else Raise IndexError.

(** [l[start:stop:step] = vals] for [0 <= start] and [step > 1] (an extended
    slice): the stop is clamped to the length, and the right-hand side must
    have exactly as many elements as the slice selects. *)
Definition setslice {A : Type} (l : list A) (start stop step : Z) (vals : list A)
  : result (list A) :=
  let idxs := py_range_step start (Z.min stop (len l)) step in
  if (length idxs =? length vals)%nat then
    Ok (fold_left (fun t iv => upd t (Z.to_nat (fst iv)) (snd iv)) (combine idxs vals) l)
  else Raise ValueError.

(* ===================================================================== *)
(** ** Sieve engine ([src/triad.py]) *)

(** The body of [while p * p <= N] in [sieve_primes_bool]. *)
Fixpoint sieve_while (fuel : nat) (N p : Z) (is_prime : list bool)
  : result (list bool) :=
  if p * p <=? N then
    match fuel with
    | O => Raise OutOfFuel
    | S fuel' =>
        b <- getitem is_prime p ;;
        is_prime' <- (if b : bool then
                        let step := p in
                        let start := p * p in
                        setslice is_prime start (N + 1) step
                          (py_repeat false (((N - start) / step) + 1))
                      else Ok is_prime) ;;
        sieve_while fuel' N (p + 1) is_prime'
    end
  else Ok is_prime.

Definition sieve_primes_bool (N : Z) : result (list bool) :=
  if N <? 1 then Ok (py_repeat false (N + 1))
  else
    let is_prime := py_repeat true (N + 1) in
    is_prime <- setitem is_prime 0 false ;;
    is_prime <- setitem is_prime 1 false ;;
    sieve_while (Z.to_nat N) N 2 is_prime.

Definition sieve_pi (N : Z) : result (list Z) :=
  is_prime <- sieve_primes_bool N ;;
  let pi := py_repeat 0 (N + 1) in
  let cnt := 0 in
  '(pi, cnt) <- foldM (fun '(pi, cnt) k =>
                         b <- getitem is_prime k ;;
                         let cnt := if b : bool then cnt + 1 else cnt in
                         pi <- setitem pi k cnt ;;
                         Ok (pi, cnt))
                      (py_range 0 (N + 1)) (pi, cnt) ;;
  Ok pi.

(** The inner loop of [sieve_phi]: [for j in range(i, N+1, i)]. *)
Definition phi_inner (N i : Z) (phi : list Z) : result (list Z) :=
  foldM (fun phi j =>
           v <- getitem phi j ;;
           setitem phi j (v - v / i))
        (py_range_step i (N + 1) i) phi.

Definition sieve_phi (N : Z) : result (list Z) :=
  let phi := py_range 0 (N + 1) in
  phi <- (if N >=? 1 then setitem phi 1 1 else Ok phi) ;;
  foldM (fun phi i =>
           v <- getitem phi i ;;
           if v =? i then phi_inner N i phi else Ok phi)
        (py_range 2 (N + 1)) phi.


(* ===================================================================== *)
(** ** Floating-point arithmetic as an interface *)

(** The [float] operations the sources use.  [+], [-] and [*] on floats
    never raise; the others raise as Python does. *)
Class FloatOps : Type := {
  flt : Type;
  (** the float written as the decimal literal [m]e[e], e.g. [lit 10 0] for
      [10.0] and [lit 5772156649015329 (-16)] for [0.5772156649015329] *)
  lit : Z -> Z -> flt;
  (** the conversion of an [int] operand in mixed arithmetic:
      [OverflowError] when it is too large *)
  of_int : Z -> result flt;
  fadd : flt -> flt -> flt;
  fsub : flt -> flt -> flt;
  fmul : flt -> flt -> flt;
  (** [x / y]: [ZeroDivisionError] when [y] is zero *)
  fdiv : flt -> flt -> result flt;
  (** [math.log(x)] at a float: [ValueError] outside its domain *)
  flog : flt -> result flt;
  (** [math.log(n)] at an [int], which is not converted first *)
  flog_int : Z -> result flt;
  (** [math.log2(n)] at an [int] *)
  flog2_int : Z -> result flt;
  (** [pow(x, y)] on floats *)
  fpow : flt -> flt -> result flt
}.

(** The float operations only [scripts/triad_full.py] uses. *)
Class FloatMore (FO : FloatOps) : Type := {
  (** [int(x)] at a float: truncation towards zero, [OverflowError] at an
      infinity and [ValueError] at a NaN *)
  to_int : flt -> result Z;
  (** [math.exp(x)]: [OverflowError] when the result is too large *)
  fexp : flt -> result flt;
  (** [x > y] on floats *)
  fgt : flt -> flt -> bool
}.

(* ===================================================================== *)
(** ** Compensated accumulator ([class Kahan]) *)

Module Kahan.
Section WithFloat.
Context {FO : FloatOps}.

Record t : Type := mk { s : flt; c : flt }.

(** [Kahan()]: both fields default to [0.0]. *)
Definition new : t := mk (lit 0 0) (lit 0 0).

(** [add]: the assignment to [c] reads the old [s]. *)
Definition add (self : t) (x : flt) : t :=
  let y := fsub x (c self) in
  let t := fadd (s self) y in
  mk t (fsub (fsub t (s self)) y).

Definition value (self : t) : flt := s self.

(** A store of accumulator instances, addressed by position: [add_at]
    is the method call [h[a].add(x)] on the shared store. *)
Definition store : Type := list t.

Definition add_at (h : store) (a : nat) (x : flt) : store :=
  match nth_error h a with
  | Some self => upd h a (add self x)
  | None => h
  end.

End WithFloat.
End Kahan.

Section Program.
Context {FO : FloatOps}.

(* ===================================================================== *)
(** ** Term functions *)

(** [2.0 / (i * i * (i - 1.0))]: [i] is converted for the subtraction, then
    [i * i] for the product. *)
Definition xi_term (i : Z) : result flt :=
  fi <- of_int i ;;
  let d := fsub fi (lit 1 0) in
  fii <- of_int (i * i) ;;
  fdiv (lit 2 0) (fmul fii d).

(** [log2(i) / (i * i)] *)
Definition e_term (i : Z) : result flt :=
  l <- flog2_int i ;;
  fii <- of_int (i * i) ;;
  fdiv l fii.

(** [1.0 / (i * (phi_i + pi_i))] *)
Definition omega_term (i phi_i pi_i : Z) : result flt :=
  d <- of_int (i * (phi_i + pi_i)) ;;
  fdiv (lit 1 0) d.

(* ===================================================================== *)
(** ** Scalar evaluators *)

Definition Xi (n : Z) : result flt :=
  if n <? 3 then Ok (lit 0 0)
  else
    acc <- foldM (fun acc i => t <- xi_term i ;; Ok (Kahan.add acc t))
                 (py_range 3 (n + 1)) Kahan.new ;;
    Ok (Kahan.value acc).

Definition E (n : Z) : result flt :=
  if n <? 2 then Ok (lit 0 0)
  else
    acc <- foldM (fun acc i => t <- e_term i ;; Ok (Kahan.add acc t))
                 (py_range 2 (n + 1)) Kahan.new ;;
    Ok (Kahan.value acc).

Definition Omega (n : Z) (phi pi : list Z) : result flt :=
  if n <? 2 then Ok (lit 0 0)
  else
    acc <- foldM (fun acc i =>
                    phi_i <- getitem phi i ;;
                    pi_i <- getitem pi i ;;
                    t <- omega_term i phi_i pi_i ;;
                    Ok (Kahan.add acc t))
                 (py_range 2 (n + 1)) Kahan.new ;;
    Ok (Kahan.value acc).

Definition F (n : Z) (phi pi : list Z) : result flt :=
  x <- Xi n ;;
  o <- Omega n phi pi ;;
  e <- E n ;;
  Ok (fsub (fadd x o) e).

(* ===================================================================== *)
(** ** Streaming prefix engine *)

(** The yielded tuple [(n, xi_val, om_val, e_val, F_val)]. *)
Record prefix_record : Type := mk_record {
  rec_n : Z;
  rec_Xi : flt;
  rec_Omega : flt;
  rec_E : flt;
  rec_F : flt
}.

(** The local variables of [stream_prefix_values] that live across
    iterations. *)
Record stream_state : Type := mk_state {
  xi_acc : Kahan.t;
  om_acc : Kahan.t;
  e_acc : Kahan.t;
  xi_val : flt;
  om_val : flt;
  e_val : flt
}.

Definition stream_init : stream_state :=
  mk_state Kahan.new Kahan.new Kahan.new (lit 0 0) (lit 0 0) (lit 0 0).

(** One iteration of the [for n in range(1, N + 1)] loop, up to its [yield]. *)
Definition stream_body (phi pi : list Z) (st : stream_state) (n : Z)
  : result (stream_state * prefix_record) :=
  st1 <- (if n >=? 3 then
            t <- xi_term n ;;
            let a := Kahan.add (xi_acc st) t in
            Ok (mk_state a (om_acc st) (e_acc st)
                         (Kahan.value a) (om_val st) (e_val st))
          else Ok st) ;;
  st2 <- (if n >=? 2 then
            te <- e_term n ;;
            let ea := Kahan.add (e_acc st1) te in
            phi_n <- getitem phi n ;;
            pi_n <- getitem pi n ;;
            tm <- omega_term n phi_n pi_n ;;
            let oa := Kahan.add (om_acc st1) tm in
            Ok (mk_state (xi_acc st1) oa ea
                         (xi_val st1) (Kahan.value oa) (Kahan.value ea))
          else Ok st1) ;;
  let F_val := fsub (fadd (xi_val st2) (om_val st2)) (e_val st2) in
  Ok (st2, mk_record n (xi_val st2) (om_val st2) (e_val st2) F_val).

(** The trace of a generator: what it yields, then how it ends ([None] for
    exhaustion, [Some e] for an exception raised when the next record is
    requested). *)
Definition trace : Type := (list prefix_record * option exn)%type.

Fixpoint stream_loop (phi pi : list Z) (ns : list Z) (st : stream_state) : trace :=
  match ns with
  | [] => ([], None)
  | n :: ns' =>
      match stream_body phi pi st n with
      | Raise e => ([], Some e)
      | Ok (st', r) =>
          let '(rs, fin) := stream_loop phi pi ns' st' in (r :: rs, fin)
      end
  end.

Definition stream_prefix_values (N : Z) (phi pi : list Z) : trace :=
  stream_loop phi pi (py_range 1 (N + 1)) stream_init.

(* ===================================================================== *)
(** ** Tail bound certifier ([src/tails.py]) *)

Definition EULER_GAMMA : flt := lit 5772156649015329 (-16).

(** [2.0 / (n * n)] at [n = max(int(n), 2)] *)
Definition xi_tail_bound (n : Z) : result flt :=
  let n := Z.max n 2 in
  d <- of_int (n * n) ;;
  fdiv (lit 2 0) d.

(** [(log(n) + 1.0) / (n * log(2.0))] at [n = max(int(n), 2)] *)
Definition e_tail_bound (n : Z) : result flt :=
  let n := Z.max n 2 in
  l <- flog_int n ;;
  let num := fadd l (lit 1 0) in
  l2 <- flog (lit 2 0) ;;
  fn <- of_int n ;;
  fdiv num (fmul fn l2).

(** [((pow(2.718281828459045, EULER_GAMMA) * log(log(n))) + D_omega) / n] at
    [n = max(int(n), 3)] *)
Definition omega_tail_bound (n : Z) (D_omega : flt) : result flt :=
  let n := Z.max n 3 in
  pw <- fpow (lit 2718281828459045 (-15)) EULER_GAMMA ;;
  l <- flog_int n ;;
  ll <- flog l ;;
  let num := fadd (fmul pw ll) D_omega in
  fn <- of_int n ;;
  fdiv num fn.

Definition tail_record : Type := (flt * flt * flt * flt)%type.

Definition triad_tail_bound (n : Z) (D_omega : flt) : result tail_record :=
  rx <- xi_tail_bound n ;;
  re <- e_tail_bound n ;;
  ro <- omega_tail_bound n D_omega ;;
  Ok (rx, re, ro, fadd (fadd rx re) ro).

(** The default [D_omega = 10.0]. *)
Definition D_omega_default : flt := lit 10 0.

(* ===================================================================== *)
(** ** Certification composer ([compute_values] of [sanity_check.py]) *)

(** A [dict] with integer keys, in insertion order. *)
Definition dict (V : Type) : Type := list (Z * V).

Fixpoint dict_get {V : Type} (d : dict V) (k : Z) : option V :=
  match d with
  | [] => None
  | (k', v) :: d' => if k' =? k then Some v else dict_get d' k
  end.

(** [d[k] = v]: overwrite in place or append. *)
Fixpoint dict_set {V : Type} (d : dict V) (k : Z) (v : V) : dict V :=
  match d with
  | [] => [(k, v)]
  | (k', v') :: d' =>
      if k' =? k then (k, v) :: d' else (k', v') :: dict_set d' k v
  end.

(** [max(l)] of a list: [ValueError] on the empty list. *)
Definition py_max (l : list Z) : result Z :=
  match l with
  | [] => Raise ValueError
  | x :: l' => Ok (fold_left Z.max l' x)
  end.

(** [set(points) | {N_ref}], as a duplicate-free list. *)
Definition need_set (points : list Z) (N_ref : Z) : list Z :=
  nodup Z.eq_dec (points ++ [N_ref]).

Definition set_mem (x : Z) (s : list Z) : bool := existsb (Z.eqb x) s.

Definition vals_record : Type := (flt * flt * flt * flt)%type.

(** The [for ... in stream_prefix_values(...)] loop with its [break].  The
    generator is lazy: its exception, if any, is met only when the loop asks
    for a record past the last one yielded.  The [progress] printing is left
    out. *)
Fixpoint consume (need : list Z) (D_omega : flt) (recs : list prefix_record)
    (fin : option exn) (vals : dict vals_record) (Rb : dict tail_record)
  : result (dict vals_record * dict tail_record) :=
  match recs with
  | [] =>
      match fin with
      | None => Ok (vals, Rb)
      | Some e => Raise e
      end
  | r :: recs' =>
      let n := rec_n r in
      '(vals, Rb) <- (if set_mem n need then
                        let vals := dict_set vals n
                                      (rec_Xi r, rec_Omega r, rec_E r, rec_F r) in
                        tb <- triad_tail_bound n D_omega ;;
                        Ok (vals, dict_set Rb n tb)
                      else Ok (vals, Rb)) ;;
      if (length vals =? length need)%nat then Ok (vals, Rb)
      else consume need D_omega recs' fin vals Rb
  end.

Definition compute_values (points : list Z) (N_ref : Z) (D_omega : flt)
  : result (dict vals_record * dict tail_record * (flt * flt)) :=
  m <- py_max points ;;
  let N := Z.max m N_ref in
  phi <- sieve_phi N ;;
  pi <- sieve_pi N ;;
  let need := need_set points N_ref in
  let '(recs, fin) := stream_prefix_values N phi pi in
  '(vals, Rb) <- consume need D_omega recs fin [] [] ;;
  match dict_get vals N_ref with
  | None => Raise RuntimeError
  | Some (_, _, _, F_ref) =>
      match dict_get Rb N_ref with
      | None => Raise KeyError
      | Some (_, _, _, Rtot_ref) =>
          Ok (vals, Rb, (fsub F_ref Rtot_ref, fadd F_ref Rtot_ref))
      end
  end.

End Program.

(* ===================================================================== *)
(** ** Pairwise summation and the term tables of [src/triad.py] *)

Section Tables.
Context {FO : FloatOps}.

(** [pairwise_sum]: [0.0] on the empty list, [float(a[0])] (the element
    itself, a float) on a singleton, else the sum of the two halves
    [a[:mid]] and [a[mid:]] at [mid = n // 2]. *)
Equations pairwise_sum (a : list flt) : flt by wf (length a) lt :=
  pairwise_sum [] := lit 0 0;
  pairwise_sum [x] := x;
  pairwise_sum (x :: y :: l) :=
    let a := x :: y :: l in
    let mid := Nat.div (length a) 2 in
    fadd (pairwise_sum (firstn mid a)) (pairwise_sum (skipn mid a)).
Next Obligation.
  change (fst (Nat.divmod (length l) 1 1 1)) with (Nat.div (S (S (length l))) 2).
  pose proof (Nat.div_lt (S (S (length l))) 2 ltac:(lia) ltac:(lia)).
  pose proof (length_firstn (Nat.div (S (S (length l))) 2) (x :: y :: l)).
  simpl length in *. lia.
Defined.
Next Obligation.
  change (fst (Nat.divmod (length l) 1 1 1)) with (Nat.div (S (S (length l))) 2).
  pose proof (Nat.div_str_pos (S (S (length l))) 2 ltac:(lia)).
  pose proof (length_skipn (Nat.div (S (S (length l))) 2) (x :: y :: l)).
  simpl length in *. lia.
Defined.

(** [Xi_terms]: [t[i] = 2.0 / (i * i * (i - 1.0))] for [3 <= i <= N]. *)
Definition Xi_terms (N : Z) : result (list flt) :=
  let t := py_repeat (lit 0 0) (N + 1) in
  foldM (fun t i =>
           fi <- of_int i ;;
           let d := fsub fi (lit 1 0) in
           fii <- of_int (i * i) ;;
           v <- fdiv (lit 2 0) (fmul fii d) ;;
           setitem t i v)
        (py_range 3 (N + 1)) t.

(** [E_terms]: [t[i] = log2(i) / (i * i)] for [2 <= i <= N]. *)
Definition E_terms (N : Z) : result (list flt) :=
  let t := py_repeat (lit 0 0) (N + 1) in
  foldM (fun t i =>
           l <- flog2_int i ;;
           fii <- of_int (i * i) ;;
           v <- fdiv l fii ;;
           setitem t i v)
        (py_range 2 (N + 1)) t.

(** [Omega_terms]: [t[i] = 1.0 / (i * (phi[i] + pi[i]))] for [2 <= i <= N],
    with no test on the tables. *)
Definition Omega_terms (N : Z) (phi pi : list Z) : result (list flt) :=
  let t := py_repeat (lit 0 0) (N + 1) in
  foldM (fun t i =>
           phi_i <- getitem phi i ;;
           pi_i <- getitem pi i ;;
           d <- of_int (i * (phi_i + pi_i)) ;;
           v <- fdiv (lit 1 0) d ;;
           setitem t i v)
        (py_range 2 (N + 1)) t.

End Tables.

(* ===================================================================== *)
(** ** The older entry points ([scripts/triad_full.py])

    [src/triad.py] keeps [sieve_totients] and [Omega_terms] as compatibility
    names for these; the originals validate what the current functions do
    not. *)

Module triad_full.

(** [sieve_totients]: [N < 0] raises [ValueError] before any work. *)
Definition sieve_totients (N : Z) : result (list Z) :=
  if N <? 0 then Raise ValueError
  else
    let phi := py_range 0 (N + 1) in
    phi <- setitem phi 0 0 ;;
    phi <- (if N >=? 1 then setitem phi 1 1 else Ok phi) ;;
    foldM (fun phi i =>
             v <- getitem phi i ;;
             if v =? i then phi_inner N i phi else Ok phi)
          (py_range 2 (N + 1)) phi.

(** [Omega_terms]: a non-positive denominator raises [ArithmeticError]. *)
Definition Omega_terms {FO : FloatOps} (N : Z) (phi pi : list Z)
  : result (list flt) :=
  if (len phi <? N + 1) || (len pi <? N + 1) then Raise ValueError
  else
    let t := py_repeat (lit 0 0) (N + 1) in
    foldM (fun t i =>
             phi_i <- getitem phi i ;;
             pi_i <- getitem pi i ;;
             let denom := phi_i + pi_i in
             if denom <=? 0 then Raise ArithmeticError
             else
               d <- of_int (i * denom) ;;
               v <- fdiv (lit 1 0) d ;;
               setitem t i v)
          (py_range 2 (N + 1)) t.

(** [LOG2 = math.log(2.0)], evaluated when the module is loaded. *)
Definition LOG2 {FO : FloatOps} : result flt := flog (lit 2 0).

Definition EULER_GAMMA {FO : FloatOps} : flt := lit 5772156649015329 (-16).

(** [sieve_prime_counts]: a sieve of its own, whose outer loop runs up to
    [int(N ** 0.5)] (the [int] [N] is converted, then raised to [0.5]) and
    whose inner loop clears the multiples one by one; the counts are written
    from index 2 on. *)
Definition sieve_prime_counts {FO : FloatOps} {FM : FloatMore FO} (N : Z)
  : result (list Z) :=
  if N <? 1 then Ok (py_repeat 0 (N + 1))
  else
    let is_prime := py_repeat true (N + 1) in
    is_prime <- setitem is_prime 0 false ;;
    is_prime <- setitem is_prime 1 false ;;
    x <- of_int N ;;
    r <- fpow x (lit 5 (-1)) ;;
    limit <- to_int r ;;
    is_prime <- foldM (fun is_prime p =>
                         b <- getitem is_prime p ;;
                         if b : bool then
                           foldM (fun is_prime m => setitem is_prime m false)
                                 (py_range_step (p * p) (N + 1) p) is_prime
                         else Ok is_prime)
                      (py_range 2 (limit + 1)) is_prime ;;
    let pi := py_repeat 0 (N + 1) in
    let cnt := 0 in
    '(pi, cnt) <- foldM (fun '(pi, cnt) i =>
                           b <- getitem is_prime i ;;
                           let cnt := if b : bool then cnt + 1 else cnt in
                           pi <- setitem pi i cnt ;;
                           Ok (pi, cnt))
                        (py_range 2 (N + 1)) (pi, cnt) ;;
    Ok pi.

(** [Xi_terms]: [t[i] = 2.0 / (i * i * (i - 1))], the product taken on
    integers. *)
Definition Xi_terms {FO : FloatOps} (N : Z) : result (list flt) :=
  let t := py_repeat (lit 0 0) (N + 1) in
  foldM (fun t i =>
           d <- of_int (i * i * (i - 1)) ;;
           v <- fdiv (lit 2 0) d ;;
           setitem t i v)
        (py_range 3 (N + 1)) t.

(** [E_terms]: [t[i] = (math.log(i) / LOG2) / (i * i)]. *)
Definition E_terms {FO : FloatOps} (N : Z) : result (list flt) :=
  l2 <- LOG2 ;;
  let t := py_repeat (lit 0 0) (N + 1) in
  foldM (fun t i =>
           l <- flog_int i ;;
           q <- fdiv l l2 ;;
           fii <- of_int (i * i) ;;
           v <- fdiv q fii ;;
           setitem t i v)
        (py_range 2 (N + 1)) t.

(** [kahan_prefix_sum]: the compensated running sums of [arr], with the
    accumulator in two local variables; [float(x)] is [x] on a float. *)
Definition kahan_prefix_sum {FO : FloatOps} (arr : list flt)
  : result (list flt) :=
  let s := lit 0 0 in
  let c := lit 0 0 in
  let out := py_repeat (lit 0 0) (len arr) in
  '(s, c, out) <- foldM (fun '(s, c, out) '(i, x) =>
                           let y := fsub x c in
                           let t := fadd s y in
                           let c := fsub (fsub t s) y in
                           let s := t in
                           out <- setitem out i s ;;
                           Ok (s, c, out))
                        (combine (py_range 0 (len arr)) arr) (s, c, out) ;;
  Ok out.

Definition triad_prefixes {FO : FloatOps} {FM : FloatMore FO} (N : Z)
  : result (list flt * list flt * list flt) :=
  phi <- sieve_totients N ;;
  pi <- sieve_prime_counts N ;;
  Tx <- Xi_terms N ;;
  Te <- E_terms N ;;
  To <- Omega_terms N phi pi ;;
  xs <- kahan_prefix_sum Tx ;;
  es <- kahan_prefix_sum Te ;;
  os <- kahan_prefix_sum To ;;
  Ok (xs, es, os).

(** [max(a, b)] on floats: [b] when [b > a], else [a]. *)
Definition fmax {FO : FloatOps} {FM : FloatMore FO} (a b : flt) : flt :=
  if fgt b a then b else a.

(** [tail_bounds]: zeros below 2; from 2 on the three bounds, with
    [math.exp(EULER_GAMMA)] and the guards [max(., 1.0000001)] and
    [max(n, 1)]. *)
Definition tail_bounds {FO : FloatOps} {FM : FloatMore FO} (n : Z)
    (D_omega : flt) : result (flt * flt * flt) :=
  if n <? 2 then Ok (lit 0 0, lit 0 0, lit 0 0)
  else
    d <- of_int (n * n) ;;
    R_xi <- fdiv (lit 2 0) d ;;
    l <- flog_int n ;;
    l2 <- LOG2 ;;
    fn <- of_int n ;;
    R_e <- fdiv (fadd l (lit 1 0)) (fmul fn l2) ;;
    eg <- fexp EULER_GAMMA ;;
    l3 <- flog_int (Z.max n 3) ;;
    ll <- flog (fmax l3 (lit 10000001 (-7))) ;;
    fd <- of_int (Z.max n 1) ;;
    R_om <- fdiv (fadd (fmul eg ll) D_omega) fd ;;
    Ok (R_xi, R_e, R_om).

End triad_full.

(* ===================================================================== *)
(** ** Exact arithmetic *)

(** The real number a decimal literal denotes. *)
Definition Rlit (m e : Z) : R := (IZR m * powerRZ 10 e)%R.

(** The interpretation of floats as real numbers: every operation is exact
    and no conversion overflows; division by zero and logarithms outside
    their domain raise as in Python.  [fpow] is given at positive bases, the
    only ones the sources use. *)
Definition Exact : FloatOps := {|
  flt := R;
  lit := Rlit;
  of_int := fun z => Ok (IZR z);
  fadd := Rplus;
  fsub := Rminus;
  fmul := Rmult;
  fdiv := fun x y =>
    if Req_dec_T y 0 then Raise ZeroDivisionError else Ok (x / y)%R;
  flog := fun x => if Rlt_dec 0 x then Ok (ln x) else Raise ValueError;
  flog_int := fun z => if 0 <? z then Ok (ln (IZR z)) else Raise ValueError;
  flog2_int := fun z =>
    if 0 <? z then Ok (ln (IZR z) / ln 2)%R else Raise ValueError;
  fpow := fun x y => if Rlt_dec 0 x then Ok (Rpower x y) else Raise ValueError
|}.

(* ===================================================================== *)
(** ** Binary64 arithmetic *)

(** What the C library supplies: IEEE 754 does not fix the results of the
    logarithms and of the power, so they are parameters. *)
Record Libm : Type := {
  (** [math.log] at a float inside its domain *)
  libm_log : PrimFloat.float -> PrimFloat.float;
  (** [math.log] at a positive [int] *)
  libm_log_int : Z -> PrimFloat.float;
  (** [math.log2] at a positive [int] *)
  libm_log2_int : Z -> PrimFloat.float;
  (** [pow] on floats *)
  libm_pow : PrimFloat.float -> PrimFloat.float -> result PrimFloat.float
}.

(** The double nearest to an integer (ties to even), an infinity when it is
    out of range. *)
Definition double_of_Z (z : Z) : PrimFloat.float :=
  FloatOps.SF2Prim (SpecFloat.binary_normalize 53 1024 z 0 false).

(** The conversion of an [int] to [float]: [OverflowError] from
    [2^1024 - 2^970] on, the first magnitude that rounds to an infinity. *)
Definition double_of_int (z : Z) : result PrimFloat.float :=
  if Z.abs z <? 2 ^ 1024 - 2 ^ 970 then Ok (double_of_Z z)
  else Raise OverflowError.

(** The double a decimal literal [m]e[e] denotes, for a literal whose
    digits [m] and whose power of ten are doubles themselves ([m] below
    [2^53] and an exponent from [-22] on, as all literals of the sources
    are): the quotient of two doubles is then the nearest double. *)
Definition double_lit (m e : Z) : PrimFloat.float :=
  if 0 <=? e then double_of_Z (m * 10 ^ e)
  else PrimFloat.div (double_of_Z m) (double_of_Z (10 ^ (- e))).

(** Python floats on a platform whose C library is [L]: the four operations
    of IEEE 754 binary64, [ZeroDivisionError] for a zero divisor (of either
    sign), [ValueError] for a logarithm at a float or an [int] that is not
    positive. *)
Definition Double (L : Libm) : FloatOps := {|
  flt := PrimFloat.float;
  lit := double_lit;
  of_int := double_of_int;
  fadd := PrimFloat.add;
  fsub := PrimFloat.sub;
  fmul := PrimFloat.mul;
  fdiv := fun x y =>
    if PrimFloat.eqb y PrimFloat.zero then Raise ZeroDivisionError
    else Ok (PrimFloat.div x y);
  flog := fun x =>
    if PrimFloat.leb x PrimFloat.zero then Raise ValueError
    else Ok (libm_log L x);
  flog_int := fun z => if 0 <? z then Ok (libm_log_int L z) else Raise ValueError;
  flog2_int := fun z => if 0 <? z then Ok (libm_log2_int L z) else Raise ValueError;
  fpow := libm_pow L
|}.

(** The further operations over the real numbers: [int] truncates towards
    zero, [exp] never overflows. *)
Definition ExactMore : FloatMore Exact :=
  @Build_FloatMore Exact
    (fun x : R => Ok (if Rle_dec 0 x then Int_part x else - Int_part (- x)))
    (fun x : R => Ok (exp x))
    (fun x y : R => if Rgt_dec x y then true else false).

(* ===================================================================== *)
(** ** Reference notions for the sieve tables *)

(** The number of integers in [[1, i]] coprime to [i]. *)
Definition coprime_count (i : Z) : Z :=
  len (filter (fun k => Z.gcd k i =? 1) (py_range 1 (i + 1))).

Module NTDefs.
Import ssreflect ssrfun ssrbool eqtype ssrnat seq div prime bigop.

(** Primality of an integer, through MathComp's [prime] on [nat]. *)
Definition Zprime (k : Z) : bool := prime (Z.to_nat k).

(** Euler's totient of MathComp, on integers. *)
Definition Ztotient (k : Z) : Z := Z.of_nat (totient (Z.to_nat k)).

(** The factor the prime [p] contributes to entry [j] of the totient table
    once the outer loop of [sieve_phi] has gone through [2..i]. *)
Definition phi_factor (i j p : nat) : nat :=
  if (p <= i)%N then (p.-1 * p ^ (logn p j).-1)%N else (p ^ logn p j)%N.

(** Entry [j] of the totient table after the outer loop has gone through
    [2..i]. *)
Definition phi_upto (i j : nat) : nat :=
  (\prod_(p <- primes j) phi_factor i j p)%N.

Definition phiZ (i j : Z) : Z :=
  Z.of_nat (phi_upto (Z.to_nat i) (Z.to_nat j)).

End NTDefs.

Import NTDefs.

(** The number of primes [<= i]. *)
Definition prime_count (i : Z) : Z :=
  len (filter Zprime (py_range 0 (i + 1))).

(** Subscripting with a default, for statements about table entries. *)
Definition znth {A : Type} (d : A) (l : list A) (i : Z) : A :=
  nth (Z.to_nat i) l d.

(* ===================================================================== *)
(** ** Loop invariants of the sieves *)

(** The table before the outer loop reaches [i]. *)
Definition phi_inv (N i : Z) (phi : list Z) : Prop :=
  len phi = N + 1 /\ znth 0 phi 0 = 0 /\
  forall j, 1 <= j <= N -> znth 0 phi j = phiZ (i - 1) j.

(** [k] has no divisor [q] in [[2, p)] with [q * q <= k]. *)
Definition no_small_divisor (p k : Z) : bool :=
  forallb (fun q => negb ((q * q <=? k) && (k mod q =? 0))) (py_range 2 p).

(** The table when the [while] loop reaches [p]. *)
Definition sieve_inv (N p : Z) (t : list bool) : Prop :=
  len t = N + 1 /\
  forall k, 0 <= k <= N -> znth false t k = (2 <=? k) && no_small_divisor p k.

(** The table and the counter of [sieve_pi] before its loop reaches [k]. *)
Definition pi_inv (N k : Z) (s : list Z * Z) : Prop :=
  len (fst s) = N + 1 /\ snd s = prime_count (k - 1) /\
  forall j, 0 <= j < k -> znth 0 (fst s) j = prime_count j.

(* ===================================================================== *)
(** ** Notions about the accumulators and the stream *)

Section ProgramNotions.
Context {FO : FloatOps}.

(** A run of [add] calls, first element first. *)
Definition Kahan_adds (k : Kahan.t) (xs : list flt) : Kahan.t :=
  fold_left Kahan.add xs k.

(** The accumulator of [Xi] after its loop (the initial one when the range
    is empty). *)
Definition xi_accum (n : Z) : result Kahan.t :=
  foldM (fun acc i => t <- xi_term i ;; Ok (Kahan.add acc t))
        (py_range 3 (n + 1)) Kahan.new.

(** The accumulator of [E] after its loop. *)
Definition e_accum (n : Z) : result Kahan.t :=
  foldM (fun acc i => t <- e_term i ;; Ok (Kahan.add acc t))
        (py_range 2 (n + 1)) Kahan.new.

(** The accumulator of [Omega] after its loop. *)
Definition om_accum (n : Z) (phi pi : list Z) : result Kahan.t :=
  foldM (fun acc i =>
           phi_i <- getitem phi i ;;
           pi_i <- getitem pi i ;;
           t <- omega_term i phi_i pi_i ;;
           Ok (Kahan.add acc t))
        (py_range 2 (n + 1)) Kahan.new.

(** The state of the stream once [n] has been yielded: its accumulators are
    those of the scalar loops up to [n]. *)
Definition stream_inv (phi pi : list Z) (n : Z) (st : stream_state) : Prop :=
  xi_accum n = Ok (xi_acc st)
  /\ om_accum n phi pi = Ok (om_acc st)
  /\ e_accum n = Ok (e_acc st)
  /\ xi_val st = Kahan.value (xi_acc st)
  /\ om_val st = Kahan.value (om_acc st)
  /\ e_val st = Kahan.value (e_acc st).

(** The record yielded from a state. *)
Definition record_of (n : Z) (st : stream_state) : prefix_record :=
  mk_record n (xi_val st) (om_val st) (e_val st)
            (fsub (fadd (xi_val st) (om_val st)) (e_val st)).

(** An exception raised by one of the three scalar loops up to [n]. *)
Definition scalar_raises (phi pi : list Z) (n : Z) (e : exn) : Prop :=
  xi_accum n = Raise e \/ om_accum n phi pi = Raise e \/ e_accum n = Raise e.

(** What [compute_values] stores for a record. *)
Definition rec_vals (r : prefix_record) : vals_record :=
  (rec_Xi r, rec_Omega r, rec_E r, rec_F r).

(** What the two dictionaries of [compute_values] hold once its loop has
    seen the first [i] records of [all]: the keys are the needed indices up
    to [i], each with its record and its tail bounds. *)
Definition captured (need : list Z) (D : flt) (all : list prefix_record)
    (i : nat) (vals : dict vals_record) (Rb : dict tail_record) : Prop :=
  (forall k, In k (map fst vals) -> 1 <= k <= Z.of_nat i /\ In k need)
  /\ (forall k, 1 <= k <= Z.of_nat i -> In k need ->
        exists r tb, nth_error all (Z.to_nat (k - 1)) = Some r
                     /\ dict_get vals k = Some (rec_vals r)
                     /\ triad_tail_bound k D = Ok tb
                     /\ dict_get Rb k = Some tb)
  /\ NoDup (map fst vals).

End ProgramNotions.

(** [res] is the outcome of filling a table of length [N + 1], initially
    [d] everywhere, with the terms [g i] for [i] from [a] to [N]: the table
    of the terms when none raises, else the exception of the first term that
    raises. *)
Definition table_of {A : Type} (d : A) (a N : Z) (g : Z -> result A)
    (res : result (list A)) : Prop :=
  match res with
  | Ok t =>
      len t = Z.max 0 (N + 1)
      /\ (forall i, 0 <= i <= N -> i < a -> znth d t i = d)
      /\ (forall i, a <= i <= N -> g i = Ok (znth d t i))
  | Raise e =>
      exists i, a <= i <= N /\ g i = Raise e
                /\ forall j, a <= j < i -> exists v, g j = Ok v
  end.

(** Tables the stream can run on up to [N]: long enough, and with a non-zero
    denominator [phi[i] + pi[i]] at every [2 <= i <= N]. *)
Definition adequate (N : Z) (phi pi : list Z) : Prop :=
  N + 1 <= len phi /\ N + 1 <= len pi /\
  forall i, 2 <= i <= N -> znth 0 phi i + znth 0 pi i <> 0.

(* ===================================================================== *)
(** ** Magnitude of a binary64 value *)

(** [sf_big s d f]: the float [f] has sign [s] and is an infinity or a
    normal number [m * 2^e] with a mantissa of [53] bits, so of magnitude at
    least [2^(52 + e)], where [d <= 53 + e].  Such a float is not a zero:
    a division by it does not raise [ZeroDivisionError]. *)
Definition sf_big (s : bool) (d : Z) (f : SpecFloat.spec_float) : Prop :=
  f = SpecFloat.S754_infinity s
  \/ exists m e, f = SpecFloat.S754_finite s m e
       /\ Zpos (SpecFloat.digits2_pos m) = 53
       /\ -1074 <= e <= 971
       /\ d <= 53 + e.

Definition fl_big (s : bool) (d : Z) (x : PrimFloat.float) : Prop :=
  sf_big s d (FloatOps.Prim2SF x).

(* ===================================================================== *)
(** ** Closed forms of the tail bounds, over the reals *)

Local Open Scope R_scope.

(** The sum of a list of reals. *)
Definition Rsum (xs : list R) : R := fold_right Rplus 0 xs.

(** [R_Xi = 2 / m^2], at an already clamped index. *)
Definition R_Xi (m : Z) : R := 2 / (IZR m) ^ 2.

(** [R_E = (ln m + 1) / (m ln 2)], at an already clamped index. *)
Definition R_E (m : Z) : R := (ln (IZR m) + 1) / (IZR m * ln 2).

(** [e^gamma], with [e] and [gamma] the decimal constants of the code. *)
Definition exp_gamma : R := Rpower 2.718281828459045 0.5772156649015329.

(** [R_Omega = (e^gamma ln (ln k) + D) / k], at an already clamped index. *)
Definition R_Omega (D : R) (k : Z) : R :=
  (exp_gamma * ln (ln (IZR k)) + D) / IZR k.

(** The sum of the three, each at its own clamp of [n]. *)
Definition R_total (D : R) (n : Z) : R :=
  R_Xi (Z.max n 2) + R_E (Z.max n 2) + R_Omega D (Z.max n 3).

(** The terms of the three series, over the reals. *)
Definition R_xi_term (i : Z) : R := 2 / (IZR (i * i) * (IZR i - 1)).

Definition R_e_term (i : Z) : R := ln (IZR i) / ln 2 / IZR (i * i).

Definition R_omega_term (phi pi : list Z) (i : Z) : R :=
  1 / IZR (i * (znth 0%Z phi i + znth 0%Z pi i)).

(** The tuple [triad_tail_bound] returns at [n]. *)
Definition tail_at (D : R) (k : Z) : R * R * R * R :=
  (R_Xi (Z.max k 2), R_E (Z.max k 2), R_Omega D (Z.max k 3), R_total D k).

Local Close Scope R_scope.

Example sieve_phi_10 : sieve_phi 10 = Ok [0;1;1;2;2;4;2;6;4;6;4].
Proof. vm_compute. reflexivity. Qed.

Example sieve_pi_10 : sieve_pi 10 = Ok [0;0;1;2;2;3;3;4;4;4;4].
Proof. vm_compute. reflexivity. Qed.

Example sieve_neg : sieve_phi (-3) = Ok [] /\ sieve_pi (-3) = Ok [].
Proof. vm_compute. split; reflexivity. Qed.

(* ===================================================================== *)
(** ** Number theory behind the sieves (MathComp) *)

Module NT.
Import ssreflect ssrfun ssrbool eqtype ssrnat seq div prime bigop.
#[local] Set Implicit Arguments.
Local Open Scope nat_scope.

Lemma phi_upto_init j : 0 < j -> phi_upto 1 j = j.
Proof.
move=> j0; rewrite /phi_upto [RHS]prod_prime_decomp // prime_decompE big_map /=.
rewrite big_seq [RHS]big_seq; apply: eq_bigr => p.
rewrite mem_primes => /andP[pp _]; rewrite /phi_factor.
by rewrite leqNgt prime_gt1.
Qed.

Lemma phi_upto_skip q j : q \notin primes j -> phi_upto q j = phi_upto q.-1 j.
Proof.
move=> qj; rewrite /phi_upto big_seq [RHS]big_seq; apply: eq_bigr => p pj.
rewrite /phi_factor.
have pq : p != q by apply: contraNneq qj => <-.
have p0 : 0 < p by move: pj; rewrite mem_primes => /andP[/prime_gt0].
suff -> : (p <= q) = (p <= q.-1) by [].
rewrite leq_eqVlt (negbTE pq) /=.
by case: q {qj pq} => [|q] //=; rewrite ltn0; symmetry; apply/negbTE; rewrite -ltnNge.
Qed.

Lemma phi_upto_step q j : q \in primes j ->
  phi_upto q j = phi_upto q.-1 j - phi_upto q.-1 j %/ q.
Proof.
move=> qj; have := qj; rewrite mem_primes => /and3P[qp j0 qdj].
have q0 := prime_gt0 qp.
rewrite /phi_upto !(bigD1_seq q) ?primes_uniq //=.
have -> : \prod_(i <- primes j | i != q) phi_factor q j i
        = \prod_(i <- primes j | i != q) phi_factor q.-1 j i.
  rewrite big_seq_cond [RHS]big_seq_cond; apply: eq_bigr => p /andP[pj pq].
  rewrite /phi_factor leq_eqVlt (negbTE pq) /=.
  by rewrite -[in LHS](prednK q0) ltnS.
set r := \prod_(i <- _ | _) _.
rewrite /phi_factor leqnn.
have -> : (q <= q.-1) = false by rewrite -[in X in X <= _](prednK q0) ltnn.
have a0 : 0 < logn q j by rewrite logn_gt0.
have -> : q ^ logn q j = q * q ^ (logn q j).-1 by rewrite -expnS prednK.
rewrite -!mulnA mulKn //; set y := _ * r.
by rewrite -[X in _ = X * _ - _](prednK q0) mulSn addnC addnK.
Qed.

Lemma phi_upto_final i j : 0 < j -> j <= i -> phi_upto i j = totient j.
Proof.
move=> j0 ji; rewrite totientE // /phi_upto big_seq [RHS]big_seq.
apply: eq_bigr => p; rewrite mem_primes => /and3P[_ _ pj].
by rewrite /phi_factor (leq_trans (dvdn_leq j0 pj) ji).
Qed.

Lemma phi_factor_le i j p : p \in primes j -> phi_factor i j p <= p ^ logn p j.
Proof.
move=> pj; have a0 : 0 < logn p j by rewrite logn_gt0.
rewrite /phi_factor; case: ifP => // _.
by rewrite -[in X in _ <= X](prednK a0) expnS leq_mul2r leq_pred orbT.
Qed.

Lemma phi_upto_test q : 1 < q -> (phi_upto q.-1 q == q) = prime q.
Proof.
move=> q1; have q0 : 0 < q := ltnW q1.
have qN : (q <= q.-1) = false by rewrite -[in X in X <= _](prednK q0) ltnn.
apply/idP/idP; last first.
  move=> qp; rewrite /phi_upto primes_prime // big_seq1 /phi_factor qN.
  by rewrite logn_prime // eqxx expn1.
apply: contraLR => nqp.
suff: phi_upto q.-1 q < q by rewrite ltn_neqAle => /andP[].
set p := pdiv q.
have pp : prime p := pdiv_prime q1.
have pq : p %| q := pdiv_dvd q.
have p0 := prime_gt0 pp.
have pin : p \in primes q by rewrite mem_primes pp q0 pq.
have plt : p <= q.-1.
  rewrite -ltnS (prednK q0) ltn_neqAle dvdn_leq // andbT.
  by apply: contraNneq nqp => <-.
rewrite /phi_upto (bigD1_seq p) ?primes_uniq //=.
rewrite [X in _ < X]prod_prime_decomp // prime_decompE big_map /=.
rewrite [X in _ < X](bigD1_seq p) ?primes_uniq //=.
set r := \prod_(i <- _ | _) phi_factor _ _ _.
set r0 := \prod_(i <- _ | _) _ ^ _.
have r00 : 0 < r0.
  rewrite /r0 big_seq_cond; apply: prodn_cond_gt0 => i /andP[].
  by rewrite mem_primes => /andP[/prime_gt0 i0 _] _; rewrite expn_gt0 i0.
have rr0 : r <= r0.
  rewrite /r /r0 big_seq_cond [X in _ <= X]big_seq_cond.
  by apply: leq_prod => i /andP[ij _]; apply: phi_factor_le.
apply: (@leq_ltn_trans (phi_factor q.-1 q p * r0)); first by rewrite leq_mul2l rr0 orbT.
rewrite ltn_pmul2r // /phi_factor plt.
have a0 : 0 < logn p q by rewrite logn_gt0.
rewrite -[in X in _ < X](prednK a0) expnS ltn_pmul2r ?expn_gt0 ?p0 //.
by rewrite prednK.
Qed.

Lemma prime_trial k :
  prime k <-> 1 < k /\ forall q, 1 < q -> q * q <= k -> ~ q %| k.
Proof.
split.
  move=> kp; split; first exact: prime_gt1.
  move=> q q1 qk qd.
  have := kp => /primeP[k1 /(_ q qd)]; rewrite (gtn_eqF q1) /= => /eqP qe.
  by move: qk; rewrite qe leqNgt -{1}[k]mul1n ltn_pmul2r ?k1 // ltnW.
case=> k1 H; apply/negPn/negP => /primePns[|[p [pp pk pd]]].
  by rewrite ltnNge k1.
by apply: (H p) => //; exact: prime_gt1.
Qed.

(** Bridges between [nat] of ssrnat and the Standard Library. *)

Lemma divideP d n : Nat.divide d n <-> d %| n.
Proof.
split; first by case=> z ->; apply/dvdnP; exists z.
by move/dvdnP=> [z ->]; exists z.
Qed.

Lemma ZdivideP q k : (0 <= q)%Z -> (0 <= k)%Z ->
  (q | k)%Z <-> Z.to_nat q %| Z.to_nat k.
Proof.
move=> q0 k0; rewrite -divideP; split.
  case=> z zE; exists (Z.to_nat z).
  have [qe|qn0] := Z.eq_dec q 0; first by rewrite zE qe Z.mul_0_r Nat.mul_0_r.
  by rewrite zE Z2Nat.inj_mul //; nia.
case=> z zE; exists (Z.of_nat z).
by rewrite -[k]Z2Nat.id // zE Nat2Z.inj_mul Z2Nat.id.
Qed.

Lemma gcdnE a b : gcdn a b = Nat.gcd a b.
Proof.
symmetry; apply: Nat.gcd_unique.
- exact/divideP/dvdn_gcdl.
- exact/divideP/dvdn_gcdr.
- by move=> q /divideP qa /divideP qb; apply/divideP; rewrite dvdn_gcd qa qb.
Qed.

Lemma divnE a q : 0 < q -> a %/ q = Nat.div a q.
Proof.
move=> q0; apply: (Nat.div_unique _ _ _ (a %% q)).
  by apply/ltP; rewrite ltn_mod.
by rewrite [LHS](divn_eq a q) mulnC.
Qed.

Lemma seq_iota a n : List.seq a n = iota a n.
Proof. by elim: n a => //= n IH a; rewrite IH. Qed.


Lemma to_nat_pred q : Z.to_nat (q - 1) = (Z.to_nat q).-1.
Proof. by rewrite Z.sub_1_r Z2Nat.inj_pred. Qed.

Lemma to_nat_gt0 j : (0 < j)%Z -> 0 < Z.to_nat j.
Proof. by move=> j0; apply/ltP; lia. Qed.

Lemma phiZ_init j : (0 < j)%Z -> phiZ 1 j = j.
Proof.
by move=> j0; rewrite /phiZ phi_upto_init ?Z2Nat.id ?to_nat_gt0 //; lia.
Qed.

Lemma phiZ_test q : (2 <= q)%Z -> phiZ (q - 1) q = q <-> Zprime q = true.
Proof.
move=> q2; have q1 : 1 < Z.to_nat q by apply/ltP; lia.
rewrite /phiZ /Zprime to_nat_pred -(@phi_upto_test _ q1).
split; first by move=> H; apply/eqP/Nat2Z.inj; rewrite H Z2Nat.id //; lia.
by move/eqP=> ->; rewrite Z2Nat.id //; lia.
Qed.

Lemma Zprime_primes q j : (0 < j)%Z -> (0 <= q)%Z ->
  (Z.to_nat q \in primes (Z.to_nat j)) = Zprime q && (j mod q =? 0)%Z.
Proof.
move=> j0 q0; rewrite mem_primes to_nat_gt0 //= /Zprime.
case pq: (prime _) => //=.
have q1 : (0 < q)%Z by move/prime_gt0/ltP: pq; lia.
apply/idP/idP.
  by move/ZdivideP => H; apply/Z.eqb_eq/Z.mod_divide; [lia | apply: H; lia].
by move/Z.eqb_eq/Z.mod_divide => H; apply/ZdivideP; [lia | lia | apply: H; lia].
Qed.

Lemma phiZ_step q j : (0 < j)%Z -> Zprime q = true -> (j mod q = 0)%Z ->
  phiZ q j = (phiZ (q - 1) j - phiZ (q - 1) j / q)%Z.
Proof.
move=> j0 pq qj.
have q0 : (0 < q)%Z by move/prime_gt0/ltP: pq; lia.
have qin : Z.to_nat q \in primes (Z.to_nat j).
  by rewrite (Zprime_primes j0 (Z.lt_le_incl _ _ q0)) pq qj.
rewrite /phiZ to_nat_pred phi_upto_step // -minusE.
rewrite Nat2Z.inj_sub; first by apply/leP; exact: leq_div.
by rewrite divnE ?to_nat_gt0 // Nat2Z.inj_div Z2Nat.id //; lia.
Qed.

Lemma phiZ_skip q j : (0 < j)%Z -> (0 <= q)%Z ->
  Zprime q = false \/ (j mod q <> 0)%Z -> phiZ q j = phiZ (q - 1) j.
Proof.
move=> j0 q0 H; rewrite /phiZ to_nat_pred phi_upto_skip //.
rewrite Zprime_primes //; case: H => [->//|H]; apply/negP => /andP[_ /Z.eqb_eq].
exact: H.
Qed.

Lemma phiZ_final i j : (0 < j <= i)%Z -> phiZ i j = Ztotient j.
Proof.
move=> [j0 ji]; rewrite /phiZ /Ztotient phi_upto_final ?to_nat_gt0 //.
by apply/leP; lia.
Qed.

Lemma Ztotient_gt0 j : (0 < j)%Z -> (0 < Ztotient j)%Z.
Proof.
move=> j0; rewrite /Ztotient.
have /ltP : 0 < totient (Z.to_nat j) by rewrite totient_gt0 to_nat_gt0.
lia.
Qed.

Lemma Ztotient_prime p : Zprime p = true -> Ztotient p = (p - 1)%Z.
Proof.
rewrite /Zprime /Ztotient => pp; rewrite totient_prime //.
by move/prime_gt0/ltP: pp => p0; rewrite -to_nat_pred Z2Nat.id //; lia.
Qed.

Lemma Zprime_trial k :
  Zprime k = true <->
  (2 <= k)%Z /\ forall q, (2 <= q)%Z -> (q * q <= k)%Z -> (k mod q <> 0)%Z.
Proof.
rewrite /Zprime; split.
  move/prime_trial=> [/ltP k1 H]; split; first by lia.
  move=> q q2 qk /Z.mod_divide qd.
  apply: (H (Z.to_nat q)).
  - by apply/ltP; lia.
  - by apply/leP; rewrite -multE; nia.
  - by apply/ZdivideP; [lia | lia | apply: qd; lia].
case=> k2 H; apply/prime_trial; split; first by apply/ltP; lia.
move=> q /ltP q1 /leP; rewrite -multE => qk qd.
apply: (H (Z.of_nat q)); [lia | nia |].
apply/Z.mod_divide; first by lia.
by apply/ZdivideP; [lia | lia | rewrite Nat2Z.id].
Qed.


Lemma sum_count (P : pred nat) s : \sum_(d <- s) (P d : nat) = count P s.
Proof. by elim: s => [|x s IH]; rewrite ?big_nil // big_cons IH. Qed.

Lemma totient_count1 n : 0 < n -> totient n = count (coprime n) (iota 1 n).
Proof.
case: n => // n _; rewrite totient_count_coprime big_ltn //.
rewrite -sum_count -[iota 1 n.+1]/(index_iota 1 n.+2) [RHS]big_nat_recr //=.
by rewrite /coprime gcdn0 gcdnn addnC.
Qed.

Lemma gcdZ a b : Z.gcd (Z.of_nat a) (Z.of_nat b) = Z.of_nat (gcdn a b).
Proof.
apply: Z.gcd_unique; first by lia.
- by apply/ZdivideP; rewrite ?Nat2Z.id ?dvdn_gcdl //; lia.
- by apply/ZdivideP; rewrite ?Nat2Z.id ?dvdn_gcdr //; lia.
move=> q /Z.divide_abs_l qa /Z.divide_abs_l qb.
have aq := Z.abs_nonneg q.
have qa' : Z.to_nat (Z.abs q) %| a.
  by have := proj1 (ZdivideP aq (Nat2Z.is_nonneg a)) qa; rewrite Nat2Z.id.
have qb' : Z.to_nat (Z.abs q) %| b.
  by have := proj1 (ZdivideP aq (Nat2Z.is_nonneg b)) qb; rewrite Nat2Z.id.
apply/Z.divide_abs_l/(ZdivideP aq (Nat2Z.is_nonneg _)).
by rewrite Nat2Z.id dvdn_gcd qa' qb'.
Qed.

Lemma gcd_coprime n k :
  (Z.gcd (1 + Z.of_nat k) (Z.of_nat n) =? 1)%Z = coprime n (1 + k).
Proof.
rewrite /coprime gcdnC -(Nat2Z.inj_add 1) gcdZ.
apply/idP/idP; last by move/eqP=> ->.
by move/Z.eqb_eq=> H; apply/eqP/Nat2Z.inj.
Qed.

Lemma Ztotient_count j : (0 < j)%Z -> Ztotient j = coprime_count j.
Proof.
move=> j0; rewrite /Ztotient totient_count1 ?to_nat_gt0 //.
rewrite /coprime_count /len /py_range; congr Z.of_nat.
have -> : Z.to_nat (j + 1 - 1) = Z.to_nat j by congr Z.to_nat; lia.
have jE : j = Z.of_nat (Z.to_nat j) by rewrite Z2Nat.id //; lia.
move: (Z.to_nat j) jE => n ->; rewrite seq_iota (iotaDl 1 0).
elim: (iota 0 n) => //= k s ->.
by rewrite gcd_coprime; case: (coprime _ _).
Qed.

End NT.

(* ===================================================================== *)
(** ** Lists, subscripts and ranges *)

Lemma upd_length {A : Type} (l : list A) k v : length (upd l k v) = length l.
Proof.
  revert k; induction l as [|h t IH]; intros [|k]; simpl; auto.
Qed.

Lemma nth_upd_same {A : Type} (l : list A) k v d :
  (k < length l)%nat -> nth k (upd l k v) d = v.
Proof.
  revert k; induction l as [|h t IH]; intros [|k] Hk; simpl in *; try lia; auto.
  apply IH; lia.
Qed.

Lemma nth_upd_other {A : Type} (l : list A) k j v d :
  j <> k -> nth j (upd l k v) d = nth j l d.
Proof.
  revert k j; induction l as [|h t IH]; intros [|k] [|j] Hjk; simpl; auto; try congruence.
Qed.

Lemma len_upd {A : Type} (l : list A) k v : len (upd l k v) = len l.
Proof. unfold len; now rewrite upd_length. Qed.

Lemma len_nonneg {A : Type} (l : list A) : 0 <= len l.
Proof. unfold len; lia. Qed.

Lemma getitem_ok {A : Type} (d : A) (l : list A) i :
  0 <= i < len l -> getitem l i = Ok (znth d l i).
Proof.
  intros Hi. unfold getitem, norm_index, znth.
  destruct (i <? 0) eqn:E; [apply Z.ltb_lt in E; lia|].
  replace ((0 <=? i) && (i <? len l)) with true
    by (symmetry; apply andb_true_iff; split; [apply Z.leb_le | apply Z.ltb_lt]; lia).
  destruct (nth_error l (Z.to_nat i)) eqn:En.
  - now rewrite (nth_error_nth _ _ d En).
  - apply nth_error_None in En. unfold len in Hi. lia.
Qed.

Lemma setitem_ok {A : Type} (l : list A) i v :
  0 <= i < len l -> setitem l i v = Ok (upd l (Z.to_nat i) v).
Proof.
  intros Hi. unfold setitem, norm_index.
  destruct (i <? 0) eqn:E; [apply Z.ltb_lt in E; lia|].
  now replace ((0 <=? i) && (i <? len l)) with true
    by (symmetry; apply andb_true_iff; split; [apply Z.leb_le | apply Z.ltb_lt]; lia).
Qed.

(** A non-negative subscript past the end raises. *)
Lemma getitem_out {A : Type} (l : list A) i :
  len l <= i -> getitem l i = Raise IndexError.
Proof.
  intros Hi. unfold getitem, norm_index. pose proof (len_nonneg l).
  destruct (i <? 0) eqn:E; [apply Z.ltb_lt in E; lia|].
  replace (i <? len l) with false by (symmetry; apply Z.ltb_ge; lia).
  now rewrite andb_false_r.
Qed.

Lemma znth_upd_same {A : Type} (d : A) l i v :
  0 <= i < len l -> znth d (upd l (Z.to_nat i) v) i = v.
Proof. intros Hi. unfold znth. apply nth_upd_same. unfold len in Hi. lia. Qed.

Lemma znth_upd_other {A : Type} (d : A) l i j v :
  0 <= i -> 0 <= j -> j <> i -> znth d (upd l (Z.to_nat i) v) j = znth d l j.
Proof. intros Hi Hj Hn. unfold znth. apply nth_upd_other. lia. Qed.

Lemma znth_repeat {A : Type} (d x : A) n i :
  0 <= i < n -> znth d (py_repeat x n) i = x.
Proof.
  intros Hi. unfold znth, py_repeat. apply nth_repeat_lt. lia.
Qed.

Lemma len_repeat {A : Type} (x : A) n : 0 <= n -> len (py_repeat x n) = n.
Proof. intros Hn. unfold len, py_repeat. rewrite repeat_length. lia. Qed.

Lemma py_range_nil a b : b <= a -> py_range a b = [].
Proof. intros H. unfold py_range. now replace (Z.to_nat (b - a)) with 0%nat by lia. Qed.

Lemma py_range_cons a b : a < b -> py_range a b = a :: py_range (a + 1) b.
Proof.
  intros H. unfold py_range.
  replace (Z.to_nat (b - a)) with (S (Z.to_nat (b - (a + 1)))) by lia.
  simpl. f_equal; [lia|].
  rewrite <- seq_shift, map_map. apply map_ext. intros k. lia.
Qed.

Lemma py_range_snoc a b : a <= b -> py_range a (b + 1) = py_range a b ++ [b].
Proof.
  intros H. unfold py_range.
  replace (Z.to_nat (b + 1 - a)) with (Z.to_nat (b - a) + 1)%nat by lia.
  rewrite seq_app, map_app. simpl. do 2 f_equal. lia.
Qed.

Lemma py_range_length a b : len (py_range a b) = Z.max 0 (b - a).
Proof. unfold len, py_range. rewrite length_map, length_seq. lia. Qed.

Lemma py_range_In a b x : In x (py_range a b) <-> a <= x < b.
Proof.
  unfold py_range. rewrite in_map_iff. split.
  - intros (k & <- & Hk). apply in_seq in Hk. lia.
  - intros Hx. exists (Z.to_nat (x - a)). split; [lia|]. apply in_seq. lia.
Qed.

Lemma znth_py_range a b i : 0 <= i < b - a -> znth 0 (py_range a b) i = a + i.
Proof.
  intros Hi. unfold znth, py_range.
  set (f := fun k => a + Z.of_nat k).
  rewrite (nth_indep _ 0 (f 0%nat)) by (rewrite length_map, length_seq; lia).
  rewrite map_nth, seq_nth by lia. unfold f. lia.
Qed.

Lemma py_range_step_In a b st x :
  0 < st -> In x (py_range_step a b st) <-> a <= x < b /\ (x - a) mod st = 0.
Proof.
  intros Hst. unfold py_range_step. rewrite in_map_iff. split.
  - intros (k & <- & Hk). apply in_seq in Hk.
    assert (Hk' : Z.of_nat k < (b - a + st - 1) / st) by lia.
    assert (Hb : st * ((b - a + st - 1) / st) <= b - a + st - 1)
      by (apply Z.mul_div_le; lia).
    split; [nia|].
    replace (a + Z.of_nat k * st - a) with (Z.of_nat k * st) by lia.
    apply Z.mod_mul; lia.
  - intros [Hx Hm]. apply Z.mod_divide in Hm; [|lia]. destruct Hm as [k Hk].
    assert (0 <= k) by nia.
    exists (Z.to_nat k). split; [nia|]. apply in_seq. split; [lia|].
    simpl. apply Nat2Z.inj_lt. rewrite Z2Nat.id by lia.
    rewrite Z2Nat.id.
    + apply Z.lt_le_trans with (k + 1); [lia|].
      apply Z.div_le_lower_bound; [lia|nia].
    + apply Z.div_pos; nia.
Qed.

Lemma py_range_step_NoDup a b st : 0 < st -> NoDup (py_range_step a b st).
Proof.
  intros Hst. unfold py_range_step. apply NoDup_map_inv with (f := fun x => (x - a) / st).
  rewrite map_map.
  rewrite (map_ext_in _ Z.of_nat).
  - apply NoDup_map_inv with (f := Z.to_nat). rewrite map_map.
    rewrite (map_ext _ (fun k => k)) by (intros; apply Nat2Z.id).
    rewrite map_id. apply seq_NoDup.
  - intros k _. replace (a + Z.of_nat k * st - a) with (Z.of_nat k * st) by lia.
    apply Z.div_mul. lia.
Qed.

Lemma py_range_step_length a b st :
  0 < st -> a <= b -> len (py_range_step a b st) = (b - a + st - 1) / st.
Proof.
  intros Hst Hab. unfold len, py_range_step. rewrite length_map, length_seq.
  apply Z2Nat.id. apply Z.div_pos; lia.
Qed.

(* ===================================================================== *)
(** ** Loop rules *)

(** The rule of a [for k in range(a, b)] loop with an invariant indexed by
    the next value of [k]. *)
Lemma foldM_range {A : Type} (body : A -> Z -> result A) (I : Z -> A -> Prop)
    (a b : Z) (s0 : A) :
  I a s0 ->
  (forall k s, a <= k < b -> I k s -> exists s', body s k = Ok s' /\ I (k + 1) s') ->
  exists s, foldM body (py_range a b) s0 = Ok s /\ I (Z.max a b) s.
Proof.
  remember (Z.to_nat (b - a)) as n eqn:En.
  revert a s0 En. induction n as [|n IH]; intros a s0 En H0 Hstep.
  - rewrite py_range_nil by lia. exists s0. split; [reflexivity|].
    now replace (Z.max a b) with a by lia.
  - rewrite py_range_cons by lia. simpl.
    destruct (Hstep a s0 ltac:(lia) H0) as (s1 & E1 & I1). rewrite E1. simpl.
    destruct (IH (a + 1) s1 ltac:(lia) I1) as (s & Es & Is).
    + intros k s Hk. apply Hstep. lia.
    + exists s. split; [exact Es|].
      now replace (Z.max a b) with (Z.max (a + 1) b) by lia.
Qed.

(** A loop that rewrites, one at a time, the entries at pairwise distinct
    subscripts. *)
Lemma foldM_pointwise (f : Z -> Z) (js : list Z) (l : list Z) :
  NoDup js -> (forall j, In j js -> 0 <= j < len l) ->
  exists l',
    foldM (fun phi j => v <- getitem phi j ;; setitem phi j (f v)) js l = Ok l'
    /\ len l' = len l
    /\ (forall k, In k js -> znth 0 l' k = f (znth 0 l k))
    /\ (forall k, 0 <= k -> ~ In k js -> znth 0 l' k = znth 0 l k).
Proof.
  revert l. induction js as [|j js IH]; intros l Hnd Hin.
  - exists l. simpl. repeat split; auto. intros k [].
  - inversion Hnd as [|? ? Hj Hnd']; subst.
    assert (Hjl : 0 <= j < len l) by (apply Hin; now left).
    simpl. rewrite (getitem_ok 0) by exact Hjl. simpl.
    rewrite setitem_ok by exact Hjl. simpl.
    set (l1 := upd l (Z.to_nat j) (f (znth 0 l j))).
    destruct (IH l1 Hnd') as (l' & E & Hlen & Hin' & Hout').
    { intros k Hk. unfold l1. rewrite len_upd. apply Hin. now right. }
    exists l'. split; [exact E|]. split; [unfold l1 in Hlen; now rewrite len_upd in Hlen|].
    split.
    + intros k [<-|Hk].
      * rewrite Hout' by first [assumption | lia]. unfold l1. now apply znth_upd_same.
      * rewrite Hin' by exact Hk. unfold l1.
        assert (0 <= k < len l) by (apply Hin; now right).
        rewrite znth_upd_other; [reflexivity | lia | lia |].
        intros ->. contradiction.
    + intros k Hk0 Hk. rewrite Hout' by first [assumption | tauto]. unfold l1.
      apply znth_upd_other; [lia | lia |]. intros ->. apply Hk. now left.
Qed.

(* ===================================================================== *)
(** ** The totient sieve *)

Lemma mod_shift k i : 0 < i -> (k - i) mod i = k mod i.
Proof.
  intros Hi. replace (k - i) with (k + (-1) * i) by lia. apply Z.mod_add. lia.
Qed.

Lemma phi_inner_spec N i phi :
  0 < i -> len phi = N + 1 ->
  exists phi',
    phi_inner N i phi = Ok phi'
    /\ len phi' = N + 1
    /\ forall k, 0 <= k <= N ->
         znth 0 phi' k =
           if (i <=? k) && (k mod i =? 0)
           then znth 0 phi k - znth 0 phi k / i
           else znth 0 phi k.
Proof.
  intros Hi Hlen. unfold phi_inner.
  destruct (foldM_pointwise (fun v => v - v / i) (py_range_step i (N + 1) i) phi)
    as (phi' & E & Hl & Hin & Hout).
  - now apply py_range_step_NoDup.
  - intros j Hj. apply py_range_step_In in Hj; lia.
  - exists phi'. split; [exact E|]. split; [lia|].
    intros k Hk.
    destruct ((i <=? k) && (k mod i =? 0)) eqn:Eb.
    + apply andb_true_iff in Eb. destruct Eb as [E1 E2].
      apply Z.leb_le in E1. apply Z.eqb_eq in E2.
      apply Hin. apply py_range_step_In; [lia|]. rewrite mod_shift by lia. lia.
    + apply Hout; [lia|]. intros Hj. apply py_range_step_In in Hj; [|lia].
      rewrite mod_shift in Hj by lia.
      apply andb_false_iff in Eb. destruct Eb as [Eb|Eb].
      * apply Z.leb_gt in Eb. lia.
      * apply Z.eqb_neq in Eb. lia.
Qed.

Lemma phi_outer_step N i phi :
  2 <= i <= N -> phi_inv N i phi ->
  exists phi',
    (v <- getitem phi i ;; if v =? i then phi_inner N i phi else Ok phi) = Ok phi'
    /\ phi_inv N (i + 1) phi'.
Proof.
  intros Hi (Hlen & H0 & Hj).
  rewrite (getitem_ok 0) by lia. simpl.
  rewrite (Hj i) by lia. unfold phi_inv.
  replace (i + 1 - 1) with i by lia.
  destruct (phiZ (i - 1) i =? i) eqn:Et.
  - apply Z.eqb_eq in Et. apply NT.phiZ_test in Et; [|lia].
    destruct (phi_inner_spec N i phi ltac:(lia) Hlen) as (phi' & E & Hl & Hk).
    exists phi'. split; [exact E|]. split; [exact Hl|]. split.
    + rewrite Hk by lia. replace (i <=? 0) with false by (symmetry; apply Z.leb_gt; lia).
      exact H0.
    + intros j Hj1. rewrite Hk by lia. rewrite !Hj by lia.
      destruct ((i <=? j) && (j mod i =? 0)) eqn:Eb.
      * apply andb_true_iff in Eb. destruct Eb as [_ E2]. apply Z.eqb_eq in E2.
        symmetry. apply NT.phiZ_step; auto; lia.
      * symmetry. apply NT.phiZ_skip; [lia|lia|]. right.
        apply andb_false_iff in Eb. destruct Eb as [Eb|Eb].
        -- apply Z.leb_gt in Eb. rewrite Z.mod_small; lia.
        -- now apply Z.eqb_neq in Eb.
  - exists phi. split; [reflexivity|]. split; [exact Hlen|]. split; [exact H0|].
    intros j Hj1. rewrite Hj by lia. symmetry. apply NT.phiZ_skip; [lia|lia|]. left.
    apply Z.eqb_neq in Et.
    destruct (Zprime i) eqn:Ep; [|reflexivity].
    exfalso. apply Et. apply NT.phiZ_test; [lia|exact Ep].
Qed.

Lemma sieve_phi_init N :
  0 <= N ->
  exists phi,
    (if N >=? 1 then setitem (py_range 0 (N + 1)) 1 1 else Ok (py_range 0 (N + 1)))
      = Ok phi
    /\ phi_inv N 2 phi.
Proof.
  intros HN.
  assert (Hlen : len (py_range 0 (N + 1)) = N + 1) by (rewrite py_range_length; lia).
  destruct (N >=? 1) eqn:E1.
  - apply Z.geb_le in E1. rewrite setitem_ok by lia.
    eexists. split; [reflexivity|]. split; [now rewrite len_upd|]. split.
    + rewrite znth_upd_other by lia. apply znth_py_range. lia.
    + intros j Hj. rewrite NT.phiZ_init by lia.
      destruct (Z.eq_dec j 1) as [->|Hn].
      * apply znth_upd_same. lia.
      * rewrite znth_upd_other by lia. rewrite znth_py_range; lia.
  - eexists. split; [reflexivity|]. split; [exact Hlen|]. split.
    + apply znth_py_range. lia.
    + intros j Hj. rewrite Z.geb_leb in E1. apply Z.leb_gt in E1. lia.
Qed.

(** The totient sieve returns the table of Euler's totient. *)
Lemma sieve_phi_spec N :
  0 <= N ->
  exists phi,
    sieve_phi N = Ok phi
    /\ len phi = N + 1
    /\ znth 0 phi 0 = 0
    /\ forall j, 1 <= j <= N -> znth 0 phi j = Ztotient j.
Proof.
  intros HN. unfold sieve_phi.
  destruct (sieve_phi_init N HN) as (phi0 & E0 & I0). rewrite E0. simpl.
  destruct (foldM_range
              (fun phi i => v <- getitem phi i ;;
                            if v =? i then phi_inner N i phi else Ok phi)
              (phi_inv N) 2 (N + 1) phi0 I0) as (phi & E & (Hl & H0 & Hj)).
  - intros k s Hk Hs. apply phi_outer_step; [lia|exact Hs].
  - exists phi. split; [exact E|]. split; [exact Hl|]. split; [exact H0|].
    intros j Hj1. rewrite Hj by lia. apply NT.phiZ_final. lia.
Qed.

(* ===================================================================== *)
(** ** The sieve of Eratosthenes *)

(** Writing one value at a list of in-range subscripts. *)
Lemma fold_upd_const {A : Type} (d v : A) (idxs : list Z) (l : list A) :
  (forall j, In j idxs -> 0 <= j < len l) ->
  let l' := fold_left (fun t iv => upd t (Z.to_nat (fst iv)) (snd iv))
                      (combine idxs (repeat v (length idxs))) l in
  len l' = len l
  /\ (forall k, In k idxs -> znth d l' k = v)
  /\ (forall k, 0 <= k -> ~ In k idxs -> znth d l' k = znth d l k).
Proof.
  revert l. induction idxs as [|j js IH]; intros l Hin; simpl.
  - repeat split; auto. intros k [].
  - assert (Hj : 0 <= j < len l) by (apply Hin; now left).
    destruct (IH (upd l (Z.to_nat j) v)) as (Hl & Hi & Ho).
    { intros k Hk. rewrite len_upd. apply Hin. now right. }
    rewrite len_upd in Hl. split; [exact Hl|]. split.
    + intros k [<-|Hk]; [|now apply Hi].
      destruct (in_dec Z.eq_dec j js) as [Hjs|Hjs]; [now apply Hi|].
      rewrite Ho by (auto; lia). now apply znth_upd_same.
    + intros k Hk0 Hk. rewrite Ho by (auto; tauto).
      apply znth_upd_other; [lia | lia |]. intros ->. apply Hk. now left.
Qed.

Lemma setslice_false (t : list bool) (N p : Z) :
  0 < p -> p * p <= N -> len t = N + 1 ->
  exists t',
    setslice t (p * p) (N + 1) p (py_repeat false (((N - p * p) / p) + 1)) = Ok t'
    /\ len t' = N + 1
    /\ forall k, 0 <= k <= N ->
         znth false t' k =
           znth false t k && negb ((p * p <=? k) && (k mod p =? 0)).
Proof.
  intros Hp Hpp Hlen. unfold setslice. rewrite Hlen, Z.min_id.
  set (idxs := py_range_step (p * p) (N + 1) p).
  assert (Hidx : len idxs = (N - p * p) / p + 1).
  { unfold idxs. rewrite py_range_step_length by lia.
    replace (N + 1 - p * p + p - 1) with (N - p * p + 1 * p) by lia.
    apply Z.div_add. lia. }
  assert (Hnn : 0 <= (N - p * p) / p) by (apply Z.div_pos; lia).
  assert (Hrep : py_repeat false ((N - p * p) / p + 1) = repeat false (length idxs)).
  { unfold py_repeat. f_equal. unfold len in Hidx. lia. }
  rewrite Hrep, repeat_length, Nat.eqb_refl.
  destruct (@fold_upd_const bool false false idxs t) as (Hl & Hi & Ho).
  { intros j Hj. apply py_range_step_In in Hj; lia. }
  eexists. split; [reflexivity|]. split; [lia|].
  intros k Hk.
  assert (Hmod : (k - p * p) mod p = k mod p).
  { replace (k - p * p) with (k + (- p) * p) by lia. apply Z.mod_add. lia. }
  destruct ((p * p <=? k) && (k mod p =? 0)) eqn:Eb.
  - apply andb_true_iff in Eb. destruct Eb as [E1 E2].
    apply Z.leb_le in E1. apply Z.eqb_eq in E2.
    rewrite andb_false_r. apply Hi. apply py_range_step_In; [lia|]. lia.
  - rewrite andb_true_r. apply Ho; [lia|]. intros Hj.
    apply py_range_step_In in Hj; [|lia]. rewrite Hmod in Hj.
    apply andb_false_iff in Eb. destruct Eb as [Eb|Eb].
    + apply Z.leb_gt in Eb. lia.
    + apply Z.eqb_neq in Eb. lia.
Qed.

Lemma no_small_divisor_succ p k :
  2 <= p ->
  no_small_divisor (p + 1) k =
    no_small_divisor p k && negb ((p * p <=? k) && (k mod p =? 0)).
Proof.
  intros Hp. unfold no_small_divisor.
  rewrite py_range_snoc by lia. rewrite forallb_app. simpl. now rewrite andb_true_r.
Qed.

Lemma no_small_divisor_false p k :
  no_small_divisor p k = false ->
  exists q, 2 <= q < p /\ q * q <= k /\ k mod q = 0.
Proof.
  unfold no_small_divisor. intros H.
  assert (Hex : exists q, In q (py_range 2 p)
                  /\ negb ((q * q <=? k) && (k mod q =? 0)) = false).
  { induction (py_range 2 p) as [|x xs IH]; simpl in H; [discriminate|].
    apply andb_false_iff in H. destruct H as [H|H].
    - exists x. split; [now left | exact H].
    - destruct (IH H) as (q & Hq & Hf). exists q. split; [now right | exact Hf]. }
  destruct Hex as (q & Hq & Hf). apply py_range_In in Hq.
  apply negb_false_iff, andb_true_iff in Hf. destruct Hf as [H1 H2].
  apply Z.leb_le in H1. apply Z.eqb_eq in H2. exists q. tauto.
Qed.

Lemma no_small_divisor_true p k q :
  no_small_divisor p k = true -> 2 <= q < p -> q * q <= k -> k mod q <> 0.
Proof.
  unfold no_small_divisor. intros H Hq Hqk Hm.
  rewrite forallb_forall in H.
  specialize (H q (proj2 (py_range_In 2 p q) Hq)).
  assert (Hc : negb ((q * q <=? k) && (k mod q =? 0)) = false).
  { apply negb_false_iff, andb_true_iff.
    split; [apply Z.leb_le | apply Z.eqb_eq]; assumption. }
  rewrite Hc in H. discriminate H.
Qed.

Lemma sieve_while_step N p t :
  2 <= p -> p * p <= N -> sieve_inv N p t ->
  exists t',
    (b <- getitem t p ;;
     (if b : bool then
        setslice t (p * p) (N + 1) p (py_repeat false (((N - p * p) / p) + 1))
      else Ok t)) = Ok t'
    /\ sieve_inv N (p + 1) t'.
Proof.
  intros Hp Hpp (Hlen & Hinv).
  assert (HpN : p <= N) by nia.
  rewrite (getitem_ok false) by lia. simpl.
  destruct (znth false t p) eqn:Eb.
  - destruct (setslice_false t N p ltac:(lia) Hpp Hlen) as (t' & E & Hl & Hk).
    exists t'. split; [exact E|]. split; [exact Hl|].
    intros k Hk0. rewrite Hk by exact Hk0. rewrite Hinv by exact Hk0.
    rewrite no_small_divisor_succ by exact Hp. now rewrite andb_assoc.
  - exists t. split; [reflexivity|]. split; [exact Hlen|].
    intros k Hk0. rewrite Hinv by exact Hk0.
    rewrite no_small_divisor_succ by exact Hp.
    rewrite Hinv in Eb by lia.
    replace (2 <=? p) with true in Eb by (symmetry; apply Z.leb_le; lia).
    simpl in Eb. apply no_small_divisor_false in Eb.
    destruct Eb as (q & Hq & Hqp & Hm).
    destruct (no_small_divisor p k) eqn:En; [|now rewrite !andb_false_r].
    destruct ((p * p <=? k) && (k mod p =? 0)) eqn:Em; [|now rewrite !andb_true_r].
    exfalso. apply andb_true_iff in Em. destruct Em as [E1 E2].
    apply Z.leb_le in E1. apply Z.eqb_eq in E2.
    apply (no_small_divisor_true p k q En Hq); [nia|].
    apply Z.mod_divide; [lia|].
    apply Z.divide_trans with p; apply Z.mod_divide; auto; lia.
Qed.

(** Primality as the exit condition of the loop leaves it: trial division by
    every [q] with [q * q <= k]. *)
Lemma sieve_inv_exit N p t k :
  2 <= p -> N < p * p -> sieve_inv N p t -> 0 <= k <= N ->
  znth false t k = Zprime k.
Proof.
  intros Hp Hpp (Hlen & Hinv) Hk. rewrite Hinv by exact Hk.
  destruct (Zprime k) eqn:Ep.
  - apply NT.Zprime_trial in Ep. destruct Ep as [Hk2 Hq].
    apply andb_true_iff. split; [apply Z.leb_le; exact Hk2|].
    unfold no_small_divisor. apply forallb_forall. intros q Hin.
    apply py_range_In in Hin. apply negb_true_iff, andb_false_iff.
    destruct (Z_le_gt_dec (q * q) k) as [Hle|Hgt].
    + right. apply Z.eqb_neq. apply Hq; lia.
    + left. apply Z.leb_gt. lia.
  - destruct ((2 <=? k) && no_small_divisor p k) eqn:E; [|reflexivity].
    apply andb_true_iff in E. destruct E as [E1 E2]. apply Z.leb_le in E1.
    rewrite <- Ep. symmetry. apply NT.Zprime_trial. split; [exact E1|].
    intros q Hq Hqk. apply (no_small_divisor_true p k q E2); [nia | exact Hqk].
Qed.

(** The [while] loop ends within its fuel and leaves the primality table. *)
Lemma sieve_while_fuel N :
  forall fuel p t,
    2 <= p -> N + 2 <= p + Z.of_nat fuel -> sieve_inv N p t ->
    exists t',
      sieve_while fuel N p t = Ok t'
      /\ len t' = N + 1
      /\ forall k, 0 <= k <= N -> znth false t' k = Zprime k.
Proof.
  induction fuel as [|fuel IH]; intros p t Hp Hfuel Hinv.
  - simpl. replace (p * p <=? N) with false by (symmetry; apply Z.leb_gt; nia).
    exists t. split; [reflexivity|]. split; [apply Hinv|].
    intros k Hk. apply (sieve_inv_exit N p); auto. nia.
  - simpl. destruct (p * p <=? N) eqn:Epp.
    + apply Z.leb_le in Epp.
      destruct (sieve_while_step N p t Hp Epp Hinv) as (t1 & E1 & I1).
      unfold bind in E1 |- *.
      destruct (getitem t p) as [b|e]; [|discriminate E1].
      rewrite E1. apply IH; [lia | lia | exact I1].
    + apply Z.leb_gt in Epp.
      exists t. split; [reflexivity|]. split; [apply Hinv|].
      intros k Hk. apply (sieve_inv_exit N p); auto.
Qed.

(** [Zprime] agrees with the primality of the Standard Library. *)
Lemma Zprime_iff_prime k : Zprime k = true <-> prime k.
Proof.
  rewrite NT.Zprime_trial. split.
  - intros [Hk Hq]. apply prime_alt. split; [lia|].
    intros n Hn [c Hc].
    assert (Hcb : 1 < c < k) by nia.
    destruct (Z_le_gt_dec (n * n) k) as [Hle|Hgt].
    + apply (Hq n); [lia | exact Hle |]. rewrite Hc. apply Z.mod_mul. lia.
    + apply (Hq c); [lia | nia |]. rewrite Hc, Z.mul_comm. apply Z.mod_mul. lia.
  - intros Hp. apply prime_alt in Hp. destruct Hp as [Hk Hn].
    split; [lia|]. intros q Hq Hqk Hm.
    apply (Hn q); [nia|]. apply Z.mod_divide; [lia | exact Hm].
Qed.

Lemma Zprime_lt2 k : k < 2 -> Zprime k = false.
Proof.
  intros Hk. destruct (Zprime k) eqn:E; [|reflexivity].
  apply NT.Zprime_trial in E. lia.
Qed.

Lemma sieve_primes_bool_spec N :
  0 <= N ->
  exists t,
    sieve_primes_bool N = Ok t
    /\ len t = N + 1
    /\ forall k, 0 <= k <= N -> znth false t k = Zprime k.
Proof.
  intros HN. unfold sieve_primes_bool.
  destruct (N <? 1) eqn:E1.
  - apply Z.ltb_lt in E1. assert (N = 0) by lia. subst N.
    exists (py_repeat false 1). split; [reflexivity|]. split; [reflexivity|].
    intros k Hk. rewrite Zprime_lt2 by lia. apply znth_repeat. lia.
  - apply Z.ltb_ge in E1.
    assert (Hlen : len (py_repeat true (N + 1)) = N + 1) by (apply len_repeat; lia).
    rewrite setitem_ok by lia. cbn [bind].
    rewrite setitem_ok by (rewrite len_upd; lia). cbn [bind].
    apply sieve_while_fuel; [lia | lia |].
    split; [now rewrite !len_upd|].
    intros k Hk.
    replace (no_small_divisor 2 k) with true by reflexivity. rewrite andb_true_r.
    destruct (Z.eq_dec k 1) as [->|H1].
    + rewrite znth_upd_same by (rewrite len_upd; lia). reflexivity.
    + rewrite znth_upd_other by lia.
      destruct (Z.eq_dec k 0) as [->|H0].
      * rewrite znth_upd_same by lia. reflexivity.
      * rewrite znth_upd_other by lia. rewrite znth_repeat by lia.
        symmetry. apply Z.leb_le. lia.
Qed.

(* ===================================================================== *)
(** ** The prime-counting table *)

Lemma prime_count_neg : prime_count (-1) = 0.
Proof. reflexivity. Qed.

Lemma prime_count_succ k :
  0 <= k -> prime_count k = prime_count (k - 1) + (if Zprime k then 1 else 0).
Proof.
  intros Hk. unfold prime_count.
  replace (k - 1 + 1) with k by lia.
  rewrite py_range_snoc by lia. rewrite filter_app. unfold len.
  rewrite length_app. simpl. destruct (Zprime k); simpl; lia.
Qed.

Lemma prime_count_mono i j : i <= j -> prime_count i <= prime_count j.
Proof.
  intros Hij.
  destruct (Z_lt_le_dec i 0) as [Hneg|Hpos].
  { unfold prime_count at 1. rewrite py_range_nil by lia. simpl.
    unfold prime_count. apply len_nonneg. }
  replace j with (i + Z.of_nat (Z.to_nat (j - i))) by lia.
  induction (Z.to_nat (j - i)) as [|n IH]; [rewrite Z.add_0_r; lia|].
  rewrite (prime_count_succ (i + Z.of_nat (S n))) by lia.
  replace (i + Z.of_nat (S n) - 1) with (i + Z.of_nat n) by lia.
  destruct (Zprime _); lia.
Qed.

Lemma sieve_pi_spec N :
  0 <= N ->
  exists pi,
    sieve_pi N = Ok pi
    /\ len pi = N + 1
    /\ forall k, 0 <= k <= N -> znth 0 pi k = prime_count k.
Proof.
  intros HN. unfold sieve_pi.
  destruct (sieve_primes_bool_spec N HN) as (t & Et & Hlt & Ht). rewrite Et. cbn [bind].
  cbv zeta.
  match goal with
  | |- context [foldM ?f (py_range 0 (N + 1)) ?s0] =>
      destruct (foldM_range f (pi_inv N) 0 (N + 1) s0)
        as ([pi cnt] & E & (Hl & Hc & Hj))
  end.
  - split; [apply len_repeat; lia|]. split; [reflexivity|]. intros j Hj. lia.
  - intros k [pi cnt] Hk (Hl & Hc & Hj). simpl in Hl, Hc, Hj.
    rewrite (getitem_ok false) by lia. cbn [bind].
    rewrite setitem_ok by lia. cbn [bind].
    eexists. split; [reflexivity|]. split; [simpl; now rewrite len_upd|].
    assert (Hcnt : (if znth false t k then cnt + 1 else cnt) = prime_count k).
    { rewrite prime_count_succ by lia. rewrite Ht by lia. rewrite Hc.
      destruct (Zprime k); lia. }
    split; simpl.
    + replace (k + 1 - 1) with k by lia. exact Hcnt.
    + intros j Hj1. destruct (Z.eq_dec j k) as [->|Hn].
      * rewrite znth_upd_same by lia. exact Hcnt.
      * rewrite znth_upd_other by lia. apply Hj. lia.
  - rewrite E. cbn [bind]. exists pi. split; [reflexivity|]. split; [exact Hl|].
    intros k Hk. apply Hj. lia.
Qed.

(* ===================================================================== *)
(** ** The sieve tables: claims C5 and C6 *)

(** C5.  For every [N >= 0], [sieve_phi N] returns a table of length [N + 1]
    whose entry 0 is 0, whose entry 1 (when present) is 1, and whose entry
    [i], for [1 <= i <= N], is the number of integers in [[1, i]] coprime to
    [i]; hence the entry of a prime [p <= N] is [p - 1].  The table for
    [N = 10] is [[0;1;1;2;2;4;2;6;4;6;4]]. *)
Theorem sieve_phi_correct (N : Z) (HN : 0 <= N) :
  (exists phi,
     sieve_phi N = Ok phi
     /\ len phi = N + 1
     /\ znth 0 phi 0 = 0
     /\ (1 <= N -> znth 0 phi 1 = 1)
     /\ (forall i, 1 <= i <= N -> znth 0 phi i = coprime_count i)
     /\ (forall p, Zprime p = true -> p <= N -> znth 0 phi p = p - 1))
  /\ sieve_phi 10 = Ok [0; 1; 1; 2; 2; 4; 2; 6; 4; 6; 4].
Proof.
  split; [|vm_compute; reflexivity].
  destruct (sieve_phi_spec N HN) as (phi & E & Hl & H0 & Hj).
  exists phi. repeat split; auto.
  - intros H1. rewrite Hj by lia. rewrite NT.Ztotient_count by lia. reflexivity.
  - intros i Hi. rewrite Hj by lia. apply NT.Ztotient_count. lia.
  - intros p Hp HpN.
    assert (2 <= p) by (apply NT.Zprime_trial in Hp; lia).
    rewrite Hj by lia. now apply NT.Ztotient_prime.
Qed.

Lemma sieve_phi_correct_witness :
  exists phi, sieve_phi 12 = Ok phi /\ znth 0 phi 12 = coprime_count 12.
Proof.
  destruct (sieve_phi_correct 12 ltac:(lia)) as [(phi & E & _ & _ & _ & Hc & _) _].
  exists phi. split; [exact E|]. apply Hc. lia.
Defined.

(** C6.  For every [N >= 0], [sieve_pi N] returns a table of length [N + 1]
    whose entry [i], for [0 <= i <= N], is the number of primes [<= i]; the
    table is non-decreasing, its entry 1 is 0 and its entry 2 is 1 when they
    exist.  The table for [N = 10] is [[0;0;1;2;2;3;3;4;4;4;4]]. *)
Theorem sieve_pi_correct (N : Z) (HN : 0 <= N) :
  (exists pi,
     sieve_pi N = Ok pi
     /\ len pi = N + 1
     /\ (forall i, 0 <= i <= N -> znth 0 pi i = prime_count i)
     /\ (forall i j, 0 <= i <= j -> j <= N -> znth 0 pi i <= znth 0 pi j)
     /\ (1 <= N -> znth 0 pi 1 = 0)
     /\ (2 <= N -> znth 0 pi 2 = 1))
  /\ sieve_pi 10 = Ok [0; 0; 1; 2; 2; 3; 3; 4; 4; 4; 4].
Proof.
  split; [|vm_compute; reflexivity].
  destruct (sieve_pi_spec N HN) as (pi & E & Hl & Hk).
  exists pi. repeat split; auto.
  - intros i j Hij HjN. rewrite !Hk by lia. apply prime_count_mono. lia.
  - intros H1. rewrite Hk by lia. vm_compute. reflexivity.
  - intros H2. rewrite Hk by lia. vm_compute. reflexivity.
Qed.

Lemma sieve_pi_correct_witness :
  exists pi, sieve_pi 12 = Ok pi /\ znth 0 pi 12 = prime_count 12.
Proof.
  destruct (sieve_pi_correct 12 ltac:(lia)) as [(pi & E & _ & Hc & _) _].
  exists pi. split; [exact E|]. apply Hc. lia.
Defined.


(* ===================================================================== *)
(** ** Streaming against the scalar evaluators, in every arithmetic *)

Lemma foldM_snoc {A B : Type} (body : A -> B -> result A) xs x a :
  foldM body (xs ++ [x]) a = (a' <- foldM body xs a ;; body a' x).
Proof.
  revert a. induction xs as [|y ys IH]; intros a; simpl.
  - destruct (body a x); reflexivity.
  - destruct (body a y); simpl; [apply IH | reflexivity].
Qed.

Lemma foldM_app {A B : Type} (body : A -> B -> result A) xs ys a :
  foldM body (xs ++ ys) a = (a' <- foldM body xs a ;; foldM body ys a').
Proof.
  revert a. induction xs as [|y xs IH]; intros a; simpl; [reflexivity|].
  destruct (body a y); simpl; [apply IH | reflexivity].
Qed.

Lemma foldM_ok {A B : Type} (body : A -> B -> result A) xs a :
  (forall a' x, In x xs -> exists a'', body a' x = Ok a'') ->
  exists r, foldM body xs a = Ok r.
Proof.
  revert a. induction xs as [|x xs IH]; intros a Hb; simpl.
  - now exists a.
  - destruct (Hb a x (or_introl eq_refl)) as (a1 & E1). rewrite E1. simpl.
    apply IH. intros a' y Hy. apply Hb. now right.
Qed.

Lemma py_range_app a b c :
  a <= b <= c -> py_range a c = py_range a b ++ py_range b c.
Proof.
  intros H. replace c with (b + Z.of_nat (Z.to_nat (c - b))) by lia.
  induction (Z.to_nat (c - b)) as [|d IH].
  - rewrite Z.add_0_r, (py_range_nil b b) by lia. now rewrite app_nil_r.
  - replace (b + Z.of_nat (S d)) with (b + Z.of_nat d + 1) by lia.
    rewrite !py_range_snoc by lia. rewrite IH. now rewrite app_assoc.
Qed.

Lemma py_range_nth_error a b i :
  (i < Z.to_nat (b - a))%nat -> nth_error (py_range a b) i = Some (a + Z.of_nat i).
Proof.
  intros Hi. unfold py_range.
  apply (map_nth_error (fun k => a + Z.of_nat k)).
  rewrite (nth_error_nth' _ 0%nat) by (rewrite length_seq; exact Hi).
  now rewrite seq_nth.
Qed.

Section Stream.
Context {FO : FloatOps}.

Lemma Xi_accum n : Xi n = (acc <- xi_accum n ;; Ok (Kahan.value acc)).
Proof.
  unfold Xi, xi_accum. destruct (n <? 3) eqn:E3; [|reflexivity].
  apply Z.ltb_lt in E3. rewrite py_range_nil by lia. reflexivity.
Qed.

Lemma E_accum n : E n = (acc <- e_accum n ;; Ok (Kahan.value acc)).
Proof.
  unfold E, e_accum. destruct (n <? 2) eqn:E2; [|reflexivity].
  apply Z.ltb_lt in E2. rewrite py_range_nil by lia. reflexivity.
Qed.

Lemma Omega_accum n phi pi :
  Omega n phi pi = (acc <- om_accum n phi pi ;; Ok (Kahan.value acc)).
Proof.
  unfold Omega, om_accum. destruct (n <? 2) eqn:E2; [|reflexivity].
  apply Z.ltb_lt in E2. rewrite py_range_nil by lia. reflexivity.
Qed.

Lemma xi_accum_low n : n < 3 -> xi_accum n = Ok Kahan.new.
Proof. intros H. unfold xi_accum. now rewrite py_range_nil by lia. Qed.

Lemma e_accum_low n : n < 2 -> e_accum n = Ok Kahan.new.
Proof. intros H. unfold e_accum. now rewrite py_range_nil by lia. Qed.

Lemma om_accum_low n phi pi : n < 2 -> om_accum n phi pi = Ok Kahan.new.
Proof. intros H. unfold om_accum. now rewrite py_range_nil by lia. Qed.

(** Each scalar loop, one index further. *)
Lemma xi_accum_next n a :
  xi_accum (n - 1) = Ok a ->
  xi_accum n =
    if n >=? 3 then t <- xi_term n ;; Ok (Kahan.add a t) else Ok a.
Proof.
  intros H. destruct (n >=? 3) eqn:E3; rewrite Z.geb_leb in E3.
  - apply Z.leb_le in E3. unfold xi_accum in H |- *.
    replace (n - 1 + 1) with n in H by lia.
    rewrite py_range_snoc, foldM_snoc, H by lia. reflexivity.
  - apply Z.leb_gt in E3. rewrite xi_accum_low in H |- * by lia. exact H.
Qed.

Lemma e_accum_next n a :
  e_accum (n - 1) = Ok a ->
  e_accum n =
    if n >=? 2 then t <- e_term n ;; Ok (Kahan.add a t) else Ok a.
Proof.
  intros H. destruct (n >=? 2) eqn:E2; rewrite Z.geb_leb in E2.
  - apply Z.leb_le in E2. unfold e_accum in H |- *.
    replace (n - 1 + 1) with n in H by lia.
    rewrite py_range_snoc, foldM_snoc, H by lia. reflexivity.
  - apply Z.leb_gt in E2. rewrite e_accum_low in H |- * by lia. exact H.
Qed.

Lemma om_accum_next n phi pi a :
  om_accum (n - 1) phi pi = Ok a ->
  om_accum n phi pi =
    if n >=? 2 then
      phi_i <- getitem phi n ;;
      pi_i <- getitem pi n ;;
      t <- omega_term n phi_i pi_i ;;
      Ok (Kahan.add a t)
    else Ok a.
Proof.
  intros H. destruct (n >=? 2) eqn:E2; rewrite Z.geb_leb in E2.
  - apply Z.leb_le in E2. unfold om_accum in H |- *.
    replace (n - 1 + 1) with n in H by lia.
    rewrite py_range_snoc, foldM_snoc, H by lia. reflexivity.
  - apply Z.leb_gt in E2. rewrite om_accum_low in H |- * by lia. exact H.
Qed.

(** A scalar loop that raises up to [n] raises up to every [n' >= n]. *)
Lemma xi_accum_raise n n' e :
  xi_accum n = Raise e -> n <= n' -> xi_accum n' = Raise e.
Proof.
  intros H Hn. destruct (Z_lt_le_dec n 3) as [Hlt|Hge].
  - rewrite xi_accum_low in H by lia. discriminate.
  - unfold xi_accum in H |- *.
    rewrite (py_range_app 3 (n + 1) (n' + 1)), foldM_app, H by lia. reflexivity.
Qed.

Lemma e_accum_raise n n' e :
  e_accum n = Raise e -> n <= n' -> e_accum n' = Raise e.
Proof.
  intros H Hn. destruct (Z_lt_le_dec n 2) as [Hlt|Hge].
  - rewrite e_accum_low in H by lia. discriminate.
  - unfold e_accum in H |- *.
    rewrite (py_range_app 2 (n + 1) (n' + 1)), foldM_app, H by lia. reflexivity.
Qed.

Lemma om_accum_raise n n' phi pi e :
  om_accum n phi pi = Raise e -> n <= n' -> om_accum n' phi pi = Raise e.
Proof.
  intros H Hn. destruct (Z_lt_le_dec n 2) as [Hlt|Hge].
  - rewrite om_accum_low in H by lia. discriminate.
  - unfold om_accum in H |- *.
    rewrite (py_range_app 2 (n + 1) (n' + 1)), foldM_app, H by lia. reflexivity.
Qed.

Lemma scalar_raises_mono phi pi n n' e :
  scalar_raises phi pi n e -> n <= n' -> scalar_raises phi pi n' e.
Proof.
  intros [H|[H|H]] Hn; unfold scalar_raises.
  - left. now apply (xi_accum_raise n).
  - right; left. now apply (om_accum_raise n).
  - right; right. now apply (e_accum_raise n).
Qed.

Lemma scalar_raises_evaluators phi pi n e :
  scalar_raises phi pi n e ->
  Xi n = Raise e \/ Omega n phi pi = Raise e \/ E n = Raise e.
Proof.
  rewrite Xi_accum, Omega_accum, E_accum.
  intros [H|[H|H]]; rewrite H; auto.
Qed.

Lemma stream_inv_init phi pi : stream_inv phi pi 0 stream_init.
Proof.
  unfold stream_inv. rewrite xi_accum_low, e_accum_low, om_accum_low by lia.
  repeat split; reflexivity.
Qed.

Lemma stream_inv_scalar phi pi n st :
  stream_inv phi pi n st ->
  Xi n = Ok (xi_val st) /\ Omega n phi pi = Ok (om_val st) /\ E n = Ok (e_val st).
Proof.
  intros (Hx & Ho & He & Hxv & Hov & Hev).
  rewrite Xi_accum, Omega_accum, E_accum, Hx, Ho, He, Hxv, Hov, Hev.
  repeat split; reflexivity.
Qed.

(** One iteration of the stream does what one more index of the three scalar
    loops does: it yields their values, or raises where one of them raises. *)
Lemma stream_body_spec phi pi st n :
  stream_inv phi pi (n - 1) st ->
  match stream_body phi pi st n with
  | Ok (st', r) => stream_inv phi pi n st' /\ r = record_of n st'
  | Raise e => scalar_raises phi pi n e
  end.
Proof.
  intros (Hx & Ho & He & Hxv & Hov & Hev).
  unfold scalar_raises, stream_inv.
  rewrite (xi_accum_next n _ Hx), (om_accum_next n phi pi _ Ho), (e_accum_next n _ He).
  unfold stream_body, record_of.
  destruct (n >=? 3); destruct (n >=? 2); cbn [bind];
    try (destruct (xi_term n) as [tx|ex]; cbn [bind]; [|now auto]);
    try (destruct (e_term n) as [te|ee]; cbn [bind]; [|now auto]);
    try (destruct (getitem phi n) as [p|ep]; cbn [bind]; [|now auto]);
    try (destruct (getitem pi n) as [q|eq]; cbn [bind]; [|now auto]);
    try (destruct (omega_term n p q) as [tm|em]; cbn [bind]; [|now auto]);
    cbn; repeat split; auto.
Qed.

Lemma stream_loop_spec phi pi :
  forall (m : nat) a st,
    stream_inv phi pi (a - 1) st ->
    exists recs fin,
      stream_loop phi pi (py_range a (a + Z.of_nat m)) st = (recs, fin)
      /\ (forall n, a <= n < a + len recs ->
            exists st', stream_inv phi pi n st'
              /\ nth_error recs (Z.to_nat (n - a)) = Some (record_of n st'))
      /\ match fin with
         | None => length recs = m
         | Some e =>
             (length recs < m)%nat /\ scalar_raises phi pi (a + len recs) e
         end.
Proof.
  induction m as [|m IH]; intros a st Hinv.
  - rewrite py_range_nil by lia. exists [], None.
    split; [reflexivity|]. split; [|reflexivity]. intros n Hn. cbn in Hn. lia.
  - rewrite py_range_cons by lia. cbn [stream_loop].
    pose proof (stream_body_spec phi pi st a Hinv) as Hb.
    destruct (stream_body phi pi st a) as [[st1 r]|e].
    + destruct Hb as [I1 ->].
      replace (a + Z.of_nat (S m)) with (a + 1 + Z.of_nat m) by lia.
      destruct (IH (a + 1) st1) as (recs & fin & Es & Hn & Hfin).
      { now replace (a + 1 - 1) with a by lia. }
      rewrite Es. exists (record_of a st1 :: recs), fin.
      split; [reflexivity|].
      assert (Hlen : len (record_of a st1 :: recs) = 1 + len recs)
        by (unfold len; cbn [length]; lia).
      split.
      * intros n Hn1. rewrite Hlen in Hn1.
        destruct (Z.eq_dec n a) as [->|Hne].
        -- exists st1. split; [exact I1|].
           now replace (Z.to_nat (a - a)) with 0%nat by lia.
        -- destruct (Hn n ltac:(lia)) as (st' & I' & E').
           exists st'. split; [exact I'|].
           replace (Z.to_nat (n - a)) with (S (Z.to_nat (n - (a + 1)))) by lia.
           exact E'.
      * destruct fin as [e|].
        -- destruct Hfin as [Hl Hr]. split; [cbn [length]; lia|].
           rewrite Hlen. now replace (a + (1 + len recs)) with (a + 1 + len recs) by lia.
        -- cbn [length]. now rewrite Hfin.
    + exists [], (Some e). split; [reflexivity|]. split.
      * intros n Hn. cbn in Hn. lia.
      * split; [cbn; lia|]. now replace (a + len []) with a by (cbn; lia).
Qed.

(** The trace of the stream: its [n]-th record comes from a state that
    agrees with the scalar loops at [n]; it ends by exhaustion after [N]
    records, or earlier with an exception one of the scalar loops raises. *)
Lemma stream_trace_spec N phi pi :
  0 <= N ->
  exists recs fin,
    stream_prefix_values N phi pi = (recs, fin)
    /\ (forall n, 1 <= n <= len recs ->
          exists st', stream_inv phi pi n st'
            /\ nth_error recs (Z.to_nat (n - 1)) = Some (record_of n st'))
    /\ match fin with
       | None => len recs = N
       | Some e => len recs < N /\ scalar_raises phi pi (len recs + 1) e
       end.
Proof.
  intros HN. unfold stream_prefix_values.
  destruct (stream_loop_spec phi pi (Z.to_nat N) 1 stream_init)
    as (recs & fin & Es & Hn & Hfin).
  { apply stream_inv_init. }
  replace (1 + Z.of_nat (Z.to_nat N)) with (N + 1) in Es by lia.
  exists recs, fin. split; [exact Es|]. split.
  - intros n Hn1. apply Hn. lia.
  - destruct fin as [e|].
    + destruct Hfin as [Hl Hr]. split; [unfold len; lia|].
      now rewrite Z.add_comm.
    + unfold len. lia.
Qed.

(** The [n]-th record against the scalar evaluators. *)
Lemma stream_nth_scalar N phi pi n :
  1 <= n <= N ->
  match nth_error (fst (stream_prefix_values N phi pi)) (Z.to_nat (n - 1)) with
  | Some r =>
      rec_n r = n /\ Xi n = Ok (rec_Xi r)
      /\ Omega n phi pi = Ok (rec_Omega r) /\ E n = Ok (rec_E r)
  | None => exists e, Xi n = Raise e \/ Omega n phi pi = Raise e \/ E n = Raise e
  end.
Proof.
  intros Hn.
  destruct (stream_trace_spec N phi pi ltac:(lia)) as (recs & fin & Es & Hr & Hfin).
  rewrite Es. cbn [fst].
  destruct (Z_le_gt_dec n (len recs)) as [Hle|Hgt].
  - destruct (Hr n ltac:(lia)) as (st' & I' & E'). rewrite E'.
    destruct (stream_inv_scalar phi pi n st' I') as (Hx & Ho & He).
    cbn. auto.
  - rewrite (proj2 (nth_error_None _ _)) by (unfold len in Hgt; lia).
    destruct fin as [e|]; [|lia].
    destruct Hfin as [_ Hraise]. exists e.
    apply scalar_raises_evaluators.
    apply (scalar_raises_mono phi pi (len recs + 1)); [exact Hraise | lia].
Qed.

(** The shape of the records, whatever the arithmetic. *)
Lemma stream_records_shape N phi pi :
  0 <= N ->
  exists recs fin,
    stream_prefix_values N phi pi = (recs, fin)
    /\ map rec_n recs = py_range 1 (1 + len recs)
    /\ len recs <= N
    /\ (fin = None <-> len recs = N)
    /\ forall r, In r recs ->
         rec_F r = fsub (fadd (rec_Xi r) (rec_Omega r)) (rec_E r)
         /\ (rec_n r < 3 -> rec_Xi r = lit 0 0)
         /\ (rec_n r < 2 -> rec_E r = lit 0 0 /\ rec_Omega r = lit 0 0).
Proof.
  intros HN.
  destruct (stream_trace_spec N phi pi HN) as (recs & fin & Es & Hr & Hfin).
  exists recs, fin. split; [exact Es|].
  assert (Hnth : forall i, (i < length recs)%nat ->
            exists st', stream_inv phi pi (Z.of_nat i + 1) st'
              /\ nth_error recs i = Some (record_of (Z.of_nat i + 1) st')).
  { intros i Hi. destruct (Hr (Z.of_nat i + 1)) as (st' & I' & E');
      [unfold len; lia|].
    replace (Z.to_nat (Z.of_nat i + 1 - 1)) with i in E' by lia. eauto. }
  split; [|split; [|split]].
  - apply nth_error_ext. intros i.
    destruct (Nat.lt_ge_cases i (length recs)) as [Hi|Hi].
    + destruct (Hnth i Hi) as (st' & _ & E').
      rewrite (map_nth_error rec_n _ _ E'). cbn [rec_n record_of].
      rewrite py_range_nth_error by (unfold len; lia). f_equal. lia.
    + rewrite (proj2 (nth_error_None _ _)) by (now rewrite length_map).
      symmetry. apply nth_error_None. unfold py_range.
      rewrite length_map, length_seq. unfold len. lia.
  - destruct fin; lia.
  - destruct fin as [e|]; split; intros H; try discriminate; try reflexivity; lia.
  - intros r Hin. apply In_nth_error in Hin. destruct Hin as (i & Ei).
    assert (Hi : (i < length recs)%nat) by (apply nth_error_Some; congruence).
    destruct (Hnth i Hi) as (st' & (Hx & Ho & He & Hxv & Hov & Hev) & E').
    rewrite Ei in E'. injection E' as ->. cbn [rec_n rec_Xi rec_Omega rec_E rec_F record_of].
    split; [reflexivity|]. split.
    + intros H3. rewrite xi_accum_low in Hx by lia. injection Hx as Hx.
      rewrite Hxv, <- Hx. reflexivity.
    + intros H2. rewrite e_accum_low in He by lia. rewrite om_accum_low in Ho by lia.
      injection He as He. injection Ho as Ho.
      rewrite Hev, Hov, <- He, <- Ho. split; reflexivity.
Qed.

(** The accumulators return when the terms they are fed return. *)
Lemma accum_ok N phi pi :
  N + 1 <= len phi -> N + 1 <= len pi ->
  (forall i, 3 <= i <= N -> exists v, xi_term i = Ok v) ->
  (forall i, 2 <= i <= N -> exists v, e_term i = Ok v) ->
  (forall i, 2 <= i <= N ->
     exists v, omega_term i (znth 0 phi i) (znth 0 pi i) = Ok v) ->
  (exists a, xi_accum N = Ok a)
  /\ (exists a, om_accum N phi pi = Ok a)
  /\ (exists a, e_accum N = Ok a).
Proof.
  intros Hlphi Hlpi Hx He Ho. split; [|split].
  - apply foldM_ok. intros a i Hi. apply py_range_In in Hi.
    destruct (Hx i ltac:(lia)) as (v & ->). cbn [bind]. eauto.
  - apply foldM_ok. intros a i Hi. apply py_range_In in Hi.
    rewrite !(getitem_ok 0) by lia. cbn [bind].
    destruct (Ho i ltac:(lia)) as (v & ->). cbn [bind]. eauto.
  - apply foldM_ok. intros a i Hi. apply py_range_In in Hi.
    destruct (He i ltac:(lia)) as (v & ->). cbn [bind]. eauto.
Qed.

(** The records against the accumulators: the record yielded at [n] holds
    the values of the three accumulators once they have been fed the terms
    up to [n], and the balance of these three values; the stream yields [N]
    records exactly when the three scalar evaluators return at [N]. *)
Lemma stream_records_accum N phi pi :
  1 <= N ->
  exists recs fin,
    stream_prefix_values N phi pi = (recs, fin)
    /\ (forall n, 1 <= n <= len recs ->
          exists ax ao ae,
            xi_accum n = Ok ax /\ om_accum n phi pi = Ok ao /\ e_accum n = Ok ae
            /\ nth_error recs (Z.to_nat (n - 1))
               = Some (mk_record n (Kahan.value ax) (Kahan.value ao)
                         (Kahan.value ae)
                         (fsub (fadd (Kahan.value ax) (Kahan.value ao))
                               (Kahan.value ae))))
    /\ (len recs = N <->
        exists x o e, Xi N = Ok x /\ Omega N phi pi = Ok o /\ E N = Ok e)
    /\ (forall e, fin = Some e ->
          len recs < N
          /\ (Xi (len recs + 1) = Raise e
              \/ Omega (len recs + 1) phi pi = Raise e
              \/ E (len recs + 1) = Raise e)).
Proof.
  intros HN.
  destruct (stream_trace_spec N phi pi ltac:(lia)) as (recs & fin & Es & Hr & Hfin).
  exists recs, fin. split; [exact Es|]. split; [|split].
  - intros n Hn. destruct (Hr n Hn) as (st' & (Hx & Ho & He & Hxv & Hov & Hev) & E').
    exists (xi_acc st'), (om_acc st'), (e_acc st').
    repeat (split; [assumption|]).
    rewrite E'. unfold record_of. now rewrite Hxv, Hov, Hev.
  - split.
    + intros Hl. destruct (Hr N ltac:(lia)) as (st' & I' & _).
      destruct (stream_inv_scalar phi pi N st' I') as (Hx & Ho & He).
      exists (xi_val st'), (om_val st'), (e_val st'). auto.
    + intros (x & o & e & Hx & Ho & He).
      destruct fin as [ex|]; [|exact Hfin]. exfalso.
      destruct Hfin as [Hl Hraise].
      apply (scalar_raises_mono phi pi _ N) in Hraise; [|lia].
      apply scalar_raises_evaluators in Hraise.
      destruct Hraise as [H|[H|H]]; congruence.
  - intros e ->. destruct Hfin as [Hl Hraise]. split; [exact Hl|].
    now apply scalar_raises_evaluators.
Qed.

End Stream.

(* ===================================================================== *)
(** ** Exact arithmetic: literals, accumulator and term functions *)

Section ExactArithmetic.
#[local] Existing Instance Exact.
Local Open Scope R_scope.

(** Read the carrier of [Exact] as [R], for [ring], [field] and [lra]. *)
Ltac as_real := change (@flt Exact) with R in *.

Lemma Rlit_int m : Rlit m 0 = IZR m.
Proof. unfold Rlit. simpl. ring. Qed.

Lemma Rlit_e : Rlit 2718281828459045 (-15) = 2.718281828459045.
Proof. unfold Rlit. simpl. lra. Qed.

Lemma Rlit_gamma : Rlit 5772156649015329 (-16) = 0.5772156649015329.
Proof. unfold Rlit. simpl. lra. Qed.

Lemma fdiv_ok (x y : R) : y <> 0 -> fdiv x y = Ok (x / y).
Proof.
  intros Hy. cbn [fdiv Exact]. destruct (Req_dec_T y 0); [contradiction|reflexivity].
Qed.

Lemma fdiv_zero (x : R) : fdiv x 0 = Raise ZeroDivisionError.
Proof. cbn [fdiv Exact]. destruct (Req_dec_T 0 0); [reflexivity|contradiction]. Qed.

Lemma flog_ok (x : R) : 0 < x -> flog x = Ok (ln x).
Proof.
  intros H. cbn [flog Exact]. destruct (Rlt_dec 0 x); [reflexivity|contradiction].
Qed.

Lemma flog_domain (x : R) : x <= 0 -> flog x = Raise ValueError.
Proof. intros H. cbn [flog Exact]. destruct (Rlt_dec 0 x); [lra|reflexivity]. Qed.

Lemma flog_int_ok n : (0 < n)%Z -> flog_int n = Ok (ln (IZR n)).
Proof.
  intros H. cbn [flog_int Exact].
  now replace (0 <? n)%Z with true by (symmetry; apply Z.ltb_lt; exact H).
Qed.

Lemma Kahan_new_exact : Kahan.new = Kahan.mk 0 0.
Proof. unfold Kahan.new. cbn [lit Exact]. now rewrite Rlit_int. Qed.

Lemma Kahan_add_c (k : Kahan.t) (x : R) : Kahan.c (Kahan.add k x) = 0.
Proof. unfold Kahan.add. cbn. as_real. ring. Qed.

Lemma Kahan_add_s (k : Kahan.t) (x : R) :
  Kahan.s (Kahan.add k x) = Kahan.s k + x - Kahan.c k.
Proof. unfold Kahan.add. cbn. as_real. ring. Qed.

Lemma Kahan_adds_from (k : Kahan.t) (xs : list R) :
  Kahan.c k = 0 ->
  Kahan.c (Kahan_adds k xs) = 0
  /\ Kahan.value (Kahan_adds k xs) = Kahan.s k + Rsum xs.
Proof.
  revert k. induction xs as [|x xs IH]; intros k Hc; simpl.
  - split; [exact Hc | unfold Kahan.value; as_real; lra].
  - destruct (IH (Kahan.add k x) (Kahan_add_c k x)) as [H1 H2].
    split; [exact H1|]. unfold Kahan_adds in H2 |- *. rewrite H2.
    rewrite Kahan_add_s, Hc. as_real. lra.
Qed.

Lemma IZR_sq_pos i : (i <> 0)%Z -> 0 < IZR (i * i).
Proof. intros Hi. apply (IZR_lt 0). nia. Qed.

Lemma xi_term_ok i :
  (3 <= i)%Z -> xi_term i = Ok (2 / (IZR (i * i) * (IZR i - 1))).
Proof.
  intros Hi. unfold xi_term. cbn [of_int lit fsub fmul Exact bind].
  rewrite !Rlit_int. apply fdiv_ok.
  assert (0 < IZR (i * i)) by (apply IZR_sq_pos; lia).
  assert (3 <= IZR i) by (apply (IZR_le 3); exact Hi).
  apply Rgt_not_eq. apply Rmult_lt_0_compat; lra.
Qed.

Lemma e_term_ok i :
  (2 <= i)%Z -> e_term i = Ok (ln (IZR i) / ln 2 / IZR (i * i)).
Proof.
  intros Hi. unfold e_term. cbn [flog2_int of_int Exact].
  replace (0 <? i)%Z with true by (symmetry; apply Z.ltb_lt; lia). cbn [bind].
  apply fdiv_ok. apply Rgt_not_eq. apply IZR_sq_pos. lia.
Qed.

Lemma omega_term_ok i p q :
  (i <> 0)%Z -> (p + q <> 0)%Z -> omega_term i p q = Ok (1 / IZR (i * (p + q))).
Proof.
  intros Hi Hpq. unfold omega_term. cbn [of_int lit Exact bind].
  rewrite Rlit_int. apply fdiv_ok. apply not_0_IZR. nia.
Qed.

(** On adequate tables no scalar loop raises in exact arithmetic. *)
Lemma exact_scalar_ok N phi pi n e :
  adequate N phi pi -> (n <= N)%Z -> ~ scalar_raises phi pi n e.
Proof.
  intros (Hlphi & Hlpi & Hden) Hn [H|[H|H]].
  - destruct (foldM_ok (fun acc i => t <- xi_term i ;; Ok (Kahan.add acc t))
                (py_range 3 (n + 1)) Kahan.new) as (r & Er).
    + intros a i Hi. apply py_range_In in Hi. rewrite xi_term_ok by lia.
      eexists. reflexivity.
    + unfold xi_accum in H. congruence.
  - destruct (foldM_ok (fun acc i =>
                          phi_i <- getitem phi i ;;
                          pi_i <- getitem pi i ;;
                          t <- omega_term i phi_i pi_i ;;
                          Ok (Kahan.add acc t))
                (py_range 2 (n + 1)) Kahan.new) as (r & Er).
    + intros a i Hi. apply py_range_In in Hi.
      rewrite !(getitem_ok 0%Z) by lia. cbn [bind].
      rewrite omega_term_ok by (try apply Hden; lia).
      eexists. reflexivity.
    + unfold om_accum in H. congruence.
  - destruct (foldM_ok (fun acc i => t <- e_term i ;; Ok (Kahan.add acc t))
                (py_range 2 (n + 1)) Kahan.new) as (r & Er).
    + intros a i Hi. apply py_range_In in Hi. rewrite e_term_ok by lia.
      eexists. reflexivity.
    + unfold e_accum in H. congruence.
Qed.

(** On adequate tables the exact stream yields [N] records and ends by
    exhaustion; its [n]-th record carries [n], the values of the three
    scalar evaluators at [n], and their balance. *)
Lemma stream_spec N phi pi :
  (0 <= N)%Z -> adequate N phi pi ->
  exists recs,
    stream_prefix_values N phi pi = (recs, None)
    /\ len recs = N
    /\ forall n, (1 <= n <= N)%Z ->
         exists x o e : R,
           Xi n = Ok x /\ Omega n phi pi = Ok o /\ E n = Ok e
           /\ nth_error recs (Z.to_nat (n - 1))
              = Some (mk_record n x o e (x + o - e)).
Proof.
  intros HN Had.
  destruct (stream_trace_spec N phi pi HN) as (recs & fin & Es & Hr & Hfin).
  destruct fin as [e|].
  { destruct Hfin as [Hl Hraise]. exfalso.
    apply (exact_scalar_ok N phi pi (len recs + 1) e Had); [lia | exact Hraise]. }
  exists recs. split; [exact Es|]. split; [exact Hfin|].
  intros n Hn. destruct (Hr n ltac:(lia)) as (st' & I' & E').
  destruct (stream_inv_scalar phi pi n st' I') as (Hx & Ho & He).
  exists (xi_val st'), (om_val st'), (e_val st'). repeat split; auto.
Qed.

End ExactArithmetic.

(** The tables of the sieve engine are adequate for every [N] up to their
    size. *)
Lemma sieve_adequate N M phi pi :
  0 <= N <= M -> sieve_phi M = Ok phi -> sieve_pi M = Ok pi -> adequate N phi pi.
Proof.
  intros HNM Hphi Hpi.
  destruct (sieve_phi_spec M ltac:(lia)) as (phi' & E1 & Hl1 & _ & Hj1).
  destruct (sieve_pi_spec M ltac:(lia)) as (pi' & E2 & Hl2 & Hj2).
  rewrite Hphi in E1. rewrite Hpi in E2.
  injection E1 as <-. injection E2 as <-.
  split; [lia|]. split; [lia|].
  intros i Hi. rewrite Hj1, Hj2 by lia.
  pose proof (@NT.Ztotient_gt0 i ltac:(lia)).
  assert (0 <= prime_count i) by (unfold prime_count; apply len_nonneg).
  lia.
Qed.
(* ===================================================================== *)
(** * Binary64: the term functions return *)

(** The floats of CPython are IEEE binary64 numbers, here the primitive
    floats, specified by [SpecFloat].  Rounding a non-zero integer, the
    product of two numbers of magnitude at least one, or [x - 1.0] for
    [x >= 2.0], gives an infinity or a normal number, never a zero. *)

Lemma digits2_pos_log2 p :
  Zpos (SpecFloat.digits2_pos p) = Z.log2 (Zpos p) + 1.
Proof.
  induction p as [p IH | p IH |]; simpl; try reflexivity.
  - rewrite Pos2Z.inj_succ, IH. destruct p; simpl; try reflexivity;
      rewrite ?Pos2Z.inj_succ; lia.
  - rewrite Pos2Z.inj_succ, IH. destruct p; simpl; try reflexivity;
      rewrite ?Pos2Z.inj_succ; lia.
Qed.

Lemma digits2_pos_bounds p :
  2 ^ (Zpos (SpecFloat.digits2_pos p) - 1) <= Zpos p
  < 2 ^ Zpos (SpecFloat.digits2_pos p).
Proof.
  rewrite digits2_pos_log2.
  replace (Z.log2 (Zpos p) + 1 - 1) with (Z.log2 (Zpos p)) by lia.
  replace (Z.log2 (Zpos p) + 1) with (Z.succ (Z.log2 (Zpos p))) by lia.
  apply Z.log2_spec. lia.
Qed.

Lemma digits2_pos_unique p d :
  0 < d -> 2 ^ (d - 1) <= Zpos p < 2 ^ d ->
  Zpos (SpecFloat.digits2_pos p) = d.
Proof.
  intros Hd H. rewrite digits2_pos_log2.
  rewrite (Z.log2_unique (Zpos p) (d - 1)); try lia.
  replace (Z.succ (d - 1)) with d by lia. exact H.
Qed.

Lemma shr_1_m mrs :
  0 <= SpecFloat.shr_m mrs ->
  SpecFloat.shr_m (SpecFloat.shr_1 mrs) = SpecFloat.shr_m mrs / 2.
Proof.
  destruct mrs as [m r s]. simpl. intros Hm.
  destruct m as [|p|p]; [reflexivity| |lia].
  destruct p as [p|p|]; simpl SpecFloat.shr_m.
  - rewrite Pos2Z.inj_xI. apply Z.div_unique with 1; lia.
  - rewrite Pos2Z.inj_xO. apply Z.div_unique with 0; lia.
  - reflexivity.
Qed.

Lemma pow2_xO z : 0 <= z -> 2 ^ (2 * z) = 2 ^ z * 2 ^ z.
Proof.
  intros Hz. replace (2 * z) with (z + z) by lia.
  apply Z.pow_add_r; exact Hz.
Qed.

Lemma pow2_xI z : 0 <= z -> 2 ^ (2 * z + 1) = 2 * (2 ^ z * 2 ^ z).
Proof.
  intros Hz. rewrite Z.pow_add_r by lia. rewrite pow2_xO by exact Hz.
  change (2 ^ 1) with 2. lia.
Qed.

Lemma iter_shr_1_m p : forall mrs,
  0 <= SpecFloat.shr_m mrs ->
  SpecFloat.shr_m (SpecFloat.iter_pos SpecFloat.shr_1 p mrs)
  = SpecFloat.shr_m mrs / 2 ^ Zpos p.
Proof.
  induction p as [p IH | p IH |]; intros mrs Hm; simpl SpecFloat.iter_pos.
  - assert (H1 : 0 <= SpecFloat.shr_m (SpecFloat.shr_1 mrs)).
    { rewrite shr_1_m by exact Hm. apply Z.div_pos; lia. }
    assert (H2 : 0 <= SpecFloat.shr_m
                   (SpecFloat.iter_pos SpecFloat.shr_1 p (SpecFloat.shr_1 mrs))).
    { rewrite IH by exact H1. apply Z.div_pos; [exact H1|].
      apply Z.pow_pos_nonneg; lia. }
    rewrite IH by exact H2. rewrite IH by exact H1.
    rewrite shr_1_m by exact Hm.
    rewrite !Z.div_div by (try apply Z.pow_pos_nonneg; lia).
    f_equal. change (Zpos p~1) with (2 * Zpos p + 1).
    symmetry. apply pow2_xI. lia.
  - assert (H1 : 0 <= SpecFloat.shr_m (SpecFloat.iter_pos SpecFloat.shr_1 p mrs)).
    { rewrite IH by exact Hm. apply Z.div_pos; [exact Hm|].
      apply Z.pow_pos_nonneg; lia. }
    rewrite IH by exact H1. rewrite IH by exact Hm.
    rewrite !Z.div_div by (try apply Z.pow_pos_nonneg; lia).
    f_equal. change (Zpos p~0) with (2 * Zpos p).
    symmetry. apply pow2_xO. lia.
  - rewrite shr_1_m by exact Hm. reflexivity.
Qed.

Lemma shr_spec mrs e n :
  0 <= SpecFloat.shr_m mrs -> 0 <= n ->
  SpecFloat.shr_m (fst (SpecFloat.shr mrs e n)) = SpecFloat.shr_m mrs / 2 ^ n
  /\ snd (SpecFloat.shr mrs e n) = e + n.
Proof.
  intros Hm Hn. destruct n as [|p|p]; simpl; [| |lia].
  - rewrite Z.div_1_r. split; [reflexivity | lia].
  - split; [apply iter_shr_1_m; exact Hm | reflexivity].
Qed.

Lemma shr_record_of_loc_m m l :
  SpecFloat.shr_m (SpecFloat.shr_record_of_loc m l) = m.
Proof. destruct l as [|[]]; reflexivity. Qed.

Lemma round_nearest_even_bounds m l :
  m <= SpecFloat.round_nearest_even m l <= m + 1.
Proof.
  destruct l as [|[]]; simpl; try lia.
  destruct (Z.even m); lia.
Qed.

Lemma binary_round_aux_big sx mx ex lx d :
  53 <= Zpos (SpecFloat.digits2_pos mx) ->
  d = Zpos (SpecFloat.digits2_pos mx) + ex ->
  -1021 <= d ->
  sf_big sx d (SpecFloat.binary_round_aux 53 1024 sx (Zpos mx) ex lx).
Proof.
  intros Hdm Hd Hlo.
  pose proof (digits2_pos_bounds mx) as Hb.
  set (dm := Zpos (SpecFloat.digits2_pos mx)) in *.
  unfold SpecFloat.binary_round_aux, SpecFloat.shr_fexp.
  change (SpecFloat.Zdigits2 (Zpos mx)) with dm.
  assert (Ef : SpecFloat.fexp 53 1024 (dm + ex) = d - 53).
  { unfold SpecFloat.fexp, SpecFloat.emin. lia. }
  rewrite Ef.
  destruct (shr_spec (SpecFloat.shr_record_of_loc (Zpos mx) lx) ex (d - 53 - ex))
    as [Hm1 He1].
  { rewrite shr_record_of_loc_m. lia. }
  { lia. }
  destruct (SpecFloat.shr (SpecFloat.shr_record_of_loc (Zpos mx) lx) ex (d - 53 - ex))
    as [mrs1 e1].
  simpl fst in Hm1. simpl snd in He1.
  rewrite shr_record_of_loc_m in Hm1.
  assert (Hp : 2 ^ (dm - 1) = 2 ^ 52 * 2 ^ (d - 53 - ex)).
  { rewrite <- Z.pow_add_r by lia. f_equal. lia. }
  assert (Hq : 2 ^ dm = 2 ^ 53 * 2 ^ (d - 53 - ex)).
  { rewrite <- Z.pow_add_r by lia. f_equal. lia. }
  assert (Hpos : 0 < 2 ^ (d - 53 - ex)) by (apply Z.pow_pos_nonneg; lia).
  assert (Hm1b : 2 ^ 52 <= SpecFloat.shr_m mrs1 < 2 ^ 53).
  { rewrite Hm1. split.
    - apply Z.div_le_lower_bound; [exact Hpos|]. lia.
    - apply Z.div_lt_upper_bound; [exact Hpos|]. lia. }
  pose proof (round_nearest_even_bounds (SpecFloat.shr_m mrs1)
                (SpecFloat.loc_of_shr_record mrs1)) as Hr.
  set (m2 := SpecFloat.round_nearest_even (SpecFloat.shr_m mrs1)
               (SpecFloat.loc_of_shr_record mrs1)) in *.
  assert (Hm2 : 2 ^ 52 <= m2 <= 2 ^ 53) by lia.
  destruct m2 as [|p2|p2] eqn:Em2; try lia.
  change (SpecFloat.Zdigits2 (Zpos p2)) with (Zpos (SpecFloat.digits2_pos p2)).
  assert (Hdg : exists n2, (n2 = 0 \/ n2 = 1)
            /\ Zpos (SpecFloat.digits2_pos p2) = 53 + n2
            /\ 2 ^ 52 <= Zpos p2 / 2 ^ n2 < 2 ^ 53).
  { assert (Hc : Zpos p2 < 2 ^ 53 \/ Zpos p2 = 2 ^ 53) by lia.
    destruct Hc as [Hc | Hc].
    - exists 0. split; [now left|]. split.
      + apply digits2_pos_unique; [lia|]. change (53 + 0 - 1) with 52.
        change (53 + 0) with 53. lia.
      + change (2 ^ 0) with 1. rewrite Z.div_1_r. lia.
    - exists 1. split; [now right|]. split.
      + apply digits2_pos_unique; [lia|]. change (53 + 1 - 1) with 53.
        rewrite Hc. split; [lia|]. vm_compute. reflexivity.
      + rewrite Hc. vm_compute. split; [discriminate | reflexivity]. }
  destruct Hdg as (n2 & Hn2 & Hd2 & Hm3b).
  rewrite Hd2.
  assert (Ef2 : SpecFloat.fexp 53 1024 (53 + n2 + e1) - e1 = n2).
  { unfold SpecFloat.fexp, SpecFloat.emin. lia. }
  rewrite Ef2.
  destruct (shr_spec (SpecFloat.shr_record_of_loc (Zpos p2) SpecFloat.loc_Exact)
              e1 n2) as [Hm3 He3].
  { rewrite shr_record_of_loc_m. lia. }
  { lia. }
  destruct (SpecFloat.shr (SpecFloat.shr_record_of_loc (Zpos p2) SpecFloat.loc_Exact)
              e1 n2) as [mrs3 e3].
  simpl fst in Hm3. simpl snd in He3.
  rewrite shr_record_of_loc_m in Hm3. rewrite <- Hm3 in Hm3b.
  destruct (SpecFloat.shr_m mrs3) as [|p3|p3]; try lia.
  change (1024 - 53) with 971.
  destruct (e3 <=? 971) eqn:El.
  - right. exists p3, e3. apply Z.leb_le in El.
    split; [reflexivity|]. split.
    + apply digits2_pos_unique; [lia|]. change (53 - 1) with 52. lia.
    + lia.
  - left. reflexivity.
Qed.

Lemma sf_big_mono s d1 d2 f : d1 <= d2 -> sf_big s d2 f -> sf_big s d1 f.
Proof.
  intros Hd [H | (m & e & H & Hm & He & Hb)]; [now left|].
  right. exists m, e. repeat split; try assumption; lia.
Qed.

Lemma sf_big_valid s d f :
  sf_big s d f ->
  SpecFloat.valid_binary 53 1024 f = true
  /\ SpecFloat.SFeqb f (SpecFloat.S754_zero false) = false.
Proof.
  intros [-> | (m & e & -> & Hm & He & Hb)].
  - split; [reflexivity|]. destruct s; reflexivity.
  - split; [|destruct s; reflexivity].
    unfold SpecFloat.valid_binary, SpecFloat.bounded, SpecFloat.canonical_mantissa.
    rewrite Hm. apply andb_true_intro. split.
    + apply Z.eqb_eq. unfold SpecFloat.fexp, SpecFloat.emin. lia.
    + apply Z.leb_le. lia.
Qed.

Lemma iter_xO_spec p k : Zpos (Pos.iter xO p k) = Zpos p * 2 ^ Zpos k.
Proof.
  induction k as [|k IH] using Pos.peano_ind.
  - simpl Pos.iter. change (2 ^ 1) with 2. lia.
  - rewrite Pos.iter_succ. change (Zpos (Pos.iter xO p k)~0) with (2 * Zpos (Pos.iter xO p k)).
    rewrite IH, Pos2Z.inj_succ, Z.pow_succ_r by lia. lia.
Qed.

Lemma binary_round_big sx p e d :
  d = Zpos (SpecFloat.digits2_pos p) + e ->
  -1021 <= d ->
  sf_big sx d (SpecFloat.binary_round 53 1024 sx p e).
Proof.
  intros Hd Hlo.
  pose proof (digits2_pos_bounds p) as Hb.
  unfold SpecFloat.binary_round, SpecFloat.shl_align.
  assert (Ef : SpecFloat.fexp 53 1024 (Zpos (SpecFloat.digits2_pos p) + e) - e
               = Zpos (SpecFloat.digits2_pos p) - 53).
  { unfold SpecFloat.fexp, SpecFloat.emin. lia. }
  rewrite Ef.
  set (dp := Zpos (SpecFloat.digits2_pos p)) in *.
  destruct (dp - 53) as [|k|k] eqn:Ek.
  - apply binary_round_aux_big; fold dp; lia.
  - apply binary_round_aux_big; fold dp; lia.
  - assert (Hmz : Zpos (SpecFloat.digits2_pos (Pos.iter xO p k)) = 53).
    { apply digits2_pos_unique; [lia|]. rewrite iter_xO_spec.
      assert (E1 : 2 ^ (53 - 1) = 2 ^ (dp - 1) * 2 ^ Zpos k).
      { rewrite <- Z.pow_add_r by lia. f_equal. lia. }
      assert (E2 : 2 ^ 53 = 2 ^ dp * 2 ^ Zpos k).
      { rewrite <- Z.pow_add_r by lia. f_equal. lia. }
      rewrite E1, E2.
      assert (0 < 2 ^ Zpos k) by (apply Z.pow_pos_nonneg; lia).
      nia. }
    apply binary_round_aux_big; rewrite ?Hmz.
    + lia.
    + unfold SpecFloat.fexp, SpecFloat.emin. lia.
    + lia.
Qed.

Lemma binary_normalize_big z e :
  z <> 0 ->
  -1021 <= Z.log2 (Z.abs z) + 1 + e ->
  sf_big (z <? 0) (Z.log2 (Z.abs z) + 1 + e)
    (SpecFloat.binary_normalize 53 1024 z e false).
Proof.
  intros Hz Hlo. destruct z as [|p|p]; [congruence| |];
    simpl SpecFloat.binary_normalize; simpl Z.abs in *;
    apply binary_round_big; rewrite ?digits2_pos_log2; lia.
Qed.

Lemma fl_big_nonzero s d x :
  fl_big s d x -> PrimFloat.eqb x PrimFloat.zero = false.
Proof.
  intros H. rewrite FloatAxioms.eqb_spec.
  change (FloatOps.Prim2SF PrimFloat.zero) with (SpecFloat.S754_zero false).
  apply (sf_big_valid s d). exact H.
Qed.

Lemma double_of_Z_big z :
  z <> 0 -> fl_big (z <? 0) (Z.log2 (Z.abs z) + 1) (double_of_Z z).
Proof.
  intros Hz. unfold fl_big, double_of_Z.
  assert (Hb : sf_big (z <? 0) (Z.log2 (Z.abs z) + 1)
                 (SpecFloat.binary_normalize 53 1024 z 0 false)).
  { replace (Z.log2 (Z.abs z) + 1) with (Z.log2 (Z.abs z) + 1 + 0) by lia.
    apply binary_normalize_big; [exact Hz|].
    pose proof (Z.log2_nonneg (Z.abs z)). lia. }
  rewrite FloatAxioms.Prim2SF_SF2Prim; [exact Hb|].
  apply (sf_big_valid _ _ _ Hb).
Qed.

Lemma fl_big_mul sx sy dx dy x y :
  fl_big sx dx x -> fl_big sy dy y -> -1020 <= dx + dy ->
  fl_big (xorb sx sy) (dx + dy - 1) (PrimFloat.mul x y).
Proof.
  unfold fl_big. intros Hx Hy Hlo. rewrite FloatAxioms.mul_spec.
  unfold FloatAxioms.SF64mul.
  change FloatOps.prec with 53. change FloatOps.emax with 1024.
  destruct Hx as [-> | (mx & ex & -> & Hmx & Hex & Hbx)];
    destruct Hy as [-> | (my & ey & -> & Hmy & Hey & Hby)];
    try (left; reflexivity).
  simpl SpecFloat.SFmul.
  pose proof (digits2_pos_bounds mx) as Bx.
  pose proof (digits2_pos_bounds my) as By.
  pose proof (digits2_pos_bounds (mx * my)) as Bxy.
  rewrite Hmx in Bx. rewrite Hmy in By.
  set (D := Zpos (SpecFloat.digits2_pos (mx * my))) in *.
  assert (HD : 105 <= D).
  { assert (H : 2 ^ 104 < 2 ^ D).
    { apply Z.le_lt_trans with (Zpos (mx * my)); [|apply Bxy].
      rewrite Pos2Z.inj_mul. change (2 ^ 104) with (2 ^ 52 * 2 ^ 52).
      change (53 - 1) with 52 in Bx, By.
      apply Z.mul_le_mono_nonneg; lia. }
    apply Z.pow_lt_mono_r_iff in H; lia. }
  apply sf_big_mono with (D + (ex + ey)); [lia|].
  apply binary_round_aux_big; fold D; lia.
Qed.

Lemma fl_big_sub_one d x :
  fl_big false d x -> 2 <= d ->
  fl_big false 1 (PrimFloat.sub x (double_of_Z 1)).
Proof.
  unfold fl_big. intros Hx Hd. rewrite FloatAxioms.sub_spec.
  unfold FloatAxioms.SF64sub.
  change FloatOps.prec with 53. change FloatOps.emax with 1024.
  change (FloatOps.Prim2SF (double_of_Z 1))
    with (SpecFloat.S754_finite false 4503599627370496 (-52)).
  destruct Hx as [-> | (mx & ex & -> & Hmx & Hex & Hbx)];
    [left; reflexivity|].
  pose proof (digits2_pos_bounds mx) as Bx. rewrite Hmx in Bx.
  change (53 - 1) with 52 in Bx.
  unfold SpecFloat.SFsub.
  assert (Ez : Z.min ex (-52) = -52) by lia.
  rewrite Ez.
  unfold SpecFloat.shl_align at 1.
  destruct (-52 - ex) as [|k|k] eqn:Ek; try lia.
  simpl fst. simpl SpecFloat.shl_align. simpl fst.
  unfold SpecFloat.cond_Zopp.
  assert (Hk : 0 < 2 ^ Zpos k) by (apply Z.pow_pos_nonneg; lia).
  assert (Hk2 : 2 <= 2 ^ Zpos k).
  { change 2 with (2 ^ 1) at 1. apply Z.pow_le_mono_r; lia. }
  set (q := Zpos (Pos.iter xO mx k) - 4503599627370496).
  assert (Hq : 2 ^ 52 <= q).
  { unfold q. rewrite iter_xO_spec. change 4503599627370496 with (2 ^ 52).
    nia. }
  apply sf_big_mono with (Z.log2 (Z.abs q) + 1 + -52).
  - assert (52 <= Z.log2 (Z.abs q)); [|lia].
    apply Z.log2_le_pow2; [lia|]. lia.
  - replace false with (q <? 0) at 1.
    + apply binary_normalize_big; [lia|].
      pose proof (Z.log2_nonneg (Z.abs q)). lia.
    + apply Z.ltb_ge. lia.
Qed.

Lemma double_of_int_ok z :
  Z.abs z < 2 ^ 1024 - 2 ^ 970 -> double_of_int z = Ok (double_of_Z z).
Proof.
  intros H. unfold double_of_int.
  destruct (Z.abs z <? 2 ^ 1024 - 2 ^ 970) eqn:E; [reflexivity|].
  apply Z.ltb_ge in E. lia.
Qed.

Lemma double_fdiv_ok L s d x y :
  fl_big s d y -> exists v, @fdiv (Double L) x y = Ok v.
Proof.
  intros H. simpl. rewrite (fl_big_nonzero s d y H). eexists. reflexivity.
Qed.

Lemma double_xi_term_ok L i :
  3 <= i -> i * i < 2 ^ 1024 - 2 ^ 970 ->
  exists v, @xi_term (Double L) i = Ok v.
Proof.
  intros Hi Hb. unfold xi_term.
  change (@of_int (Double L)) with double_of_int.
  rewrite (double_of_int_ok i) by nia.
  rewrite (double_of_int_ok (i * i)) by nia.
  cbn [bind].
  change (@lit (Double L) 1 0) with (double_of_Z 1).
  change (@fsub (Double L)) with PrimFloat.sub.
  change (@fmul (Double L)) with PrimFloat.mul.
  assert (H1 : fl_big false 1 (PrimFloat.sub (double_of_Z i) (double_of_Z 1))).
  { apply fl_big_sub_one with (Z.log2 (Z.abs i) + 1).
    - replace false with (i <? 0) by (apply Z.ltb_ge; lia).
      apply double_of_Z_big. lia.
    - assert (1 <= Z.log2 (Z.abs i)); [|lia].
      apply Z.log2_le_pow2; [lia|]. change (2 ^ 1) with 2. lia. }
  assert (H2 : fl_big false 1 (double_of_Z (i * i))).
  { apply sf_big_mono with (Z.log2 (Z.abs (i * i)) + 1).
    - pose proof (Z.log2_nonneg (Z.abs (i * i))). lia.
    - replace false with (i * i <? 0) by (apply Z.ltb_ge; nia).
      apply double_of_Z_big. nia. }
  apply (double_fdiv_ok L (xorb false false) (1 + 1 - 1)).
  apply fl_big_mul; [exact H2 | exact H1 | lia].
Qed.

Lemma double_e_term_ok L i :
  1 <= i -> i * i < 2 ^ 1024 - 2 ^ 970 ->
  exists v, @e_term (Double L) i = Ok v.
Proof.
  intros Hi Hb. unfold e_term.
  change (@flog2_int (Double L) i)
    with (if 0 <? i then Ok (libm_log2_int L i) else Raise ValueError).
  replace (0 <? i) with true by (symmetry; apply Z.ltb_lt; lia).
  cbn [bind].
  change (@of_int (Double L)) with double_of_int.
  rewrite (double_of_int_ok (i * i)) by nia.
  cbn [bind].
  apply (double_fdiv_ok L (i * i <? 0) (Z.log2 (Z.abs (i * i)) + 1)).
  apply double_of_Z_big. nia.
Qed.

Lemma double_omega_term_ok L i a b :
  i * (a + b) <> 0 -> Z.abs (i * (a + b)) < 2 ^ 1024 - 2 ^ 970 ->
  exists v, @omega_term (Double L) i a b = Ok v.
Proof.
  intros Hz Hb. unfold omega_term.
  change (@of_int (Double L)) with double_of_int.
  rewrite (double_of_int_ok _ Hb). cbn [bind].
  apply (double_fdiv_ok L (i * (a + b) <? 0) (Z.log2 (Z.abs (i * (a + b))) + 1)).
  apply double_of_Z_big. exact Hz.
Qed.

(* ===================================================================== *)
(** ** The stream on doubles *)

Lemma prime_count_le k : 1 <= k -> 0 <= prime_count k <= k - 1.
Proof.
  intros Hk. split; [apply len_nonneg|].
  pattern k. apply (Zlt_lower_bound_ind _ 1); [|exact Hk].
  clear k Hk. intros k IH Hk.
  rewrite prime_count_succ by lia.
  destruct (Z.eq_dec k 1) as [->|Hne].
  - reflexivity.
  - specialize (IH (k - 1) ltac:(lia)). destruct (Zprime k); lia.
Qed.

Lemma coprime_count_le i : 0 <= i -> coprime_count i <= i.
Proof.
  intros Hi. unfold coprime_count, len.
  pose proof (filter_length_le (fun k => Z.gcd k i =? 1) (py_range 1 (i + 1))) as H.
  pose proof (py_range_length 1 (i + 1)) as Hl. unfold len in Hl. lia.
Qed.

(** On doubles, with any C library, the stream is exhausted after [N]
    records when the integers the term functions convert are below
    [2^1024 - 2^970] in absolute value. *)
Lemma stream_double_exhausts (L : Libm) N phi pi :
  1 <= N -> adequate N phi pi ->
  N * N < 2 ^ 1024 - 2 ^ 970 ->
  (forall i, 2 <= i <= N ->
     Z.abs (i * (znth 0 phi i + znth 0 pi i)) < 2 ^ 1024 - 2 ^ 970) ->
  exists recs,
    @stream_prefix_values (Double L) N phi pi = (recs, None)
    /\ len recs = N
    /\ map rec_n recs = py_range 1 (N + 1).
Proof.
  intros HN Had HNN Hden.
  destruct (@stream_records_shape (Double L) N phi pi ltac:(lia))
    as (recs & fin & Es & Hm & Hle & Hfin & Hshape).
  destruct (@stream_records_accum (Double L) N phi pi HN)
    as (recs' & fin' & Es' & Hacc & Hret & _).
  rewrite Es in Es'. injection Es' as <- <-.
  assert (Hl : len recs = N).
  { apply Hret.
    destruct Had as (Hlphi & Hlpi & Hnz).
    destruct (@accum_ok (Double L) N phi pi Hlphi Hlpi)
      as ((ax & Eax) & (ao & Eao) & (ae & Eae)).
    - intros i Hi. apply double_xi_term_ok; [lia | nia].
    - intros i Hi. apply double_e_term_ok; [lia | nia].
    - intros i Hi. apply double_omega_term_ok; [|apply Hden; exact Hi].
      specialize (Hnz i Hi). nia.
    - exists (Kahan.value ax), (Kahan.value ao), (Kahan.value ae).
      rewrite Xi_accum, Omega_accum, E_accum, Eax, Eao, Eae. auto. }
  assert (Ef : fin = None) by (apply Hfin; exact Hl).
  subst fin. exists recs. split; [exact Es|]. split; [exact Hl|].
  rewrite Hm, Hl. f_equal. lia.
Qed.

(** So it is on the tables of the sieve engine, where
    [0 < phi[i] + pi[i] <= 2 * i - 1], when [2 * N * N] is below that bound. *)
Lemma stream_double_sieve (L : Libm) N M phi pi :
  1 <= N <= M -> sieve_phi M = Ok phi -> sieve_pi M = Ok pi ->
  2 * N * N < 2 ^ 1024 - 2 ^ 970 ->
  exists recs,
    @stream_prefix_values (Double L) N phi pi = (recs, None)
    /\ len recs = N
    /\ map rec_n recs = py_range 1 (N + 1).
Proof.
  intros HNM Hphi Hpi HNN.
  apply stream_double_exhausts.
  - lia.
  - apply (sieve_adequate N M); [lia | exact Hphi | exact Hpi].
  - nia.
  - intros i Hi.
    destruct (sieve_phi_spec M ltac:(lia)) as (phi' & E1 & _ & _ & Hj1).
    destruct (sieve_pi_spec M ltac:(lia)) as (pi' & E2 & _ & Hj2).
    rewrite Hphi in E1. rewrite Hpi in E2.
    injection E1 as <-. injection E2 as <-.
    rewrite Hj1, Hj2 by lia.
    pose proof (@NT.Ztotient_gt0 i ltac:(lia)) as H1.
    pose proof (@NT.Ztotient_count i ltac:(lia)) as H2.
    pose proof (coprime_count_le i ltac:(lia)) as H3.
    pose proof (prime_count_le i ltac:(lia)) as H4.
    rewrite Z.abs_eq by nia. nia.
Qed.

(* ===================================================================== *)
(** ** The compensated accumulator: claim C10 *)

Lemma nth_error_upd_other {A : Type} (l : list A) k j v :
  j <> k -> nth_error (upd l k v) j = nth_error l j.
Proof.
  revert k j; induction l as [|h t IH]; intros [|k] [|j] Hjk; simpl; auto; congruence.
Qed.

Lemma nth_error_upd_same {A : Type} (l : list A) k v :
  (k < length l)%nat -> nth_error (upd l k v) k = Some v.
Proof.
  revert k; induction l as [|h t IH]; intros [|k] Hk; simpl in *; try lia; auto.
  apply IH. lia.
Qed.

(** C10.  In exact arithmetic, after any finite run of [add] calls from the
    initial state the compensation is 0 and [value] is the sum of the inputs;
    an [add] on the instance at address [a] of a store leaves every other
    instance as it was and writes [add] of the old instance at [a]. *)
Theorem Kahan_exact (xs : list R) (h : @Kahan.store Exact) (a b : nat) (x : R)
    (Hab : b <> a) :
  Kahan.c (@Kahan_adds Exact Kahan.new xs) = 0%R
  /\ Kahan.value (@Kahan_adds Exact Kahan.new xs) = Rsum xs
  /\ nth_error (Kahan.add_at h a x) b = nth_error h b
  /\ length (Kahan.add_at h a x) = length h
  /\ (forall self, nth_error h a = Some self ->
        nth_error (Kahan.add_at h a x) a = Some (Kahan.add self x)).
Proof.
  rewrite Kahan_new_exact.
  destruct (Kahan_adds_from (@Kahan.mk Exact 0%R 0%R) xs eq_refl) as [Hc Hv].
  split; [exact Hc|]. split; [rewrite Hv; cbn; apply Rplus_0_l|].
  unfold Kahan.add_at. destruct (nth_error h a) as [self|] eqn:Eh.
  - split; [now apply nth_error_upd_other|]. split; [apply upd_length|].
    intros self' [= <-]. apply nth_error_upd_same.
    apply nth_error_Some. congruence.
  - split; [reflexivity|]. split; [reflexivity|]. intros self' [=].
Qed.

Lemma Kahan_exact_witness :
  Kahan.value (@Kahan_adds Exact Kahan.new [1; 2; 3]%R) = Rsum [1; 2; 3]%R
  /\ nth_error (@Kahan.add_at Exact [Kahan.new; Kahan.new] 0 1%R) 1
     = Some Kahan.new.
Proof.
  destruct (Kahan_exact [1; 2; 3]%R [Kahan.new; Kahan.new] 0 1 1%R ltac:(lia))
    as (_ & Hv & Hf & _).
  split; [exact Hv | exact Hf].
Defined.

(* ===================================================================== *)
(** ** The streaming prefix engine: claims C9 and C1 *)

(** C9.  For [N >= 1] and adequate tables, in every arithmetic: the records
    [stream_prefix_values N phi pi] yields carry [1, 2, ...] in this order, at
    most [N] of them and exactly [N] when the stream ends by exhaustion; the
    record yielded at [n] holds the values of the three accumulators, the
    one of Xi fed [xi_term i] for [3 <= i <= n], those of Omega and E fed
    [omega_term i phi[i] pi[i]] and [e_term i] for [2 <= i <= n], and its fifth
    component is the Xi value plus the Omega value minus the E value; the Xi
    component is [0.0] for [n < 3], the E and Omega components are [0.0] for
    [n < 2].  The stream yields exactly [N] records if and only if [Xi],
    [Omega] and [E] return at [N], which they do when every term they add
    returns.  In exact arithmetic the stream yields exactly [N] records,
    carrying [1, ..., N], and ends by exhaustion.  So it does on IEEE
    doubles, with any C library, when [N * N] and the denominators
    [n * (phi[n] + pi[n])], [2 <= n <= N], are below [2^1024 - 2^970] in
    absolute value, the bound from which the conversion of an [int] raises
    [OverflowError]; on the tables of the sieve engine, built for any size
    [M >= N], this holds when [2 * N * N] is below the bound. *)
Theorem stream_records (N : Z) (phi pi : list Z)
    (HN : 1 <= N) (Had : adequate N phi pi) :
  (forall FO : FloatOps,
     exists recs fin,
       stream_prefix_values N phi pi = (recs, fin)
       /\ map rec_n recs = py_range 1 (1 + len recs)
       /\ len recs <= N
       /\ (fin = None <-> len recs = N)
       /\ (forall r, In r recs ->
             rec_F r = fsub (fadd (rec_Xi r) (rec_Omega r)) (rec_E r)
             /\ (rec_n r < 3 -> rec_Xi r = lit 0 0)
             /\ (rec_n r < 2 -> rec_E r = lit 0 0 /\ rec_Omega r = lit 0 0))
       /\ (forall n, 1 <= n <= len recs ->
             exists ax ao ae,
               xi_accum n = Ok ax
               /\ om_accum n phi pi = Ok ao
               /\ e_accum n = Ok ae
               /\ nth_error recs (Z.to_nat (n - 1))
                  = Some (mk_record n (Kahan.value ax) (Kahan.value ao)
                            (Kahan.value ae)
                            (fsub (fadd (Kahan.value ax) (Kahan.value ao))
                                  (Kahan.value ae))))
       /\ (len recs = N <->
           exists x o e, Xi N = Ok x /\ Omega N phi pi = Ok o /\ E N = Ok e)
       /\ ((forall i, 3 <= i <= N -> exists v, xi_term i = Ok v) ->
           (forall i, 2 <= i <= N -> exists v, e_term i = Ok v) ->
           (forall i, 2 <= i <= N ->
              exists v, omega_term i (znth 0 phi i) (znth 0 pi i) = Ok v) ->
           len recs = N))
  /\ (exists recs,
        @stream_prefix_values Exact N phi pi = (recs, None)
        /\ len recs = N
        /\ map rec_n recs = py_range 1 (N + 1))
  /\ (forall L : Libm,
        (N * N < 2 ^ 1024 - 2 ^ 970 ->
         (forall i, 2 <= i <= N ->
            Z.abs (i * (znth 0 phi i + znth 0 pi i)) < 2 ^ 1024 - 2 ^ 970) ->
         exists recs,
           @stream_prefix_values (Double L) N phi pi = (recs, None)
           /\ len recs = N
           /\ map rec_n recs = py_range 1 (N + 1))
        /\ (forall M, N <= M ->
             sieve_phi M = Ok phi -> sieve_pi M = Ok pi ->
             2 * N * N < 2 ^ 1024 - 2 ^ 970 ->
             exists recs,
               @stream_prefix_values (Double L) N phi pi = (recs, None)
               /\ len recs = N
               /\ map rec_n recs = py_range 1 (N + 1))).
Proof.
  split; [|split].
  - intros FO.
    destruct (stream_records_shape N phi pi ltac:(lia))
      as (recs & fin & Es & Hm & Hle & Hfin & Hshape).
    destruct (stream_records_accum N phi pi HN)
      as (recs' & fin' & Es' & Hacc & Hret & _).
    rewrite Es in Es'. injection Es' as <- <-.
    exists recs, fin. repeat (split; [assumption|]).
    intros Hx He Ho. apply Hret.
    destruct Had as (Hlphi & Hlpi & _).
    destruct (accum_ok N phi pi Hlphi Hlpi Hx He Ho)
      as ((ax & Eax) & (ao & Eao) & (ae & Eae)).
    exists (Kahan.value ax), (Kahan.value ao), (Kahan.value ae).
    rewrite Xi_accum, Omega_accum, E_accum, Eax, Eao, Eae. auto.
  - destruct (stream_spec N phi pi ltac:(lia) Had) as (recs & Es & Hl & _).
    exists recs. split; [exact Es|]. split; [exact Hl|].
    destruct (@stream_records_shape Exact N phi pi ltac:(lia))
      as (recs' & fin' & Es' & Hm & _).
    rewrite Es in Es'. injection Es' as <- <-.
    rewrite Hm, Hl. f_equal. lia.
  - intros L. split.
    + intros HNN Hden. exact (stream_double_exhausts L N phi pi HN Had HNN Hden).
    + intros M HM Hphi Hpi HNN.
      exact (stream_double_sieve L N M phi pi ltac:(lia) Hphi Hpi HNN).
Qed.

Lemma stream_records_witness :
  (exists recs,
     @stream_prefix_values Exact 3 [0; 1; 1; 2] [0; 0; 1; 2] = (recs, None)
     /\ map rec_n recs = [1; 2; 3])
  /\ (forall L : Libm,
        exists recs,
          @stream_prefix_values (Double L) 3 [0; 1; 1; 2] [0; 0; 1; 2]
          = (recs, None)
          /\ len recs = 3 /\ map rec_n recs = [1; 2; 3]).
Proof.
  assert (Had : adequate 3 [0; 1; 1; 2] [0; 0; 1; 2]).
  { split; [vm_compute; discriminate|]. split; [vm_compute; discriminate|].
    intros i Hi.
    assert (Hc : i = 2 \/ i = 3) by lia.
    destruct Hc as [-> | ->]; vm_compute; discriminate. }
  destruct (stream_records 3 [0; 1; 1; 2] [0; 0; 1; 2] ltac:(lia) Had)
    as (_ & (recs & Es & _ & Hm) & Hdbl).
  split; [exists recs; split; [exact Es | exact Hm]|].
  intros L. destruct (Hdbl L) as [Hb _]. apply Hb.
  - vm_compute. reflexivity.
  - intros i Hi.
    assert (Hc : i = 2 \/ i = 3) by lia.
    destruct Hc as [-> | ->]; vm_compute; reflexivity.
Defined.

(** C1.  For [N >= 1], [1 <= n <= N] and tables built by the sieve engine for
    some size [M >= N] (so of length [>= N + 1]): in every arithmetic, the
    [n]-th record [stream_prefix_values N phi pi] yields carries [n] and has
    its Xi, Omega and E components equal to what [Xi n], [Omega n phi pi] and
    [E n] return, and when the stream ends before it one of the three raises
    too; in exact arithmetic the record is yielded. *)
Theorem stream_matches_scalar (N M n : Z) (phi pi : list Z)
    (HN : 1 <= N) (Hn : 1 <= n <= N) (HM : N <= M)
    (Hphi : sieve_phi M = Ok phi) (Hpi : sieve_pi M = Ok pi) :
  (forall FO : FloatOps,
     match nth_error (fst (stream_prefix_values N phi pi)) (Z.to_nat (n - 1)) with
     | Some r =>
         rec_n r = n
         /\ Xi n = Ok (rec_Xi r)
         /\ Omega n phi pi = Ok (rec_Omega r)
         /\ E n = Ok (rec_E r)
     | None =>
         exists e, Xi n = Raise e \/ Omega n phi pi = Raise e \/ E n = Raise e
     end)
  /\ (exists r,
        nth_error (fst (@stream_prefix_values Exact N phi pi)) (Z.to_nat (n - 1))
        = Some r).
Proof.
  split.
  - intros FO. now apply stream_nth_scalar.
  - assert (Had : adequate N phi pi) by (apply (sieve_adequate N M); auto; lia).
    destruct (stream_spec N phi pi ltac:(lia) Had) as (recs & Es & Hl & Hr).
    destruct (Hr n Hn) as (x & o & e & _ & _ & _ & En).
    rewrite Es. cbn [fst]. eexists. exact En.
Qed.

Lemma stream_matches_scalar_witness :
  exists r,
    nth_error (fst (@stream_prefix_values Exact 3 [0; 1; 1; 2] [0; 0; 1; 2])) 1
    = Some r
    /\ @Omega Exact 2 [0; 1; 1; 2] [0; 0; 1; 2] = Ok (rec_Omega r).
Proof.
  destruct (stream_matches_scalar 3 3 2 [0; 1; 1; 2] [0; 0; 1; 2]
              ltac:(lia) ltac:(lia) ltac:(lia) eq_refl eq_refl)
    as (Hgen & r & Er).
  exists r. split; [exact Er|].
  specialize (Hgen Exact). rewrite Er in Hgen. apply Hgen.
Defined.

(* ===================================================================== *)
(** ** Real analysis behind the tail bounds *)

Local Open Scope R_scope.

Lemma ln2_pos : 0 < ln 2.
Proof. rewrite <- ln_1. apply ln_increasing; lra. Qed.

Lemma ln3_ge1 : 1 <= ln 3.
Proof.
  destruct exp_le_3 as [H|H].
  - left. rewrite <- (ln_exp 1). apply ln_increasing; [apply exp_pos | exact H].
  - right. rewrite <- H. now rewrite ln_exp.
Qed.

Lemma ln_ge1 x : 3 <= x -> 1 <= ln x.
Proof.
  intros [H|<-]; [|apply ln3_ge1].
  apply Rle_trans with (ln 3); [apply ln3_ge1|].
  left. apply ln_increasing; lra.
Qed.

Lemma ln_pos x : 1 < x -> 0 < ln x.
Proof. intros H. rewrite <- ln_1. apply ln_increasing; lra. Qed.

Lemma ln_le_sub1 t : 0 < t -> ln t <= t - 1.
Proof.
  intros Ht. rewrite <- (ln_exp (t - 1)).
  pose proof (exp_ineq1_le (t - 1)) as H.
  destruct H as [H|H].
  - left. apply ln_increasing; lra.
  - right. f_equal. lra.
Qed.



Lemma exp_gamma_bounds : 0 < exp_gamma < 3.
Proof.
  unfold exp_gamma, Rpower. split; [apply exp_pos|].
  assert (Hl : 0 < ln 2.718281828459045) by (apply ln_pos; lra).
  apply Rlt_trans with (exp (ln 2.718281828459045)).
  - apply exp_increasing. nra.
  - rewrite exp_ln; lra.
Qed.





Lemma R_Xi_pos m : (2 <= m)%Z -> 0 < R_Xi m.
Proof.
  intros Hm. unfold R_Xi. assert (2 <= IZR m) by (apply (IZR_le 2); exact Hm).
  apply Rdiv_lt_0_compat; nra.
Qed.

Lemma R_E_pos m : (2 <= m)%Z -> 0 < R_E m.
Proof.
  intros Hm. unfold R_E. assert (2 <= IZR m) by (apply (IZR_le 2); exact Hm).
  pose proof ln2_pos. pose proof (ln_pos (IZR m) ltac:(lra)).
  apply Rdiv_lt_0_compat; nra.
Qed.





Local Close Scope R_scope.

Lemma R_Omega_nonneg D k : (0 <= D)%R -> 3 <= k -> (0 <= R_Omega D k)%R.
Proof.
  intros HD Hk. unfold R_Omega.
  assert (H3 : (3 <= IZR k)%R) by (apply (IZR_le 3); exact Hk).
  pose proof (ln_ge1 _ H3) as Hl. pose proof exp_gamma_bounds as [Hg _].
  assert (0 <= ln (ln (IZR k)))%R.
  { rewrite <- ln_1. destruct Hl as [Hl|Hl].
    - left. apply ln_increasing; lra.
    - right. now rewrite <- Hl. }
  apply Rmult_le_pos; [nra|]. left. apply Rinv_0_lt_compat. lra.
Qed.

Lemma R_total_pos D n : (0 <= D)%R -> (0 < R_total D n)%R.
Proof.
  intros HD. unfold R_total.
  pose proof (R_Xi_pos (Z.max n 2) ltac:(lia)).
  pose proof (R_E_pos (Z.max n 2) ltac:(lia)).
  pose proof (R_Omega_nonneg D (Z.max n 3) HD ltac:(lia)).
  lra.
Qed.

(* ===================================================================== *)
(** ** Dictionaries *)

Lemma dict_get_set_same {V : Type} (d : dict V) k v :
  dict_get (dict_set d k v) k = Some v.
Proof.
  induction d as [|[k' v'] d IH]; simpl.
  - now rewrite Z.eqb_refl.
  - destruct (k' =? k) eqn:E; simpl.
    + now rewrite Z.eqb_refl.
    + now rewrite E.
Qed.

Lemma dict_get_set_other {V : Type} (d : dict V) k k' v :
  k' <> k -> dict_get (dict_set d k v) k' = dict_get d k'.
Proof.
  intros Hne. induction d as [|[k0 v0] d IH]; simpl.
  - destruct (k =? k') eqn:E; [apply Z.eqb_eq in E; congruence | reflexivity].
  - destruct (k0 =? k) eqn:E; simpl.
    + apply Z.eqb_eq in E. subst k0.
      destruct (k =? k') eqn:E'; [apply Z.eqb_eq in E'; congruence | reflexivity].
    + destruct (k0 =? k'); [reflexivity | exact IH].
Qed.

Lemma dict_set_keys {V : Type} (d : dict V) k v k' :
  In k' (map fst (dict_set d k v)) <-> k' = k \/ In k' (map fst d).
Proof.
  induction d as [|[k0 v0] d IH]; simpl.
  - intuition.
  - destruct (k0 =? k) eqn:E; simpl.
    + apply Z.eqb_eq in E. subst k0. intuition.
    + rewrite IH. intuition.
Qed.

Lemma dict_set_NoDup {V : Type} (d : dict V) k v :
  NoDup (map fst d) -> NoDup (map fst (dict_set d k v)).
Proof.
  induction d as [|[k0 v0] d IH]; simpl; intros Hnd.
  - constructor; [intros [] | constructor].
  - inversion Hnd as [|? ? Hnin Hnd']; subst.
    destruct (k0 =? k) eqn:E; simpl.
    + apply Z.eqb_eq in E. subst k0. now constructor.
    + constructor; [|now apply IH].
      rewrite dict_set_keys. intros [->|Hin]; [|contradiction].
      rewrite Z.eqb_refl in E. discriminate.
Qed.

Lemma set_mem_In x s : set_mem x s = true <-> In x s.
Proof.
  unfold set_mem. rewrite existsb_exists. split.
  - intros (y & Hy & E). apply Z.eqb_eq in E. now subst.
  - intros H. exists x. split; [exact H | apply Z.eqb_refl].
Qed.

Lemma need_set_NoDup points N_ref : NoDup (need_set points N_ref).
Proof. apply NoDup_nodup. Qed.

Lemma need_set_ref points N_ref : In N_ref (need_set points N_ref).
Proof. unfold need_set. apply nodup_In, in_or_app. right. now left. Qed.

(* ===================================================================== *)
(** ** The tail bound certifier in exact arithmetic *)

Section ExactTails.
#[local] Existing Instance Exact.
Local Open Scope R_scope.

Lemma IZR_max2 n : 2 <= IZR (Z.max n 2).
Proof. apply (IZR_le 2). lia. Qed.

Lemma IZR_max3 n : 3 <= IZR (Z.max n 3).
Proof. apply (IZR_le 3). lia. Qed.

Lemma xi_tail_bound_eval n : xi_tail_bound n = Ok (R_Xi (Z.max n 2)).
Proof.
  unfold xi_tail_bound, R_Xi. pose proof (IZR_max2 n) as H.
  cbn [of_int lit Exact bind]. rewrite Rlit_int, mult_IZR.
  rewrite fdiv_ok by nra. do 2 f_equal. ring.
Qed.

Lemma e_tail_bound_eval n : e_tail_bound n = Ok (R_E (Z.max n 2)).
Proof.
  unfold e_tail_bound, R_E. pose proof (IZR_max2 n) as H. pose proof ln2_pos as H2.
  cbv zeta. rewrite flog_int_ok by lia. cbn [bind lit Exact].
  rewrite !Rlit_int. rewrite flog_ok by lra. cbn [bind of_int fadd fmul Exact].
  apply fdiv_ok. nra.
Qed.

Lemma fpow_e_gamma :
  fpow (lit 2718281828459045 (-15)) EULER_GAMMA = Ok exp_gamma.
Proof.
  unfold EULER_GAMMA, exp_gamma. cbn [fpow lit Exact].
  rewrite Rlit_e, Rlit_gamma.
  destruct (Rlt_dec 0 2.718281828459045) as [_|Hn]; [reflexivity|]. exfalso. lra.
Qed.

Lemma omega_tail_bound_eval n (D : R) :
  omega_tail_bound n D = Ok (R_Omega D (Z.max n 3)).
Proof.
  unfold omega_tail_bound, R_Omega. pose proof (IZR_max3 n) as H.
  pose proof (ln_ge1 _ H) as Hl.
  cbv zeta. rewrite fpow_e_gamma. cbn [bind].
  rewrite flog_int_ok by lia. cbn [bind].
  rewrite flog_ok by lra. cbn [bind of_int fadd fmul Exact].
  apply fdiv_ok. lra.
Qed.

Lemma triad_tail_bound_eval n (D : R) :
  triad_tail_bound n D = Ok (tail_at D n).
Proof.
  unfold triad_tail_bound.
  now rewrite xi_tail_bound_eval, e_tail_bound_eval, omega_tail_bound_eval.
Qed.

Lemma D_omega_default_exact : D_omega_default = 10.
Proof. unfold D_omega_default. cbn [lit Exact]. apply Rlit_int. Qed.

End ExactTails.

(* ===================================================================== *)
(** ** The tail bound certifier: claims C2 and C3 *)

(** The clamps, in every arithmetic: the three bounds see [n] only through
    [max(n, 2)] and [max(n, 3)]. *)
Lemma tail_bounds_clamped {FO : FloatOps} (n : Z) (D : flt) :
  xi_tail_bound (Z.max n 2) = xi_tail_bound n
  /\ e_tail_bound (Z.max n 2) = e_tail_bound n
  /\ omega_tail_bound (Z.max n 3) D = omega_tail_bound n D.
Proof.
  unfold xi_tail_bound, e_tail_bound, omega_tail_bound. cbv zeta.
  replace (Z.max (Z.max n 2) 2) with (Z.max n 2) by lia.
  now replace (Z.max (Z.max n 3) 3) with (Z.max n 3) by lia.
Qed.

(** An [int] from [2^1024 - 2^970] on does not convert to a double. *)
Lemma double_of_int_overflow z :
  2 ^ 1024 - 2 ^ 970 <= z -> double_of_int z = Raise OverflowError.
Proof.
  intros H. unfold double_of_int.
  assert (H0 : 0 <= 2 ^ 1024 - 2 ^ 970) by (apply Z.leb_le; vm_compute; reflexivity).
  remember (2 ^ 1024 - 2 ^ 970) as T eqn:ET.
  rewrite Z.abs_eq by lia.
  now replace (z <? T) with false by (symmetry; apply Z.ltb_ge; exact H).
Qed.

(** On doubles the first bound, hence the tuple, is not returned once the
    square of the clamped index does not convert. *)
Lemma tail_bound_overflow (L : Libm) (n : Z) (D : @flt (Double L)) :
  2 ^ 1024 - 2 ^ 970 <= Z.max n 2 * Z.max n 2 ->
  @xi_tail_bound (Double L) n = Raise OverflowError
  /\ @triad_tail_bound (Double L) n D = Raise OverflowError.
Proof.
  intros H.
  assert (Hx : @xi_tail_bound (Double L) n = Raise OverflowError).
  { unfold xi_tail_bound. cbv zeta. cbn [of_int Double].
    now rewrite (double_of_int_overflow _ H). }
  split; [exact Hx|]. unfold triad_tail_bound. now rewrite Hx.
Qed.

(** On doubles the first bound is returned below that: it is the quotient
    of [2.0] by the double nearest to the square. *)
Lemma xi_tail_bound_double (L : Libm) (n : Z) :
  Z.max n 2 * Z.max n 2 < 2 ^ 1024 - 2 ^ 970 ->
  @xi_tail_bound (Double L) n
  = Ok (PrimFloat.div (double_of_Z 2) (double_of_Z (Z.max n 2 * Z.max n 2))).
Proof.
  intros H. unfold xi_tail_bound. cbv zeta.
  change (@of_int (Double L)) with double_of_int.
  rewrite double_of_int_ok by nia. cbn [bind].
  change (@lit (Double L) 2 0) with (double_of_Z 2).
  assert (Hb : fl_big (Z.max n 2 * Z.max n 2 <? 0)
                 (Z.log2 (Z.abs (Z.max n 2 * Z.max n 2)) + 1)
                 (double_of_Z (Z.max n 2 * Z.max n 2)))
    by (apply double_of_Z_big; nia).
  simpl. now rewrite (fl_big_nonzero _ _ _ Hb).
Qed.

(** C2.  In every arithmetic, [triad_tail_bound n D] returns the bounds of
    [xi_tail_bound] and [e_tail_bound] at [max(n, 2)], of [omega_tail_bound]
    at [max(n, 3)], and their sum, and is the same at every [n <= 2].  In
    exact arithmetic, for every integer [n] and every [D], it returns the
    four-tuple [(R_Xi, R_E, R_Omega, R_total)] with [R_Xi = 2 / m^2] and
    [R_E = (ln m + 1) / (m ln 2)] at [m = max(n, 2)],
    [R_Omega = (e^gamma ln (ln k) + D) / k] at [k = max(n, 3)], and
    [R_total] their sum.  The two logarithms of [omega_tail_bound] are taken
    at [k] and at [ln k > 0], inside their domain, whatever [n] is.  On
    doubles the tuple is not returned for every [n]: the call raises
    [OverflowError] when [m * m] is [2^1024 - 2^970] or more; below that
    the first bound is [2.0] divided by the double nearest to [m * m]. *)
Theorem triad_tail_bound_spec (n : Z) (D : R) :
  let m := Z.max n 2 in
  let k := Z.max n 3 in
  @triad_tail_bound Exact n D =
    Ok (2 / (IZR m) ^ 2,
        (ln (IZR m) + 1) / (IZR m * ln 2),
        (exp_gamma * ln (ln (IZR k)) + D) / IZR k,
        2 / (IZR m) ^ 2 + (ln (IZR m) + 1) / (IZR m * ln 2)
        + (exp_gamma * ln (ln (IZR k)) + D) / IZR k)%R
  /\ @flog_int Exact k = Ok (ln (IZR k))
  /\ (0 < ln (IZR k))%R
  /\ @flog Exact (ln (IZR k)) = Ok (ln (ln (IZR k)))
  /\ (forall (FO : FloatOps) (D' : flt),
        triad_tail_bound n D' =
          (rx <- xi_tail_bound m ;;
           re <- e_tail_bound m ;;
           ro <- omega_tail_bound k D' ;;
           Ok (rx, re, ro, fadd (fadd rx re) ro))
        /\ triad_tail_bound (Z.min n 2) D' = triad_tail_bound 2 D')
  /\ (forall (L : Libm) (D' : @flt (Double L)),
        2 ^ 1024 - 2 ^ 970 <= m * m ->
        @triad_tail_bound (Double L) n D' = Raise OverflowError)
  /\ (forall L : Libm,
        m * m < 2 ^ 1024 - 2 ^ 970 ->
        @xi_tail_bound (Double L) n
        = Ok (PrimFloat.div (double_of_Z 2) (double_of_Z (m * m)))).
Proof.
  intros m k. split; [apply triad_tail_bound_eval|].
  pose proof (IZR_max3 n) as H. fold k in H.
  pose proof (ln_ge1 _ H) as Hl.
  split; [apply flog_int_ok; lia|]. split; [lra|].
  split; [apply flog_ok; lra|].
  split; [|split; [intros L D' Hm; now apply tail_bound_overflow
                  |intros L Hm; now apply xi_tail_bound_double]].
  intros FO D'. split.
  - unfold m, k.
    destruct (tail_bounds_clamped n D') as (-> & -> & ->). reflexivity.
  - unfold triad_tail_bound.
    destruct (tail_bounds_clamped (Z.min n 2) D') as (<- & <- & <-).
    destruct (tail_bounds_clamped 2 D') as (<- & <- & <-).
    now replace (Z.max (Z.min n 2) 2) with (Z.max 2 2) by lia;
      replace (Z.max (Z.min n 2) 3) with (Z.max 2 3) by lia.
Qed.

(** C2, as the claim states it, fails on doubles: at [n = 10^200] the square
    [10^400] does not convert, and [triad_tail_bound(10^200, 10.0)] returns
    no tuple, whatever the C library. *)
Lemma triad_tail_bound_overflow :
  (forall L : Libm, @xi_tail_bound (Double L) (10 ^ 200) = Raise OverflowError)
  /\ (forall L : Libm,
        @triad_tail_bound (Double L) (10 ^ 200) (@lit (Double L) 10 0)
        = Raise OverflowError).
Proof.
  assert (H : 2 ^ 1024 - 2 ^ 970 <= Z.max (10 ^ 200) 2 * Z.max (10 ^ 200) 2)
    by (apply Z.leb_le; vm_compute; reflexivity).
  split; intros L.
  - exact (proj1 (tail_bound_overflow L (10 ^ 200) (@lit (Double L) 10 0) H)).
  - exact (proj2 (tail_bound_overflow L (10 ^ 200) (@lit (Double L) 10 0) H)).
Qed.




(* ===================================================================== *)
(** ** The certification composer, in every arithmetic *)

Lemma dict_get_In {V : Type} (d : dict V) k v :
  dict_get d k = Some v -> In k (map fst d).
Proof.
  induction d as [|[k' v'] d IH]; simpl; [discriminate|].
  destruct (k' =? k) eqn:Ek.
  - apply Z.eqb_eq in Ek. now left.
  - intros H. right. now apply IH.
Qed.

Lemma py_max_ok points : points <> [] -> exists m, py_max points = Ok m.
Proof.
  destruct points as [|x l]; [congruence|]. intros _. eexists. reflexivity.
Qed.

Section Composer.
Context {FO : FloatOps}.

(** The loop of [compute_values] over the records [all] of a stream that
    ends with [fin]: when it returns, the dictionaries hold what was needed
    among the records seen, and either every record was seen or the loop
    broke with every needed index captured; when it raises, the exception is
    the stream's or one of [triad_tail_bound]. *)
Lemma consume_spec need D all fin :
  (forall i r, nth_error all i = Some r -> rec_n r = Z.of_nat i + 1) ->
  forall recs pre vals Rb,
    all = pre ++ recs -> captured need D all (length pre) vals Rb ->
    match consume need D recs fin vals Rb with
    | Ok (vals', Rb') =>
        exists i, captured need D all i vals' Rb'
                  /\ ((i = length all /\ fin = None)
                      \/ length vals' = length need)
    | Raise e =>
        fin = Some e \/ exists k, In k need /\ triad_tail_bound k D = Raise e
    end.
Proof.
  intros Hall. induction recs as [|r recs IH]; intros pre vals Rb Hsplit Hcap.
  - cbn [consume]. destruct fin as [e|]; [now left|].
    exists (length pre). split; [exact Hcap|]. left. split; [|reflexivity].
    rewrite Hsplit, app_nil_r. reflexivity.
  - assert (Hr : nth_error all (length pre) = Some r).
    { rewrite Hsplit, nth_error_app2 by lia. now rewrite Nat.sub_diag. }
    assert (Hn : rec_n r = Z.of_nat (length pre) + 1) by (now apply Hall).
    destruct Hcap as (Ha & Hb & Hc).
    cbn [consume]. cbv zeta.
    assert (Hnext : forall vals1 Rb1,
      captured need D all (S (length pre)) vals1 Rb1 ->
      match
        (if (length vals1 =? length need)%nat then Ok (vals1, Rb1)
         else consume need D recs fin vals1 Rb1)
      with
      | Ok (vals', Rb') =>
          exists i, captured need D all i vals' Rb'
                    /\ ((i = length all /\ fin = None)
                        \/ length vals' = length need)
      | Raise e =>
          fin = Some e \/ exists k, In k need /\ triad_tail_bound k D = Raise e
      end).
    { intros vals1 Rb1 Hcap1.
      destruct (length vals1 =? length need)%nat eqn:El.
      - apply Nat.eqb_eq in El. exists (S (length pre)). auto.
      - apply (IH (pre ++ [r])).
        + rewrite <- app_assoc. exact Hsplit.
        + rewrite length_app, Nat.add_1_r. exact Hcap1. }
    destruct (set_mem (rec_n r) need) eqn:Em.
    + apply set_mem_In in Em.
      destruct (triad_tail_bound (rec_n r) D) as [tb|e] eqn:Etb; cbn [bind].
      * apply Hnext. split; [|split].
        -- intros k Hk. apply dict_set_keys in Hk. destruct Hk as [->|Hk].
           ++ split; [lia | exact Em].
           ++ destruct (Ha k Hk). split; [lia | assumption].
        -- intros k Hk Hin. destruct (Z.eq_dec k (rec_n r)) as [->|Hne].
           ++ exists r, tb. rewrite !dict_get_set_same.
              replace (Z.to_nat (rec_n r - 1)) with (length pre) by lia.
              repeat split; auto.
           ++ destruct (Hb k ltac:(lia) Hin) as (r' & tb' & E1 & E2 & E3 & E4).
              exists r', tb'. rewrite !dict_get_set_other by exact Hne.
              repeat split; auto.
        -- now apply dict_set_NoDup.
      * right. exists (rec_n r). split; [exact Em | exact Etb].
    + cbn [bind]. apply Hnext. split; [|split].
      * intros k Hk. destruct (Ha k Hk). split; [lia | assumption].
      * intros k Hk Hin. destruct (Z.eq_dec k (rec_n r)) as [->|Hne].
        -- apply set_mem_In in Hin. congruence.
        -- apply Hb; [lia | exact Hin].
      * exact Hc.
Qed.

(** A key of [vals] comes with its record and its tail bounds. *)
Lemma captured_get need D all i vals Rb k v :
  captured need D all i vals Rb -> dict_get vals k = Some v ->
  1 <= k /\ exists r tb,
    nth_error all (Z.to_nat (k - 1)) = Some r
    /\ v = rec_vals r
    /\ triad_tail_bound k D = Ok tb
    /\ dict_get Rb k = Some tb.
Proof.
  intros (Ha & Hb & Hc) Hv.
  destruct (Ha k (dict_get_In _ _ _ Hv)) as [Hk Hin].
  split; [lia|].
  destruct (Hb k Hk Hin) as (r & tb & E1 & E2 & E3 & E4).
  exists r, tb. repeat split; auto. congruence.
Qed.

(** The reference index is a key once the loop is over. *)
Lemma captured_ref need D all i vals Rb N_ref :
  NoDup need -> In N_ref need -> 1 <= N_ref <= len all ->
  captured need D all i vals Rb ->
  i = length all \/ length vals = length need ->
  exists v, dict_get vals N_ref = Some v.
Proof.
  intros Hnd Hin Href (Ha & Hb & Hc) [Hi|Hlen].
  - destruct (Hb N_ref) as (r & tb & _ & E & _); [unfold len in Href; lia | exact Hin |].
    eauto.
  - assert (Hincl : incl need (map fst vals)).
    { apply NoDup_length_incl; [exact Hc | rewrite length_map; lia |].
      intros k Hk. now apply Ha. }
    destruct (Ha N_ref (Hincl N_ref Hin)) as [Hk _].
    destruct (Hb N_ref Hk Hin) as (r & tb & _ & E & _). eauto.
Qed.

(** What [compute_values] returns, when it returns. *)
Lemma compute_values_returns points N_ref D vals Rb lo hi :
  compute_values points N_ref D = Ok (vals, Rb, (lo, hi)) ->
  exists m phi pi r rx re ro rt,
    py_max points = Ok m
    /\ sieve_phi (Z.max m N_ref) = Ok phi
    /\ sieve_pi (Z.max m N_ref) = Ok pi
    /\ nth_error (fst (stream_prefix_values (Z.max m N_ref) phi pi))
                 (Z.to_nat (N_ref - 1)) = Some r
    /\ rec_n r = N_ref
    /\ F N_ref phi pi = Ok (rec_F r)
    /\ triad_tail_bound N_ref D = Ok (rx, re, ro, rt)
    /\ lo = fsub (rec_F r) rt
    /\ hi = fadd (rec_F r) rt.
Proof.
  unfold compute_values. intros H.
  destruct (py_max points) as [m|] eqn:Em; [|discriminate]. cbn [bind] in H.
  set (N := Z.max m N_ref) in *.
  destruct (sieve_phi N) as [phi|] eqn:Ephi; [|discriminate]. cbn [bind] in H.
  destruct (sieve_pi N) as [pi|] eqn:Epi; [|discriminate]. cbn [bind] in H.
  destruct (stream_prefix_values N phi pi) as [recs fin] eqn:Es.
  destruct (consume (need_set points N_ref) D recs fin [] [])
    as [[vals' Rb']|e] eqn:Ec; [|discriminate]. cbn [bind] in H.
  destruct (dict_get vals' N_ref) as [[[[v1 v2] v3] F_ref]|] eqn:Ev; [|discriminate].
  destruct (dict_get Rb' N_ref) as [[[[rx re] ro] rt]|] eqn:Eb; [|discriminate].
  injection H as <- <- <- <-.
  assert (HN : 0 <= N).
  { destruct (Z_lt_le_dec N 0) as [Hneg|Hpos]; [|exact Hpos]. exfalso.
    unfold stream_prefix_values in Es. rewrite py_range_nil in Es by lia.
    injection Es as <- <-. cbn in Ec. injection Ec as <- <-. discriminate. }
  destruct (stream_records_shape N phi pi HN)
    as (recs0 & fin0 & Es0 & Hmap & _ & _ & Hshape).
  rewrite Es in Es0. injection Es0 as <- <-.
  assert (Hall : forall i r, nth_error recs i = Some r -> rec_n r = Z.of_nat i + 1).
  { intros i r Hi.
    assert (Hlt : (i < length recs)%nat) by (apply nth_error_Some; congruence).
    pose proof (map_nth_error rec_n _ _ Hi) as Hm. rewrite Hmap in Hm.
    rewrite py_range_nth_error in Hm by (unfold len; lia).
    assert (Hm' : 1 + Z.of_nat i = rec_n r) by congruence. lia. }
  pose proof (consume_spec (need_set points N_ref) D recs fin Hall recs [] [] []
                eq_refl) as Hc.
  rewrite Ec in Hc. destruct Hc as (i & Hcap & _).
  { split; [intros k []|]. split; [intros k Hk; simpl in Hk; lia | constructor]. }
  destruct (captured_get _ _ _ _ _ _ _ _ Hcap Ev)
    as (Hk & r & tb & Er & Evr & Etb & Erb).
  rewrite Eb in Erb. injection Erb as <-.
  unfold rec_vals in Evr. injection Evr as -> -> -> ->.
  assert (HrefN : 1 <= N_ref <= N) by (unfold N; lia).
  pose proof (stream_nth_scalar N phi pi N_ref HrefN) as Hs.
  rewrite Es in Hs. cbn [fst] in Hs. rewrite Er in Hs.
  destruct Hs as (Hrn & Hx & Ho & He).
  destruct (Hshape r (nth_error_In _ _ Er)) as (HF & _).
  subst N. exists m, phi, pi, r, rx, re, ro, rt.
  split; [reflexivity|]. split; [exact Ephi|]. split; [exact Epi|].
  split; [rewrite Es; exact Er|]. split; [exact Hrn|].
  split; [unfold F; rewrite Hx, Ho, He; cbn [bind]; now rewrite HF|].
  split; [exact Etb|]. split; reflexivity.
Qed.

End Composer.

(* ===================================================================== *)
(** ** The certification composer: claim C4 *)

Section ExactComposer.
#[local] Existing Instance Exact.

(** In exact arithmetic [compute_values] returns, for a non-empty list of
    points and a reference index from 1 on. *)
Lemma compute_values_exact_ok (points : list Z) (N_ref : Z) (D : R) :
  points <> [] -> 1 <= N_ref ->
  exists vals Rb lo hi,
    @compute_values Exact points N_ref D = Ok (vals, Rb, (lo, hi)).
Proof.
  intros Hpts Href.
  destruct (py_max_ok points Hpts) as (m & Em).
  set (N := Z.max m N_ref). assert (HN : 1 <= N) by (unfold N; lia).
  destruct (sieve_phi_spec N ltac:(lia)) as (phi & Ephi & _).
  destruct (sieve_pi_spec N ltac:(lia)) as (pi & Epi & _).
  assert (Had : adequate N phi pi) by (apply (sieve_adequate N N); auto; lia).
  destruct (stream_spec N phi pi ltac:(lia) Had) as (recs & Es & Hl & Hr).
  assert (Hall : forall i r, nth_error recs i = Some r -> rec_n r = Z.of_nat i + 1).
  { intros i r Hi.
    assert (Hlt : (i < length recs)%nat) by (apply nth_error_Some; congruence).
    destruct (Hr (Z.of_nat i + 1)) as (x & o & e & _ & _ & _ & Ei);
      [unfold len in Hl; lia|].
    replace (Z.to_nat (Z.of_nat i + 1 - 1)) with i in Ei by lia.
    rewrite Hi in Ei. injection Ei as ->. reflexivity. }
  pose proof (@consume_spec Exact (need_set points N_ref) D recs None Hall
                recs [] [] [] eq_refl) as Hc.
  unfold compute_values. rewrite Em. cbn [bind]. fold N.
  rewrite Ephi, Epi. cbn [bind]. rewrite Es.
  destruct (@consume Exact (need_set points N_ref) D recs None [] [])
    as [[vals Rb]|e] eqn:Ec.
  - destruct Hc as (i & Hcap & Hend).
    { split; [intros k []|]. split; [intros k Hk; simpl in Hk; lia | constructor]. }
    cbn [bind].
    destruct (@captured_ref Exact (need_set points N_ref) D recs i vals Rb N_ref
                (need_set_NoDup points N_ref) (need_set_ref points N_ref)
                ltac:(unfold N in *; lia) Hcap ltac:(tauto))
      as (v & Ev).
    destruct (captured_get _ _ _ _ _ _ _ _ Hcap Ev)
      as (_ & r & tb & _ & _ & _ & Erb).
    rewrite Ev, Erb. destruct v as [[[v1 v2] v3] v4]. destruct tb as [[[t1 t2] t3] t4].
    eexists _, _, _, _. reflexivity.
  - exfalso. destruct Hc as [Hfin|(k & _ & Hk)].
    { split; [intros k []|]. split; [intros k Hk; simpl in Hk; lia | constructor]. }
    + discriminate.
    + rewrite triad_tail_bound_eval in Hk. discriminate.
Qed.

End ExactComposer.

(** C4.  In every arithmetic, when [compute_values] returns, the interval it
    returns is [(F_ref - R_total, F_ref + R_total)], where [F_ref] is the
    fifth component of the record the stream yields at [N_ref], equal to
    [F N_ref phi pi] on the sieve tables for [N = max(max(points), N_ref)],
    and [R_total] is the fourth component of [triad_tail_bound N_ref D].  In
    exact arithmetic, for a non-empty list of points and [N_ref >= 1] it does
    return, with [R_total] the closed form; for [D >= 0], hence at the
    default 10, [R_total > 0] and the lower endpoint is at most the upper
    one. *)
Theorem compute_values_interval (points : list Z) (N_ref : Z)
    (Hpts : points <> []) (Href : 1 <= N_ref) :
  (forall (FO : FloatOps) (D : flt) vals Rb lo hi,
     compute_values points N_ref D = Ok (vals, Rb, (lo, hi)) ->
     exists m phi pi r rx re ro rt,
       py_max points = Ok m
       /\ sieve_phi (Z.max m N_ref) = Ok phi
       /\ sieve_pi (Z.max m N_ref) = Ok pi
       /\ nth_error (fst (stream_prefix_values (Z.max m N_ref) phi pi))
                    (Z.to_nat (N_ref - 1)) = Some r
       /\ rec_n r = N_ref
       /\ F N_ref phi pi = Ok (rec_F r)
       /\ triad_tail_bound N_ref D = Ok (rx, re, ro, rt)
       /\ lo = fsub (rec_F r) rt
       /\ hi = fadd (rec_F r) rt)
  /\ (forall D : R,
        exists vals Rb (f : R),
          @compute_values Exact points N_ref D =
            Ok (vals, Rb, (f - R_total D N_ref, f + R_total D N_ref)%R)
          /\ ((0 <= D)%R ->
              (0 < R_total D N_ref)%R
              /\ (f - R_total D N_ref <= f + R_total D N_ref)%R)).
Proof.
  split.
  - intros FO D vals Rb lo hi H.
    exact (compute_values_returns points N_ref D vals Rb lo hi H).
  - intros D.
    destruct (compute_values_exact_ok points N_ref D Hpts Href)
      as (vals & Rb & lo & hi & Ec).
    destruct (@compute_values_returns Exact points N_ref D vals Rb lo hi Ec)
      as (m & phi & pi & r & rx & re & ro & rt & _ & _ & _ & _ & _ & _
          & Etb & -> & ->).
    rewrite triad_tail_bound_eval in Etb. unfold tail_at in Etb.
    injection Etb as _ _ _ <-.
    exists vals, Rb, (rec_F r). split; [exact Ec|].
    intros HD. pose proof (R_total_pos D N_ref HD). split; lra.
Qed.

Lemma compute_values_interval_witness :
  exists (lo hi : R) vals Rb,
    @compute_values Exact [2] 1 D_omega_default = Ok (vals, Rb, (lo, hi))
    /\ (lo <= hi)%R.
Proof.
  destruct (compute_values_interval [2] 1 ltac:(discriminate) ltac:(lia))
    as (_ & Hex).
  destruct (Hex (@D_omega_default Exact)) as (vals & Rb & f & Ec & Hle).
  eexists _, _, vals, Rb. split; [exact Ec|].
  apply Hle. rewrite D_omega_default_exact. lra.
Defined.

(* ===================================================================== *)
(** ** Input validation and the denominator of the Omega term: C7 and C8 *)

(** C7 (the code does otherwise).  For a negative [N], [sieve_phi] and
    [sieve_pi] raise nothing: both return the empty table.  The older
    [sieve_totients] of [scripts/triad_full.py] raises [ValueError]. *)
Theorem sieve_negative_returns_empty (N : Z) (HN : N < 0) :
  sieve_phi N = Ok []
  /\ sieve_pi N = Ok []
  /\ triad_full.sieve_totients N = Raise ValueError.
Proof.
  split; [|split].
  - unfold sieve_phi.
    replace (N >=? 1) with false
      by (symmetry; rewrite Z.geb_leb; apply Z.leb_gt; lia).
    rewrite !py_range_nil by lia. reflexivity.
  - unfold sieve_pi, sieve_primes_bool.
    replace (N <? 1) with true by (symmetry; apply Z.ltb_lt; lia).
    rewrite py_range_nil by lia. unfold py_repeat.
    replace (Z.to_nat (N + 1)) with 0%nat by lia. reflexivity.
  - unfold triad_full.sieve_totients.
    now replace (N <? 0) with true by (symmetry; apply Z.ltb_lt; lia).
Qed.

Lemma sieve_negative_returns_empty_witness :
  sieve_phi (-1) = Ok [] /\ sieve_pi (-1) = Ok [].
Proof.
  destruct (sieve_negative_returns_empty (-1) ltac:(lia)) as (H1 & H2 & _).
  split; [exact H1 | exact H2].
Defined.

(** C8 (the code does otherwise).  [omega_term] has no test on its
    denominator.  In exact arithmetic, at [i >= 2], it raises exactly when
    [phi_i + pi_i = 0]; on a negative denominator it returns the negative
    number [1 / (i (phi_i + pi_i))]: [omega_term 2 (-1) 0] is [-1/2].  The
    older [Omega_terms] of [scripts/triad_full.py] raises [ArithmeticError]
    there. *)
Theorem omega_term_negative_denominator (i phi_i pi_i : Z) (Hi : 2 <= i) :
  (phi_i + pi_i < 0 ->
      @omega_term Exact i phi_i pi_i = Ok (1 / IZR (i * (phi_i + pi_i)))%R
      /\ (1 / IZR (i * (phi_i + pi_i)) < 0)%R)
  /\ (phi_i + pi_i = 0 ->
      @omega_term Exact i phi_i pi_i = Raise ZeroDivisionError)
  /\ (0 < phi_i + pi_i ->
      @omega_term Exact i phi_i pi_i = Ok (1 / IZR (i * (phi_i + pi_i)))%R)
  /\ @omega_term Exact 2 (-1) 0 = Ok (- (1 / 2))%R
  /\ (forall FO : FloatOps,
        triad_full.Omega_terms 2 [0; 1; -1] [0; 0; 0] = Raise ArithmeticError).
Proof.
  split; [|split; [|split; [|split]]].
  - intros Hneg. split; [apply omega_term_ok; lia|].
    assert (IZR (i * (phi_i + pi_i)) < 0)%R by (apply (IZR_lt _ 0); nia).
    unfold Rdiv. rewrite Rmult_1_l. now apply Rinv_lt_0_compat.
  - intros H0. unfold omega_term. rewrite H0, Z.mul_0_r.
    cbn [of_int Exact bind]. apply fdiv_zero.
  - intros Hpos. apply omega_term_ok; lia.
  - rewrite omega_term_ok by lia. f_equal.
    replace (IZR (2 * (-1 + 0))) with (-2)%R by (simpl; lra). lra.
  - intros FO. reflexivity.
Qed.

Lemma omega_term_negative_denominator_witness :
  exists v : R, @omega_term Exact 2 (-1) 0 = Ok v /\ (v < 0)%R.
Proof.
  destruct (omega_term_negative_denominator 2 (-1) 0 ltac:(lia)) as (H & _).
  destruct (H ltac:(lia)) as (Ev & Hv).
  eexists. split; [exact Ev | exact Hv].
Defined.

(* ===================================================================== *)
(** * Further properties of the code *)

(* ===================================================================== *)
(** ** The sieve engine *)

Lemma list_eq_znth {A : Type} (d : A) (l1 l2 : list A) :
  len l1 = len l2 ->
  (forall i, 0 <= i < len l1 -> znth d l1 i = znth d l2 i) -> l1 = l2.
Proof.
  intros Hl H. apply (nth_ext l1 l2 d d); [unfold len in Hl; lia|].
  intros n Hn. specialize (H (Z.of_nat n) ltac:(unfold len; lia)).
  unfold znth in H. now rewrite Nat2Z.id in H.
Qed.

Lemma znth_firstn {A : Type} (d : A) (l : list A) n i :
  0 <= i < n -> znth d (firstn (Z.to_nat n) l) i = znth d l i.
Proof.
  intros Hi. unfold znth. rewrite nth_firstn.
  destruct (Nat.ltb_spec (Z.to_nat i) (Z.to_nat n)); [reflexivity | lia].
Qed.

Lemma len_firstn {A : Type} (l : list A) n :
  0 <= n <= len l -> len (firstn (Z.to_nat n) l) = n.
Proof. intros H. unfold len in *. rewrite length_firstn. lia. Qed.

(** X1.  [sieve_primes_bool N] never raises.  For [N >= 0] its table has
    length [N + 1] and entry [k] is [True] exactly when [k] is a prime
    number; for [N < 0] the table is empty. *)
Theorem sieve_primes_bool_correct (N : Z) :
  exists t,
    sieve_primes_bool N = Ok t
    /\ len t = Z.max 0 (N + 1)
    /\ forall k, 0 <= k <= N -> znth false t k = true <-> prime k.
Proof.
  destruct (Z_lt_le_dec N 0) as [Hneg|Hpos].
  - exists []. split; [|split].
    + unfold sieve_primes_bool.
      replace (N <? 1) with true by (symmetry; apply Z.ltb_lt; lia).
      unfold py_repeat. now replace (Z.to_nat (N + 1)) with 0%nat by lia.
    + unfold len. simpl. lia.
    + intros k Hk. lia.
  - destruct (sieve_primes_bool_spec N Hpos) as (t & Et & Hl & Ht).
    exists t. split; [exact Et|]. split; [lia|].
    intros k Hk. rewrite (Ht k Hk). apply Zprime_iff_prime.
Qed.

(** X2.  On the tables of [sieve_phi N] and [sieve_pi N], at every
    [1 <= i <= N]: [1 <= phi[i] <= i], [0 <= pi[i] <= i - 1], so that the
    denominator [i * (phi[i] + pi[i])] of the Omega term is positive. *)
Theorem sieve_tables_positive (N : Z) (HN : 0 <= N) :
  exists phi pi,
    sieve_phi N = Ok phi /\ sieve_pi N = Ok pi
    /\ forall i, 1 <= i <= N ->
         1 <= znth 0 phi i <= i
         /\ 0 <= znth 0 pi i <= i - 1
         /\ 0 < i * (znth 0 phi i + znth 0 pi i).
Proof.
  destruct (sieve_phi_spec N HN) as (phi & Ephi & _ & _ & Hphi).
  destruct (sieve_pi_spec N HN) as (pi & Epi & _ & Hpi).
  exists phi, pi. split; [exact Ephi|]. split; [exact Epi|].
  intros i Hi. rewrite (Hphi i Hi), (Hpi i ltac:(lia)).
  pose proof (@NT.Ztotient_gt0 i ltac:(lia)) as H1.
  pose proof (@NT.Ztotient_count i ltac:(lia)) as H2.
  pose proof (coprime_count_le i ltac:(lia)) as H3.
  pose proof (prime_count_le i ltac:(lia)) as H4.
  split; [lia|]. split; [lia|]. nia.
Qed.

Lemma sieve_tables_positive_witness :
  exists phi pi,
    sieve_phi 6 = Ok phi /\ sieve_pi 6 = Ok pi
    /\ 0 < 6 * (znth 0 phi 6 + znth 0 pi 6).
Proof.
  destruct (sieve_tables_positive 6 ltac:(lia)) as (phi & pi & E1 & E2 & H).
  exists phi, pi. split; [exact E1|]. split; [exact E2|].
  apply (H 6). lia.
Defined.

(** X3.  A table built for [N] is the first [N + 1] entries of the table
    built for any [M >= N]: larger tables can be used at smaller indices. *)
Theorem sieve_tables_prefix (N M : Z) (HN : 0 <= N) (HM : N <= M) :
  exists phi pi,
    sieve_phi M = Ok phi /\ sieve_pi M = Ok pi
    /\ sieve_phi N = Ok (firstn (Z.to_nat (N + 1)) phi)
    /\ sieve_pi N = Ok (firstn (Z.to_nat (N + 1)) pi).
Proof.
  destruct (sieve_phi_spec M ltac:(lia)) as (phi & Ephi & Lphi & Zphi & Hphi).
  destruct (sieve_pi_spec M ltac:(lia)) as (pi & Epi & Lpi & Hpi).
  destruct (sieve_phi_spec N HN) as (phi' & Ephi' & Lphi' & Zphi' & Hphi').
  destruct (sieve_pi_spec N HN) as (pi' & Epi' & Lpi' & Hpi').
  exists phi, pi. split; [exact Ephi|]. split; [exact Epi|]. split.
  - rewrite Ephi'. f_equal. apply (list_eq_znth 0).
    + rewrite len_firstn; lia.
    + intros i Hi. rewrite znth_firstn by lia.
      destruct (Z.eq_dec i 0) as [->|Hne]; [congruence|].
      rewrite Hphi', Hphi by lia. reflexivity.
  - rewrite Epi'. f_equal. apply (list_eq_znth 0).
    + rewrite len_firstn; lia.
    + intros i Hi. rewrite znth_firstn by lia.
      rewrite Hpi', Hpi by lia. reflexivity.
Qed.

Lemma sieve_tables_prefix_witness :
  exists phi, sieve_phi 9 = Ok phi /\ sieve_phi 4 = Ok (firstn 5 phi).
Proof.
  destruct (sieve_tables_prefix 4 9 ltac:(lia) ltac:(lia))
    as (phi & pi & E1 & _ & E2 & _).
  exists phi. split; [exact E1 | exact E2].
Defined.

Lemma sieve_totients_eq N : 0 <= N -> triad_full.sieve_totients N = sieve_phi N.
Proof.
  intros HN. unfold triad_full.sieve_totients, sieve_phi.
  replace (N <? 0) with false by (symmetry; apply Z.ltb_ge; lia).
  cbv zeta.
  assert (E0 : setitem (py_range 0 (N + 1)) 0 0 = Ok (py_range 0 (N + 1))).
  { rewrite setitem_ok by (rewrite py_range_length; lia).
    f_equal. rewrite py_range_cons by lia. reflexivity. }
  rewrite E0. reflexivity.
Qed.

(** X4.  For [N >= 0] the older [sieve_totients] of [scripts/triad_full.py]
    returns the table of [sieve_phi]: its extra assignment [phi[0] = 0]
    changes nothing. *)
Theorem sieve_totients_agrees (N : Z) (HN : 0 <= N) :
  triad_full.sieve_totients N = sieve_phi N
  /\ exists phi, sieve_phi N = Ok phi.
Proof.
  split.
  - now apply sieve_totients_eq.
  - destruct (sieve_phi_spec N HN) as (phi & E & _). eauto.
Qed.

Lemma sieve_totients_agrees_witness :
  triad_full.sieve_totients 10 = sieve_phi 10.
Proof.
  exact (proj1 (sieve_totients_agrees 10 ltac:(lia))).
Defined.

(* ===================================================================== *)
(** ** The streaming prefix engine *)

Section StreamMore.
Context {FO : FloatOps}.

(** Running the loop on a longer range only appends: the records of the
    shorter run are a prefix, and an exception met by the shorter run ends
    the longer one at the same place. *)
Lemma stream_loop_app phi pi xs ys st :
  fst (stream_loop phi pi xs st)
  = firstn (length xs) (fst (stream_loop phi pi (xs ++ ys) st))
  /\ forall e, snd (stream_loop phi pi xs st) = Some e ->
       stream_loop phi pi (xs ++ ys) st = stream_loop phi pi xs st.
Proof.
  revert st. induction xs as [|x xs IH]; intros st.
  - split; [reflexivity | discriminate].
  - cbn [app stream_loop length].
    destruct (stream_body phi pi st x) as [[st' r]|e]; [|split; reflexivity].
    destruct (IH st') as [IH1 IH2].
    destruct (stream_loop phi pi xs st') as [rs fin] eqn:E1.
    destruct (stream_loop phi pi (xs ++ ys) st') as [rs' fin'] eqn:E2.
    cbn [fst snd] in *. split.
    + cbn [firstn]. now rewrite IH1.
    + intros e He. injection (IH2 e He) as -> ->. reflexivity.
Qed.

Lemma stream_prefix_firstn N M phi pi :
  N <= M ->
  fst (stream_prefix_values N phi pi)
  = firstn (Z.to_nat N) (fst (stream_prefix_values M phi pi))
  /\ forall e, snd (stream_prefix_values N phi pi) = Some e ->
       stream_prefix_values M phi pi = stream_prefix_values N phi pi.
Proof.
  intros HNM. unfold stream_prefix_values.
  destruct (Z_lt_le_dec N 0) as [Hneg|Hpos].
  - rewrite (py_range_nil 1 (N + 1)) by lia.
    replace (Z.to_nat N) with 0%nat by lia.
    split; [reflexivity | discriminate].
  - rewrite (py_range_app 1 (N + 1) (M + 1)) by lia.
    pose proof (stream_loop_app phi pi (py_range 1 (N + 1))
                  (py_range (N + 1) (M + 1)) stream_init) as H.
    replace (length (py_range 1 (N + 1))) with (Z.to_nat N) in H
      by (pose proof (py_range_length 1 (N + 1)) as Hl; unfold len in Hl; lia).
    exact H.
Qed.

End StreamMore.

(** X5.  In every arithmetic the stream for [N] is the stream for any
    [M >= N] cut after [N] records; an exception that ends the stream for
    [N] ends the stream for [M] after the same records.  For [N <= 0] the
    stream yields nothing and ends normally. *)
Theorem stream_prefix_stable (N M : Z) (HNM : N <= M) :
  forall (FO : FloatOps) (phi pi : list Z),
    fst (stream_prefix_values N phi pi)
    = firstn (Z.to_nat N) (fst (stream_prefix_values M phi pi))
    /\ (forall e, snd (stream_prefix_values N phi pi) = Some e ->
          stream_prefix_values M phi pi = stream_prefix_values N phi pi)
    /\ (N <= 0 -> stream_prefix_values N phi pi = ([], None)).
Proof.
  intros FO phi pi.
  destruct (stream_prefix_firstn N M phi pi HNM) as [H1 H2].
  split; [exact H1|]. split; [exact H2|].
  intros H0. unfold stream_prefix_values. now rewrite py_range_nil by lia.
Qed.

Lemma stream_prefix_stable_witness :
  fst (@stream_prefix_values Exact 2 [0; 1; 1; 2] [0; 0; 1; 2])
  = firstn 2 (fst (@stream_prefix_values Exact 3 [0; 1; 1; 2] [0; 0; 1; 2])).
Proof.
  exact (proj1 (stream_prefix_stable 2 3 ltac:(lia) Exact
                  [0; 1; 1; 2] [0; 0; 1; 2])).
Defined.

Section ExactStream.
#[local] Existing Instance Exact.

Lemma exact_xi_e_ok n e : xi_accum n <> Raise e /\ e_accum n <> Raise e.
Proof.
  pose (t := py_repeat 1 (Z.max n 0 + 1)).
  assert (Had : adequate (Z.max n 0) t t).
  { unfold t. split; [|split].
    - rewrite len_repeat; lia.
    - rewrite len_repeat; lia.
    - intros i Hi. rewrite !znth_repeat by lia. lia. }
  pose proof (exact_scalar_ok (Z.max n 0) t t n e Had ltac:(lia)) as H.
  unfold scalar_raises in H. tauto.
Qed.

(** The accumulator of [Omega] on tables whose common length is [L]: fine
    below [max(L, 2)] when the denominators there are not zero, and
    [IndexError] from [max(L, 2)] on. *)
Lemma om_accum_short phi pi :
  let L := Z.min (len phi) (len pi) in
  (forall i, 2 <= i < L -> znth 0 phi i + znth 0 pi i <> 0)%Z ->
  (forall n, n < Z.max L 2 -> exists a, om_accum n phi pi = Ok a)%Z
  /\ (forall n, Z.max L 2 <= n -> om_accum n phi pi = Raise IndexError)%Z.
Proof.
  intros L Hden.
  assert (Hlow : forall n, (n < Z.max L 2)%Z -> exists a, om_accum n phi pi = Ok a).
  { intros n Hn. destruct (Z_lt_le_dec n 2) as [H2|H2].
    - exists Kahan.new. now apply om_accum_low.
    - assert (Had : adequate n phi pi).
      { unfold L in *. split; [lia|]. split; [lia|].
        intros i Hi. apply Hden. lia. }
      destruct (om_accum n phi pi) as [a|e] eqn:Ea; [eauto|].
      exfalso. apply (exact_scalar_ok n phi pi n e Had ltac:(lia)).
      right. left. exact Ea. }
  split; [exact Hlow|].
  intros n Hn. apply (om_accum_raise (Z.max L 2)); [|exact Hn].
  destruct (Hlow (Z.max L 2 - 1)%Z ltac:(lia)) as (a & Ea).
  rewrite (om_accum_next _ _ _ a Ea).
  replace (Z.max L 2 >=? 2)%Z with true by (symmetry; rewrite Z.geb_leb; apply Z.leb_le; lia).
  destruct (Z_le_gt_dec (len phi) (Z.max L 2)) as [Hp|Hp].
  - now rewrite getitem_out by exact Hp.
  - rewrite (getitem_ok 0%Z) by lia. cbn [bind].
    now rewrite getitem_out by (unfold L in *; lia).
Qed.

Lemma stream_short_spec N phi pi :
  let K := Z.max (Z.min (len phi) (len pi)) 2 in
  (K <= N)%Z ->
  (forall i, 2 <= i < Z.min (len phi) (len pi) ->
     znth 0 phi i + znth 0 pi i <> 0)%Z ->
  exists recs,
    stream_prefix_values N phi pi = (recs, Some IndexError)
    /\ len recs = (K - 1)%Z.
Proof.
  intros K HK Hden.
  destruct (om_accum_short phi pi Hden) as [Hlow Hhigh]. fold K in Hlow, Hhigh.
  destruct (stream_trace_spec N phi pi ltac:(lia)) as (recs & fin & Es & Hr & Hfin).
  assert (Hlt : (len recs < K)%Z).
  { destruct (Z_lt_le_dec (len recs) K) as [H|H]; [exact H|]. exfalso.
    destruct (Hr K ltac:(lia)) as (st' & (_ & Ho & _) & _).
    rewrite (Hhigh K ltac:(lia)) in Ho. discriminate. }
  destruct fin as [e|]; [|lia].
  destruct Hfin as [_ Hraise].
  destruct (exact_xi_e_ok (len recs + 1) e) as [Hx He].
  destruct Hraise as [H|[H|H]]; [contradiction| |contradiction].
  assert (Hge : (K <= len recs + 1)%Z).
  { destruct (Z_lt_le_dec (len recs + 1) K) as [Hl|Hl]; [|exact Hl]. exfalso.
    destruct (Hlow _ Hl) as (a & Ea). congruence. }
  rewrite (Hhigh _ Hge) in H. injection H as <-.
  exists recs. split; [exact Es | lia].
Qed.

End ExactStream.

(** X6.  Tables too short for [N], in exact arithmetic: with [L] the
    smaller of the two lengths, [K = max(L, 2)], [K <= N] and no zero
    denominator below [L], the stream yields the [K - 1] records it can and
    then raises [IndexError]; [Omega(n, phi, pi)] raises [IndexError] at every
    [n >= K]. *)
Theorem stream_short_tables (N : Z) (phi pi : list Z)
    (HK : Z.max (Z.min (len phi) (len pi)) 2 <= N)
    (Hden : forall i, 2 <= i < Z.min (len phi) (len pi) ->
              znth 0 phi i + znth 0 pi i <> 0) :
  (exists recs,
     @stream_prefix_values Exact N phi pi = (recs, Some IndexError)
     /\ len recs = Z.max (Z.min (len phi) (len pi)) 2 - 1)
  /\ forall n, Z.max (Z.min (len phi) (len pi)) 2 <= n ->
       @Omega Exact n phi pi = Raise IndexError.
Proof.
  split; [exact (stream_short_spec N phi pi HK Hden)|].
  intros n Hn. rewrite (@Omega_accum Exact).
  destruct (om_accum_short phi pi Hden) as [_ Hhigh].
  now rewrite (Hhigh n Hn).
Qed.

Lemma stream_short_tables_witness :
  exists recs,
    @stream_prefix_values Exact 5 [0; 1; 1] [0; 0; 1; 2] = (recs, Some IndexError)
    /\ len recs = 2.
Proof.
  refine (proj1 (stream_short_tables 5 [0; 1; 1] [0; 0; 1; 2] _ _)).
  - vm_compute. discriminate.
  - intros i Hi. change (Z.min (len [0; 1; 1]) (len [0; 0; 1; 2])) with 3 in Hi.
    assert (Hi2 : i = 2) by lia. subst i. vm_compute. discriminate.
Defined.

(* ===================================================================== *)
(** ** The certification composer *)

Section ComposerMore.
Context {FO : FloatOps}.

Lemma captured_init need D all : captured need D all 0 [] [].
Proof.
  split; [intros k []|]. split; [intros k Hk; simpl in Hk; lia | constructor].
Qed.

(** A needed index from 1 on is a key once the loop is over. *)
Lemma captured_key need D all i vals Rb k :
  NoDup need -> In k need -> 1 <= k ->
  captured need D all i vals Rb ->
  (i = length all /\ k <= len all) \/ length vals = length need ->
  exists r tb,
    nth_error all (Z.to_nat (k - 1)) = Some r
    /\ dict_get vals k = Some (rec_vals r)
    /\ triad_tail_bound k D = Ok tb
    /\ dict_get Rb k = Some tb.
Proof.
  intros Hnd Hin Hk (Ha & Hb & Hc) [[Hi Hle]|Hlen].
  - apply Hb; [unfold len in Hle; lia | exact Hin].
  - assert (Hincl : incl need (map fst vals)).
    { apply NoDup_length_incl; [exact Hc | rewrite length_map; lia |].
      intros j Hj. now apply Ha. }
    destruct (Ha k (Hincl k Hin)) as [Hki _].
    apply Hb; [exact Hki | exact Hin].
Qed.

(** What lies behind a result of [compute_values]. *)
Lemma compute_values_inv points N_ref D vals Rb iv :
  compute_values points N_ref D = Ok (vals, Rb, iv) ->
  exists m phi pi recs fin i,
    py_max points = Ok m
    /\ sieve_phi (Z.max m N_ref) = Ok phi
    /\ sieve_pi (Z.max m N_ref) = Ok pi
    /\ stream_prefix_values (Z.max m N_ref) phi pi = (recs, fin)
    /\ captured (need_set points N_ref) D recs i vals Rb
    /\ ((i = length recs /\ fin = None)
        \/ length vals = length (need_set points N_ref))
    /\ exists v, dict_get vals N_ref = Some v.
Proof.
  unfold compute_values. intros H.
  destruct (py_max points) as [m|] eqn:Em; [|discriminate]. cbn [bind] in H.
  set (N := Z.max m N_ref) in *.
  destruct (sieve_phi N) as [phi|] eqn:Ephi; [|discriminate]. cbn [bind] in H.
  destruct (sieve_pi N) as [pi|] eqn:Epi; [|discriminate]. cbn [bind] in H.
  destruct (stream_prefix_values N phi pi) as [recs fin] eqn:Es.
  destruct (consume (need_set points N_ref) D recs fin [] [])
    as [[vals' Rb']|e] eqn:Ec; [|discriminate]. cbn [bind] in H.
  destruct (dict_get vals' N_ref) as [[[[v1 v2] v3] F_ref]|] eqn:Ev; [|discriminate].
  destruct (dict_get Rb' N_ref) as [[[[rx re] ro] rt]|] eqn:Eb; [|discriminate].
  injection H as <- <- <-.
  assert (HN : 0 <= N).
  { destruct (Z_lt_le_dec N 0) as [Hneg|Hpos]; [|exact Hpos]. exfalso.
    unfold stream_prefix_values in Es. rewrite py_range_nil in Es by lia.
    injection Es as <- <-. cbn in Ec. injection Ec as <- <-. discriminate. }
  destruct (stream_records_shape N phi pi HN)
    as (recs0 & fin0 & Es0 & Hmap & _ & _ & _).
  rewrite Es in Es0. injection Es0 as <- <-.
  assert (Hall : forall i r, nth_error recs i = Some r -> rec_n r = Z.of_nat i + 1).
  { intros i r Hi.
    assert (Hlt : (i < length recs)%nat) by (apply nth_error_Some; congruence).
    pose proof (map_nth_error rec_n _ _ Hi) as Hm. rewrite Hmap in Hm.
    rewrite py_range_nth_error in Hm by (unfold len; lia).
    assert (Hm' : 1 + Z.of_nat i = rec_n r) by congruence. lia. }
  pose proof (consume_spec (need_set points N_ref) D recs fin Hall recs [] [] []
                eq_refl (captured_init _ _ _)) as Hc.
  rewrite Ec in Hc. destruct Hc as (i & Hcap & Hend).
  subst N. exists m, phi, pi, recs, fin, i.
  repeat (split; [assumption || reflexivity|]). eauto.
Qed.

End ComposerMore.

(** X7.  [compute_values] on bad input.  In every arithmetic it raises
    [ValueError] on an empty list of points (from [max]), and it never
    returns when [N_ref < 1]: the stream starts at 1, so [N_ref] is not
    captured.  In exact arithmetic the exception for [N_ref < 1] is the
    [RuntimeError] of the final test. *)
Theorem compute_values_errors (points : list Z) (N_ref : Z) :
  (forall (FO : FloatOps) (D : flt),
     compute_values [] N_ref D = Raise ValueError)
  /\ (N_ref < 1 ->
      (forall (FO : FloatOps) (D : flt) r,
         compute_values points N_ref D <> Ok r)
      /\ (points <> [] ->
          forall D : R,
            @compute_values Exact points N_ref D = Raise RuntimeError)).
Proof.
  split; [reflexivity|]. intros Href.
  assert (Hgen : forall (FO : FloatOps) (D : flt) r,
            compute_values points N_ref D <> Ok r).
  { intros FO D [[vals Rb] iv] H.
    destruct (compute_values_inv _ _ _ _ _ _ H)
      as (m & phi & pi & recs & fin & i & _ & _ & _ & _ & Hcap & _ & v & Ev).
    destruct (captured_get _ _ _ _ _ _ _ _ Hcap Ev) as [Hk _]. lia. }
  split; [exact Hgen|].
  intros Hpts D.
  destruct (py_max_ok points Hpts) as (m & Em).
  set (N := Z.max m N_ref).
  assert (Hsieve : exists phi pi recs,
            sieve_phi N = Ok phi /\ sieve_pi N = Ok pi
            /\ @stream_prefix_values Exact N phi pi = (recs, None)
            /\ forall i r, nth_error recs i = Some r -> rec_n r = Z.of_nat i + 1).
  { destruct (Z_lt_le_dec N 0) as [Hneg|HN].
    - exists [], [], [].
      assert (Hp : sieve_phi N = Ok []).
      { unfold sieve_phi.
        replace (N >=? 1) with false
          by (symmetry; rewrite Z.geb_leb; apply Z.leb_gt; lia).
        rewrite !py_range_nil by lia. reflexivity. }
      assert (Hq : sieve_pi N = Ok []).
      { unfold sieve_pi, sieve_primes_bool.
        replace (N <? 1) with true by (symmetry; apply Z.ltb_lt; lia).
        rewrite py_range_nil by lia. unfold py_repeat.
        replace (Z.to_nat (N + 1)) with 0%nat by lia. reflexivity. }
      split; [exact Hp|]. split; [exact Hq|]. split.
      + unfold stream_prefix_values. now rewrite py_range_nil by lia.
      + intros [|i] r; discriminate.
    - destruct (sieve_phi_spec N HN) as (phi & Ephi & _).
      destruct (sieve_pi_spec N HN) as (pi & Epi & _).
      assert (Had : adequate N phi pi) by (apply (sieve_adequate N N); auto; lia).
      destruct (stream_spec N phi pi HN Had) as (recs & Es & Hl & Hr).
      exists phi, pi, recs. repeat (split; [assumption|]).
      intros i r Hi.
      assert (Hlt : (i < length recs)%nat) by (apply nth_error_Some; congruence).
      destruct (Hr (Z.of_nat i + 1)) as (x & o & e & _ & _ & _ & Ei);
        [unfold len in Hl; lia|].
      replace (Z.to_nat (Z.of_nat i + 1 - 1)) with i in Ei by lia.
      rewrite Hi in Ei. injection Ei as ->. reflexivity. }
  destruct Hsieve as (phi & pi & recs & Ephi & Epi & Es & Hall).
  pose proof (@consume_spec Exact (need_set points N_ref) D recs None Hall
                recs [] [] [] eq_refl (captured_init _ _ _)) as Hc.
  unfold compute_values. rewrite Em. cbn [bind]. fold N.
  rewrite Ephi, Epi. cbn [bind]. rewrite Es.
  destruct (@consume Exact (need_set points N_ref) D recs None [] [])
    as [[vals Rb]|e] eqn:Ec.
  - destruct Hc as (i & Hcap & _). cbn [bind].
    destruct (dict_get vals N_ref) as [v|] eqn:Ev; [|reflexivity].
    destruct (captured_get _ _ _ _ _ _ _ _ Hcap Ev) as [Hk _]. lia.
  - exfalso. destruct Hc as [Hfin|(k & _ & Hk)]; [discriminate|].
    rewrite triad_tail_bound_eval in Hk. discriminate.
Qed.

Lemma compute_values_errors_witness :
  @compute_values Exact [5] 0 D_omega_default = Raise RuntimeError.
Proof.
  destruct (compute_values_errors [5] 0) as (_ & H).
  destruct (H ltac:(lia)) as (_ & H').
  exact (H' ltac:(discriminate) (@D_omega_default Exact)).
Defined.

(** X8.  What the two dictionaries of [compute_values] hold, in every
    arithmetic, when it returns: every key is an index from 1 on among the
    points and [N_ref]; every such index [p] is a key, [vals[p]] is the record
    the stream yields at [p], whose components are [Xi(p)], [Omega(p)],
    [E(p)] on the tables built for [N] and their balance, and [R[p]] is
    [triad_tail_bound(p, D)]. *)
Theorem compute_values_dictionaries (points : list Z) (N_ref : Z) :
  forall (FO : FloatOps) (D : flt) vals Rb iv,
    compute_values points N_ref D = Ok (vals, Rb, iv) ->
    exists m phi pi,
      py_max points = Ok m
      /\ sieve_phi (Z.max m N_ref) = Ok phi
      /\ sieve_pi (Z.max m N_ref) = Ok pi
      /\ (forall k v, dict_get vals k = Some v ->
            1 <= k /\ (In k points \/ k = N_ref))
      /\ (forall p, (In p points \/ p = N_ref) -> 1 <= p ->
            exists x o e tb,
              Xi p = Ok x /\ Omega p phi pi = Ok o /\ E p = Ok e
              /\ dict_get vals p = Some (x, o, e, fsub (fadd x o) e)
              /\ triad_tail_bound p D = Ok tb
              /\ dict_get Rb p = Some tb).
Proof.
  intros FO D vals Rb iv H.
  destruct (compute_values_inv _ _ _ _ _ _ H)
    as (m & phi & pi & recs & fin & i & Em & Ephi & Epi & Es & Hcap & Hend & _).
  exists m, phi, pi. repeat (split; [assumption|]).
  assert (Hneed : forall k, In k (need_set points N_ref) <-> In k points \/ k = N_ref).
  { intros k. unfold need_set. rewrite nodup_In, in_app_iff. simpl. intuition. }
  set (N := Z.max m N_ref) in *.
  assert (Hm : forall p, In p points -> p <= m).
  { destruct points as [|x l]; [intros p []|].
    cbn in Em. injection Em as <-. clear.
    revert x. induction l as [|y l IH]; intros x p [->|Hp]; cbn.
    - lia.
    - destruct Hp.
    - pose proof (IH (Z.max p y) (Z.max p y) (or_introl eq_refl)). lia.
    - destruct Hp as [->|Hp].
      + pose proof (IH (Z.max x p) (Z.max x p) (or_introl eq_refl)). lia.
      + apply IH. now right. }
  split.
  - intros k v Hv. destruct (captured_get _ _ _ _ _ _ _ _ Hcap Hv) as [Hk _].
    destruct Hcap as (Ha & _). destruct (Ha k (dict_get_In _ _ _ Hv)) as [_ Hin].
    split; [exact Hk | now apply Hneed].
  - intros p Hp Hp1.
    assert (HpN : p <= N) by (destruct Hp as [Hp| ->]; [apply Hm in Hp|]; lia).
    assert (HN : 0 <= N) by lia.
    destruct (stream_records_shape N phi pi HN)
      as (recs0 & fin0 & Es0 & _ & _ & Hfin & Hshape).
    rewrite Es in Es0. injection Es0 as <- <-.
    destruct (captured_key (need_set points N_ref) D recs i vals Rb p
                (need_set_NoDup _ _) (proj2 (Hneed p) Hp) Hp1 Hcap)
      as (r & tb & Er & Ev & Etb & Erb).
    { destruct Hend as [[Hi Hnone]|Hlen]; [left|now right].
      split; [exact Hi|]. apply Hfin in Hnone. lia. }
    pose proof (stream_nth_scalar N phi pi p ltac:(lia)) as Hs.
    rewrite Es in Hs. cbn [fst] in Hs. rewrite Er in Hs.
    destruct Hs as (_ & Hx & Ho & He).
    destruct (Hshape r (nth_error_In _ _ Er)) as (HF & _).
    exists (rec_Xi r), (rec_Omega r), (rec_E r), tb.
    repeat (split; [assumption|]). split; [|split; assumption].
    rewrite Ev. unfold rec_vals. now rewrite HF.
Qed.

Lemma compute_values_dictionaries_witness :
  exists vals Rb iv (x : R),
    @compute_values Exact [2] 1 D_omega_default = Ok (vals, Rb, iv)
    /\ @Xi Exact 2 = Ok x
    /\ exists o e, dict_get vals 2 = Some (x, o, e, (x + o - e)%R).
Proof.
  destruct (compute_values_exact_ok [2] 1 (@D_omega_default Exact)
              ltac:(discriminate) ltac:(lia)) as (vals & Rb & lo & hi & Ec).
  destruct (compute_values_dictionaries [2] 1 Exact _ _ _ _ Ec)
    as (m & phi & pi & _ & _ & _ & _ & Hp).
  destruct (Hp 2 ltac:(left; left; reflexivity) ltac:(lia))
    as (x & o & e & tb & Ex & _ & _ & Ev & _).
  exists vals, Rb, (lo, hi), x. split; [exact Ec|]. split; [exact Ex|].
  exists o, e. exact Ev.
Defined.

(* ===================================================================== *)
(** ** Term tables, running sums and pairwise summation *)

Lemma foldM_ext {A B : Type} (f g : A -> B -> result A) xs a :
  (forall a' x, In x xs -> f a' x = g a' x) -> foldM f xs a = foldM g xs a.
Proof.
  revert a. induction xs as [|x xs IH]; intros a H; simpl; [reflexivity|].
  rewrite (H a x (or_introl eq_refl)). destruct (g a x) as [a1|e]; simpl; [|reflexivity].
  apply IH. intros a' y Hy. apply H. now right.
Qed.

(** The loop [for i in range(a, N + 1): t[i] = g(i)] on [t = [d] * (N + 1)]. *)
Lemma fill_table_loop {A : Type} (d : A) (g : Z -> result A) (a N : Z) :
  0 <= a ->
  forall (n : nat) (b : Z) (t : list A),
    n = Z.to_nat (N + 1 - b) -> a <= b ->
    len t = Z.max 0 (N + 1) ->
    (forall i, 0 <= i <= N -> i < a -> znth d t i = d) ->
    (forall i, a <= i < b -> g i = Ok (znth d t i)) ->
    table_of d a N g
      (foldM (fun t i => v <- g i ;; setitem t i v) (py_range b (N + 1)) t).
Proof.
  intros Ha. induction n as [|n IH]; intros b t En Hb Hl Hlow Hdone.
  - rewrite py_range_nil by lia. cbn [foldM table_of].
    split; [exact Hl|]. split; [exact Hlow|]. intros i Hi. apply Hdone. lia.
  - rewrite py_range_cons by lia. cbn [foldM].
    destruct (g b) as [v|e] eqn:Eg; cbn [bind].
    + rewrite setitem_ok by lia. cbn [bind].
      apply IH; [lia | lia | now rewrite len_upd | |].
      * intros i Hi Hia. rewrite znth_upd_other by lia. now apply Hlow.
      * intros i Hi. destruct (Z.eq_dec i b) as [->|Hne].
        -- now rewrite znth_upd_same by lia.
        -- rewrite znth_upd_other by lia. apply Hdone. lia.
    + cbn [table_of]. exists b. split; [lia|]. split; [exact Eg|].
      intros j Hj. rewrite (Hdone j Hj). eauto.
Qed.

Lemma fill_table_spec {A : Type} (d : A) (g : Z -> result A) (a N : Z) :
  0 <= a ->
  table_of d a N g
    (foldM (fun t i => v <- g i ;; setitem t i v)
           (py_range a (N + 1)) (py_repeat d (N + 1))).
Proof.
  intros Ha. apply (fill_table_loop d g a N Ha (Z.to_nat (N + 1 - a)) a);
    [reflexivity | lia | | |].
  - unfold len, py_repeat. rewrite repeat_length. lia.
  - intros i Hi _. apply znth_repeat. lia.
  - intros i Hi. lia.
Qed.

(** A table whose terms never raise is returned. *)
Lemma table_of_ok {A : Type} (d : A) (a N : Z) (g : Z -> result A) res :
  table_of d a N g res ->
  (forall i, a <= i <= N -> exists v, g i = Ok v) ->
  exists t, res = Ok t.
Proof.
  intros H Hg. destruct res as [t|e]; [eauto|].
  destruct H as (i & Hi & Ei & _). destruct (Hg i Hi) as (v & Ev). congruence.
Qed.

Section TablesMore.
Context {FO : FloatOps}.

(** The term of [Omega_terms] at [i]. *)
Lemma Omega_terms_body phi pi (t : list flt) i :
  (phi_i <- getitem phi i ;;
   pi_i <- getitem pi i ;;
   d <- of_int (i * (phi_i + pi_i)) ;;
   v <- fdiv (lit 1 0) d ;;
   setitem t i v)
  = (v <- (phi_i <- getitem phi i ;;
           pi_i <- getitem pi i ;;
           omega_term i phi_i pi_i) ;;
     setitem t i v).
Proof.
  unfold omega_term.
  destruct (getitem phi i); cbn [bind]; [|reflexivity].
  destruct (getitem pi i); cbn [bind]; [|reflexivity].
  destruct (of_int _); cbn [bind]; reflexivity.
Qed.

Lemma Xi_terms_table N : table_of (lit 0 0) 3 N xi_term (Xi_terms N).
Proof.
  unfold Xi_terms. cbv zeta.
  erewrite foldM_ext; [apply (fill_table_spec (lit 0 0) xi_term 3 N); lia|].
  intros t i _. unfold xi_term. cbv zeta.
  destruct (of_int i); cbn [bind]; [|reflexivity].
  destruct (of_int (i * i)); cbn [bind]; reflexivity.
Qed.

Lemma E_terms_table N : table_of (lit 0 0) 2 N e_term (E_terms N).
Proof.
  unfold E_terms. cbv zeta.
  erewrite foldM_ext; [apply (fill_table_spec (lit 0 0) e_term 2 N); lia|].
  intros t i _. unfold e_term.
  destruct (flog2_int i); cbn [bind]; [|reflexivity].
  destruct (of_int (i * i)); cbn [bind]; reflexivity.
Qed.

Lemma Omega_terms_table N phi pi :
  table_of (lit 0 0) 2 N
    (fun i => phi_i <- getitem phi i ;;
              pi_i <- getitem pi i ;;
              omega_term i phi_i pi_i)
    (Omega_terms N phi pi).
Proof.
  unfold Omega_terms. cbv zeta.
  erewrite foldM_ext; [apply fill_table_spec; lia|].
  intros t i _. apply Omega_terms_body.
Qed.

(** The loop of [triad_full.Omega_terms] is the loop of [Omega_terms] with a
    test before each term. *)
Lemma Omega_terms_full_loop phi pi xs : forall (t t' : list flt),
  foldM (fun t i =>
           phi_i <- getitem phi i ;;
           pi_i <- getitem pi i ;;
           let denom := phi_i + pi_i in
           if denom <=? 0 then Raise ArithmeticError
           else
             d <- of_int (i * denom) ;;
             v <- fdiv (lit 1 0) d ;;
             setitem t i v) xs t = Ok t' ->
  foldM (fun t i =>
           phi_i <- getitem phi i ;;
           pi_i <- getitem pi i ;;
           d <- of_int (i * (phi_i + pi_i)) ;;
           v <- fdiv (lit 1 0) d ;;
           setitem t i v) xs t = Ok t'
  /\ forall i, In i xs ->
       exists p q, getitem phi i = Ok p /\ getitem pi i = Ok q /\ 0 < p + q.
Proof.
  induction xs as [|x xs IH]; intros t t' H; cbn [foldM] in *.
  - split; [exact H | intros i []].
  - destruct (getitem phi x) as [p|] eqn:Ep; cbn [bind] in *; [|discriminate].
    destruct (getitem pi x) as [q|] eqn:Eq; cbn [bind] in *; [|discriminate].
    cbv zeta in H. destruct (p + q <=? 0) eqn:Ed; [discriminate|].
    apply Z.leb_gt in Ed.
    destruct (of_int (x * (p + q))) as [d|]; cbn [bind] in *; [|discriminate].
    destruct (fdiv (lit 1 0) d) as [v|]; cbn [bind] in *; [|discriminate].
    destruct (setitem t x v) as [t1|]; cbn [bind] in *; [|discriminate].
    destruct (IH t1 t' H) as [H1 H2]. split; [exact H1|].
    intros i [<-|Hi]; [exists p, q; auto | now apply H2].
Qed.

(** The loop of [kahan_prefix_sum] from position [length pre] on, with the
    local variables [s], [c] those of a [Kahan] instance. *)
Lemma kahan_prefix_loop : forall (suf pre : list flt) (k : Kahan.t) (out : list flt),
  length out = (length pre + length suf)%nat ->
  k = Kahan_adds Kahan.new pre ->
  (forall i, (i < length pre)%nat ->
     nth_error out i
     = Some (Kahan.value (Kahan_adds Kahan.new (firstn (S i) pre)))) ->
  exists s' c' out',
    foldM (fun '(s, c, out) '(i, x) =>
             let y := fsub x c in
             let t := fadd s y in
             let c := fsub (fsub t s) y in
             let s := t in
             out <- setitem out i s ;;
             Ok (s, c, out))
          (combine (py_range (len pre) (len pre + len suf)) suf)
          (Kahan.s k, Kahan.c k, out)
    = Ok (s', c', out')
    /\ length out' = length out
    /\ Kahan.mk s' c' = Kahan_adds Kahan.new (pre ++ suf)
    /\ forall i, (i < length pre + length suf)%nat ->
         nth_error out' i
         = Some (Kahan.value (Kahan_adds Kahan.new (firstn (S i) (pre ++ suf)))).
Proof.
  induction suf as [|x suf IH]; intros pre k out Hl Hk Hout.
  - rewrite py_range_nil by (unfold len; simpl; lia). cbn [combine foldM].
    exists (Kahan.s k), (Kahan.c k), out. split; [reflexivity|].
    split; [reflexivity|]. rewrite app_nil_r. split; [rewrite <- Hk; now destruct k|].
    intros i Hi. simpl in Hi. apply Hout. lia.
  - rewrite py_range_cons by (unfold len; simpl length; lia).
    cbn [combine foldM]. cbv zeta.
    rewrite setitem_ok by (unfold len; simpl length in Hl; lia). cbn [bind].
    set (k' := Kahan.add k x).
    assert (Hk' : k' = Kahan_adds Kahan.new (pre ++ [x])).
    { unfold k', Kahan_adds. rewrite fold_left_app. simpl. now rewrite Hk. }
    replace (Z.to_nat (len pre)) with (length pre) by (unfold len; lia).
    destruct (IH (pre ++ [x]) k' (upd out (length pre)
                 (fadd (Kahan.s k) (fsub x (Kahan.c k)))))
      as (s' & c' & out' & E & Hl' & Hk'' & Hout').
    + rewrite upd_length, length_app. simpl length in *. lia.
    + exact Hk'.
    + intros i Hi. rewrite length_app in Hi. simpl in Hi.
      destruct (Nat.eq_dec i (length pre)) as [->|Hne].
      * rewrite nth_error_upd_same by (simpl length in Hl; lia).
        rewrite firstn_all2 by (rewrite length_app; simpl; lia).
        rewrite <- Hk'. reflexivity.
      * rewrite nth_error_upd_other by exact Hne.
        rewrite Hout by lia. rewrite firstn_app.
        replace (S i - length pre)%nat with 0%nat by lia.
        now rewrite firstn_O, app_nil_r.
    + replace (len (pre ++ [x])) with (len pre + 1) in E
        by (unfold len; rewrite length_app; simpl; lia).
      replace (len pre + 1 + len suf) with (len pre + len (x :: suf)) in E
        by (unfold len; simpl length; lia).
      exists s', c', out'. split; [exact E|].
      rewrite <- app_assoc in Hk'', Hout'. simpl app in Hk'', Hout'.
      split; [now rewrite Hl', upd_length|]. split; [exact Hk''|].
      intros i Hi. apply Hout'. rewrite length_app. simpl length in *. lia.
Qed.

Lemma kahan_prefix_sum_loop (arr : list flt) :
  exists out,
    triad_full.kahan_prefix_sum arr = Ok out
    /\ length out = length arr
    /\ forall i, (i < length arr)%nat ->
         nth_error out i
         = Some (Kahan.value (Kahan_adds Kahan.new (firstn (S i) arr))).
Proof.
  unfold triad_full.kahan_prefix_sum. cbv zeta.
  destruct (kahan_prefix_loop arr [] Kahan.new (py_repeat (lit 0 0) (len arr)))
    as (s' & c' & out' & E & Hl & _ & Hout).
  - unfold py_repeat, len. rewrite repeat_length. simpl. lia.
  - reflexivity.
  - intros i Hi. simpl in Hi. lia.
  - change (len []) with 0 in E. rewrite Z.add_0_l in E.
    change (Kahan.s Kahan.new) with (lit 0 0) in E.
    change (Kahan.c Kahan.new) with (lit 0 0) in E.
    cbv zeta in E. rewrite E. cbn [bind]. exists out'. split; [reflexivity|].
    split.
    + rewrite Hl. unfold py_repeat, len. rewrite repeat_length. lia.
    + intros i Hi. apply (Hout i). simpl. exact Hi.
Qed.

End TablesMore.

Lemma Rsum_app (a b : list R) : Rsum (a ++ b) = (Rsum a + Rsum b)%R.
Proof.
  induction a as [|x a IH]; simpl; [lra|]. rewrite IH. lra.
Qed.

Ltac to_real := change (@flt Exact) with R in *.

Section ExactSums.
#[local] Existing Instance Exact.

Lemma Kahan_value_exact (xs : list R) :
  Kahan.value (Kahan_adds Kahan.new xs) = Rsum xs.
Proof.
  rewrite Kahan_new_exact.
  destruct (Kahan_adds_from (@Kahan.mk Exact 0%R 0%R) xs eq_refl) as [_ Hv].
  rewrite Hv. cbn. apply Rplus_0_l.
Qed.

Lemma pairwise_sum_Rsum (a : list (@flt Exact)) : pairwise_sum a = Rsum a.
Proof.
  remember (length a) as n eqn:En. revert a En.
  induction n as [n IH] using lt_wf_ind. intros a En.
  destruct a as [|x [|y l]].
  - rewrite pairwise_sum_equation_1. cbn [lit Exact]. rewrite Rlit_int. reflexivity.
  - rewrite pairwise_sum_equation_2. simpl. to_real. lra.
  - rewrite pairwise_sum_equation_3. cbv zeta.
    set (a := x :: y :: l) in *. set (mid := Nat.div (length a) 2).
    assert (Hmid : (0 < mid < length a)%nat).
    { unfold mid. split.
      - apply Nat.div_str_pos. unfold a. simpl. lia.
      - apply Nat.div_lt; unfold a; simpl; lia. }
    rewrite (IH (length (firstn mid a))) by (rewrite ?length_firstn; lia || reflexivity).
    rewrite (IH (length (skipn mid a))) by (rewrite ?length_skipn; lia || reflexivity).
    cbn [fadd Exact]. rewrite <- Rsum_app. now rewrite firstn_skipn.
Qed.

Lemma exact_terms_ok i :
  ((3 <= i)%Z -> exists v, xi_term i = Ok v)
  /\ ((2 <= i)%Z -> exists v, e_term i = Ok v).
Proof.
  split; intros Hi.
  - rewrite xi_term_ok by lia. eauto.
  - rewrite e_term_ok by lia. eauto.
Qed.

End ExactSums.

(** X9.  [kahan_prefix_sum] of [scripts/triad_full.py] never raises and
    returns a list as long as its input; in every arithmetic entry [i] is the
    value of a [Kahan] accumulator after [add] of the first [i + 1] inputs,
    and in exact arithmetic it is their sum. *)
Theorem kahan_prefix_sum_spec :
  (forall (FO : FloatOps) (arr : list flt),
     exists out,
       triad_full.kahan_prefix_sum arr = Ok out
       /\ length out = length arr
       /\ forall i, (i < length arr)%nat ->
            nth_error out i
            = Some (Kahan.value (Kahan_adds Kahan.new (firstn (S i) arr))))
  /\ (forall arr : list R,
        exists out,
          @triad_full.kahan_prefix_sum Exact arr = Ok out
          /\ forall i, (i < length arr)%nat ->
               nth_error out i = Some (Rsum (firstn (S i) arr))).
Proof.
  split.
  - intros FO arr. apply kahan_prefix_sum_loop.
  - intros arr.
    destruct (@kahan_prefix_sum_loop Exact arr) as (out & E & _ & H).
    exists out. split; [exact E|]. intros i Hi.
    rewrite (H i Hi). f_equal. apply Kahan_value_exact.
Qed.

(** X10.  In exact arithmetic [pairwise_sum] returns the sum of its list,
    which is also what a [Kahan] accumulator fed the same list returns. *)
Theorem pairwise_sum_exact (a : list R) :
  @pairwise_sum Exact a = Rsum a
  /\ @pairwise_sum Exact a = Kahan.value (@Kahan_adds Exact Kahan.new a).
Proof.
  split; [apply pairwise_sum_Rsum|].
  rewrite Kahan_value_exact. apply pairwise_sum_Rsum.
Qed.

(** X11.  The term tables of [src/triad.py], in every arithmetic:
    [Xi_terms N], [E_terms N] and [Omega_terms N phi pi] return a table of
    length [N + 1] ([0] for [N < 0]) holding [0.0] below the start index and
    [xi_term i], [e_term i], [omega_term i phi[i] pi[i]] from it on, or raise
    the exception of the first term that raises.  In exact arithmetic the
    first two always return, and the third returns on adequate tables. *)
Theorem term_tables_spec (N : Z) (phi pi : list Z) :
  (forall FO : FloatOps,
     table_of (lit 0 0) 3 N xi_term (Xi_terms N)
     /\ table_of (lit 0 0) 2 N e_term (E_terms N)
     /\ table_of (lit 0 0) 2 N
          (fun i => phi_i <- getitem phi i ;;
                    pi_i <- getitem pi i ;;
                    omega_term i phi_i pi_i)
          (Omega_terms N phi pi))
  /\ (exists tx te, @Xi_terms Exact N = Ok tx /\ @E_terms Exact N = Ok te)
  /\ (adequate N phi pi -> exists t, @Omega_terms Exact N phi pi = Ok t).
Proof.
  split; [|split].
  - intros FO. split; [apply Xi_terms_table|].
    split; [apply E_terms_table | apply Omega_terms_table].
  - destruct (table_of_ok _ _ _ _ _ (@Xi_terms_table Exact N)) as (tx & Ex).
    { intros i Hi. apply exact_terms_ok. lia. }
    destruct (table_of_ok _ _ _ _ _ (@E_terms_table Exact N)) as (te & Ee).
    { intros i Hi. apply exact_terms_ok. lia. }
    eauto.
  - intros (Hlphi & Hlpi & Hden).
    apply (table_of_ok _ _ _ _ _ (@Omega_terms_table Exact N phi pi)).
    intros i Hi. rewrite !(getitem_ok 0) by lia. cbn [bind].
    rewrite omega_term_ok by (try apply Hden; lia). eauto.
Qed.

(** X12.  [Omega_terms] of [scripts/triad_full.py] validates what the one of
    [src/triad.py] does not.  In every arithmetic it raises [ValueError] on
    tables shorter than [N + 1], and when it returns a table, every
    denominator [phi[i] + pi[i]] is positive and [Omega_terms] of
    [src/triad.py] returns the same table.  In exact arithmetic, on tables
    long enough, it returns when every denominator is positive and raises
    [ArithmeticError] when one is not. *)
Theorem Omega_terms_validated (N : Z) (phi pi : list Z) :
  (forall FO : FloatOps,
     (len phi < N + 1 \/ len pi < N + 1 ->
      triad_full.Omega_terms N phi pi = Raise ValueError)
     /\ forall t, triad_full.Omega_terms N phi pi = Ok t ->
          Omega_terms N phi pi = Ok t
          /\ forall i, 2 <= i <= N -> 0 < znth 0 phi i + znth 0 pi i)
  /\ (N + 1 <= len phi -> N + 1 <= len pi ->
      ((forall i, 2 <= i <= N -> 0 < znth 0 phi i + znth 0 pi i) ->
       exists t, @triad_full.Omega_terms Exact N phi pi = Ok t)
      /\ ((exists i, 2 <= i <= N /\ znth 0 phi i + znth 0 pi i <= 0) ->
          @triad_full.Omega_terms Exact N phi pi = Raise ArithmeticError)).
Proof.
  split.
  - intros FO. split.
    + intros Hshort. unfold triad_full.Omega_terms.
      replace ((len phi <? N + 1) || (len pi <? N + 1)) with true; [reflexivity|].
      symmetry. apply orb_true_iff.
      destruct Hshort; [left | right]; now apply Z.ltb_lt.
    + intros t Ht. unfold triad_full.Omega_terms in Ht.
      destruct ((len phi <? N + 1) || (len pi <? N + 1)) eqn:Elen; [discriminate|].
      apply orb_false_iff in Elen. destruct Elen as [E1 E2].
      apply Z.ltb_ge in E1, E2. cbv zeta in Ht.
      destruct (Omega_terms_full_loop phi pi _ _ _ Ht) as [H1 H2].
      split; [exact H1|].
      intros i Hi. destruct (H2 i) as (p & q & Ep & Eq & Hpq);
        [apply py_range_In; lia|].
      rewrite (getitem_ok 0) in Ep, Eq by lia. congruence.
  - intros Hlphi Hlpi.
    set (g := fun i : Z =>
                phi_i <- getitem phi i ;;
                pi_i <- getitem pi i ;;
                (if phi_i + pi_i <=? 0 then Raise ArithmeticError
                 else d <- @of_int Exact (i * (phi_i + pi_i)) ;;
                      @fdiv Exact (@lit Exact 1 0) d)).
    assert (Hg : forall i, 2 <= i <= N ->
              (0 < znth 0 phi i + znth 0 pi i -> exists v, g i = Ok v)
              /\ (znth 0 phi i + znth 0 pi i <= 0 -> g i = Raise ArithmeticError)).
    { intros i Hi. unfold g. rewrite !(getitem_ok 0) by lia. cbn [bind].
      split; intros Hd.
      - replace (_ <=? 0) with false by (symmetry; apply Z.leb_gt; lia).
        cbn [of_int Exact bind]. rewrite fdiv_ok; [eauto|].
        apply not_0_IZR. nia.
      - now replace (_ <=? 0) with true by (symmetry; apply Z.leb_le; lia). }
    assert (Htab : table_of (@lit Exact 0 0) 2 N g
                     (@triad_full.Omega_terms Exact N phi pi)).
    { unfold triad_full.Omega_terms.
      replace ((len phi <? N + 1) || (len pi <? N + 1)) with false
        by (symmetry; apply orb_false_iff; split; apply Z.ltb_ge; lia).
      cbv zeta.
      erewrite foldM_ext; [apply (fill_table_spec (@lit Exact 0 0) g 2 N); lia|].
      intros t i _. unfold g.
      destruct (getitem phi i); cbn [bind]; [|reflexivity].
      destruct (getitem pi i); cbn [bind]; [|reflexivity].
      destruct (_ <=? 0); [reflexivity|].
      destruct (of_int _); cbn [bind]; reflexivity. }
    split.
    + intros Hpos. apply (table_of_ok _ _ _ _ _ Htab).
      intros i Hi. apply Hg; auto.
    + intros (i & Hi & Hbad).
      destruct (@triad_full.Omega_terms Exact N phi pi) as [t|e].
      * destruct Htab as (_ & _ & Ht). specialize (Ht i Hi).
        rewrite (proj2 (Hg i Hi) Hbad) in Ht. discriminate.
      * destruct Htab as (j & Hj & Ej & _).
        destruct (Z_lt_le_dec 0 (znth 0 phi j + znth 0 pi j)) as [Hp|Hn].
        -- destruct (proj1 (Hg j Hj) Hp) as (v & Ev). congruence.
        -- rewrite (proj2 (Hg j Hj) Hn) in Ej. congruence.
Qed.

Lemma Omega_terms_validated_witness :
  @triad_full.Omega_terms Exact 2 [0; 1; -1] [0; 0; 0] = Raise ArithmeticError.
Proof.
  destruct (Omega_terms_validated 2 [0; 1; -1] [0; 0; 0]) as (_ & H).
  destruct (H ltac:(vm_compute; discriminate) ltac:(vm_compute; discriminate))
    as (_ & Hbad).
  apply Hbad. exists 2. split; [lia|]. vm_compute. discriminate.
Defined.

(* ===================================================================== *)
(** ** The scalar evaluators and the tail bounds, in exact arithmetic *)

Section ExactSeries.
#[local] Existing Instance Exact.

(** A loop that adds the terms [g i] to a [Kahan] accumulator. *)
Lemma Kahan_loop_terms (g : Z -> result R) (v : Z -> R) xs (k : Kahan.t) :
  (forall i, In i xs -> g i = Ok (v i)) ->
  foldM (fun acc i => t <- g i ;; Ok (Kahan.add acc t)) xs k
  = Ok (Kahan_adds k (map v xs)).
Proof.
  revert k. induction xs as [|x xs IH]; intros k H; cbn [foldM map].
  - reflexivity.
  - rewrite (H x (or_introl eq_refl)). cbn [bind].
    rewrite IH by (intros i Hi; apply H; now right). reflexivity.
Qed.

Lemma Xi_exact n : Xi n = Ok (Rsum (map R_xi_term (py_range 3 (n + 1)))).
Proof.
  rewrite Xi_accum. unfold xi_accum.
  rewrite (Kahan_loop_terms (@xi_term Exact) R_xi_term).
  - cbn [bind]. now rewrite Kahan_value_exact.
  - intros i Hi. apply py_range_In in Hi. now rewrite xi_term_ok by lia.
Qed.

Lemma E_exact n : E n = Ok (Rsum (map R_e_term (py_range 2 (n + 1)))).
Proof.
  rewrite E_accum. unfold e_accum.
  rewrite (Kahan_loop_terms (@e_term Exact) R_e_term).
  - cbn [bind]. now rewrite Kahan_value_exact.
  - intros i Hi. apply py_range_In in Hi. now rewrite e_term_ok by lia.
Qed.

Lemma Omega_exact N n phi pi :
  adequate N phi pi -> (n <= N)%Z ->
  Omega n phi pi = Ok (Rsum (map (R_omega_term phi pi) (py_range 2 (n + 1)))).
Proof.
  intros (Hlphi & Hlpi & Hden) Hn. rewrite Omega_accum. unfold om_accum.
  rewrite (foldM_ext _
             (fun acc i =>
                t <- (phi_i <- getitem phi i ;;
                      pi_i <- getitem pi i ;;
                      @omega_term Exact i phi_i pi_i) ;;
                Ok (Kahan.add acc t))).
  2: { intros a i _. destruct (getitem phi i); cbn [bind]; [|reflexivity].
       destruct (getitem pi i); reflexivity. }
  rewrite (Kahan_loop_terms
             (fun i => phi_i <- getitem phi i ;;
                       pi_i <- getitem pi i ;;
                       @omega_term Exact i phi_i pi_i)
             (R_omega_term phi pi)).
  - cbn [bind]. now rewrite Kahan_value_exact.
  - intros i Hi. apply py_range_In in Hi.
    rewrite !(getitem_ok 0%Z) by lia. cbn [bind].
    rewrite omega_term_ok by (try apply Hden; lia). reflexivity.
Qed.

End ExactSeries.

Lemma Rsum_nonneg (f : Z -> R) xs :
  (forall i, In i xs -> (0 <= f i)%R) -> (0 <= Rsum (map f xs))%R.
Proof.
  induction xs as [|x xs IH]; intros H; simpl; [lra|].
  pose proof (H x (or_introl eq_refl)).
  pose proof (IH (fun i Hi => H i (or_intror Hi))). lra.
Qed.

(** A sum whose terms are below the decrements of [G] telescopes. *)
Lemma Rsum_telescope (f G : Z -> R) (a : Z) (n : nat) :
  (forall i, a <= i < a + Z.of_nat n -> (f i <= G (i - 1)%Z - G i)%R) ->
  (Rsum (map f (py_range a (a + Z.of_nat n)))
   <= G (a - 1)%Z - G (a + Z.of_nat n - 1)%Z)%R.
Proof.
  induction n as [|n IH]; intros H.
  - rewrite py_range_nil by lia. simpl. rewrite Z.add_0_r. lra.
  - replace (a + Z.of_nat (S n)) with (a + Z.of_nat n + 1) in * by lia.
    rewrite py_range_snoc by lia. rewrite map_app, Rsum_app. simpl.
    pose proof (IH (fun i Hi => H i ltac:(lia))) as H1.
    pose proof (H (a + Z.of_nat n) ltac:(lia)) as H2.
    replace (a + Z.of_nat n + 1 - 1) with (a + Z.of_nat n) by lia. lra.
Qed.

Lemma Rsum_range_split (f : Z -> R) a b c :
  a <= b <= c ->
  (Rsum (map f (py_range a c)) - Rsum (map f (py_range a b))
   = Rsum (map f (py_range b c)))%R.
Proof.
  intros H. rewrite (py_range_app a b c H), map_app, Rsum_app. lra.
Qed.

Lemma R_xi_term_pos i : 2 <= i -> (0 < R_xi_term i)%R.
Proof.
  intros Hi. unfold R_xi_term.
  assert (0 < IZR (i * i))%R by (apply IZR_sq_pos; lia).
  assert (2 <= IZR i)%R by (apply (IZR_le 2); lia).
  apply Rdiv_lt_0_compat; [lra|]. apply Rmult_lt_0_compat; lra.
Qed.

(** [2 / (i^2 (i - 1)) <= 1 / (i - 1)^2 - 1 / i^2] *)
Lemma R_xi_term_decrement i :
  2 <= i ->
  (R_xi_term i <= 1 / (IZR (i - 1)) ^ 2 - 1 / (IZR i) ^ 2)%R.
Proof.
  intros Hi. unfold R_xi_term. rewrite mult_IZR, minus_IZR.
  assert (H2 : (2 <= IZR i)%R) by (apply (IZR_le 2); lia).
  set (x := IZR i) in *.
  replace (1 / (x - 1) ^ 2 - 1 / x ^ 2)%R
    with ((2 * x - 1) / (x * x * ((x - 1) * (x - 1))))%R
    by (field; lra).
  replace (2 / (x * x * (x - 1)))%R
    with ((2 * (x - 1)) / (x * x * ((x - 1) * (x - 1))))%R
    by (field; lra).
  apply Rmult_le_compat_r; [|lra].
  apply Rlt_le, Rinv_0_lt_compat.
  repeat apply Rmult_lt_0_compat; lra.
Qed.

(** Bounds on [exp] by powers of the bounds [1 + x <= exp x <= 1 / (1 - x)]. *)
Lemma exp_upper x : (0 <= x < 1)%R -> (exp x <= 1 / (1 - x))%R.
Proof.
  intros Hx. pose proof (exp_ineq1_le (- x)) as H.
  pose proof (exp_pos x) as Hp. rewrite exp_Ropp in H.
  apply (Rmult_le_reg_r (1 - x)); [lra|].
  replace (1 / (1 - x) * (1 - x))%R with 1%R by (field; lra).
  apply (Rmult_le_reg_r (/ exp x)); [now apply Rinv_0_lt_compat|].
  replace (exp x * (1 - x) * / exp x)%R with (1 - x)%R by (field; lra).
  lra.
Qed.

Lemma ln_le_mono x y : (0 < x)%R -> (x <= y)%R -> (ln x <= ln y)%R.
Proof.
  intros Hx [Hlt| ->]; [|lra]. apply Rlt_le, ln_increasing; assumption.
Qed.

Lemma ln_3_2 : (ln (3 / 2) <= 4 / 9)%R.
Proof.
  rewrite <- (ln_exp (4 / 9)). apply ln_le_mono; [lra|].
  replace (4 / 9)%R with (4 / 27 + (4 / 27 + 4 / 27))%R by lra.
  rewrite !exp_plus.
  pose proof (exp_ineq1_le (4 / 27)) as H. set (e := exp (4 / 27)) in *.
  assert (H1 : (31 / 27 * (31 / 27) <= e * e)%R)
    by (apply Rmult_le_compat; lra).
  assert (H2 : (31 / 27 * (31 / 27 * (31 / 27)) <= e * (e * e))%R)
    by (apply Rmult_le_compat; lra).
  lra.
Qed.

Lemma ln_4_3 : (ln (4 / 3) <= 5 / 16)%R.
Proof.
  rewrite <- (ln_exp (5 / 16)). apply ln_le_mono; [lra|].
  replace (5 / 16)%R with (5 / 32 + 5 / 32)%R by lra.
  rewrite exp_plus.
  pose proof (exp_ineq1_le (5 / 32)) as H. set (e := exp (5 / 32)) in *.
  assert (H1 : (37 / 32 * (37 / 32) <= e * e)%R)
    by (apply Rmult_le_compat; lra).
  lra.
Qed.

Lemma ln_5 : (5 / 4 <= ln 5)%R.
Proof.
  rewrite <- (ln_exp (5 / 4)). apply ln_le_mono; [apply exp_pos|].
  replace (5 / 4)%R with ((5 / 16 + 5 / 16) + (5 / 16 + 5 / 16))%R by lra.
  rewrite !exp_plus.
  pose proof (exp_upper (5 / 16) ltac:(lra)) as H.
  pose proof (exp_pos (5 / 16)) as Hp.
  replace (1 / (1 - 5 / 16))%R with (16 / 11)%R in H by lra.
  set (e := exp (5 / 16)) in *.
  assert (H1 : (e * e <= 16 / 11 * (16 / 11))%R)
    by (apply Rmult_le_compat; lra).
  assert (H0 : (0 <= e * e)%R) by (apply Rmult_le_pos; lra).
  assert (H2 : (e * e * (e * e) <= 16 / 11 * (16 / 11) * (16 / 11 * (16 / 11)))%R)
    by (apply Rmult_le_compat; lra).
  lra.
Qed.

(** [x^2 (ln x - ln (x - 1)) <= x + ln x] at the integers from 3 on. *)
Lemma ln_step_bound i :
  3 <= i ->
  (IZR i * IZR i * (ln (IZR i) - ln (IZR i - 1)) <= IZR i + ln (IZR i))%R.
Proof.
  intros Hi.
  assert (Hx : (3 <= IZR i)%R) by (apply (IZR_le 3); lia).
  pose proof (ln_ge1 _ Hx) as Hl.
  assert (Hd : (ln (IZR i) - ln (IZR i - 1) = ln (IZR i / (IZR i - 1)))%R).
  { unfold Rdiv. rewrite ln_mult; [|lra|apply Rinv_0_lt_compat; lra].
    rewrite ln_Rinv by lra. lra. }
  destruct (Z.eq_dec i 3) as [->|H3].
  - rewrite Hd. replace (3 / (3 - 1))%R with (3 / 2)%R by lra.
    pose proof ln_3_2. lra.
  - destruct (Z.eq_dec i 4) as [->|H4].
    + rewrite Hd. replace (4 / (4 - 1))%R with (4 / 3)%R by lra.
      pose proof ln_4_3. lra.
    + assert (H5 : (5 <= IZR i)%R) by (apply (IZR_le 5); lia).
      set (x := IZR i) in *.
      assert (Hln : (5 / 4 <= ln x)%R).
      { pose proof ln_5. apply Rle_trans with (ln 5); [assumption|].
        apply ln_le_mono; lra. }
      pose proof (ln_le_sub1 (x / (x - 1)) ltac:(apply Rdiv_lt_0_compat; lra)) as Hs.
      rewrite Hd.
      assert (Hy : (x / (x - 1) - 1 = 1 / (x - 1))%R) by (field; lra).
      assert (Hy4 : (1 / (x - 1) <= 1 / 4)%R).
      { unfold Rdiv. rewrite !Rmult_1_l. apply Rinv_le_contravar; lra. }
      assert (Hxx : (x * x * (1 / (x - 1)) = x + 1 + 1 / (x - 1))%R) by (field; lra).
      assert (Hm : (x * x * ln (x / (x - 1)) <= x * x * (1 / (x - 1)))%R).
      { apply Rmult_le_compat_l; [nra | lra]. }
      lra.
Qed.

(** [log2(i) / i^2 <= R_E(i - 1) - R_E(i)] at the integers from 3 on. *)
Lemma R_e_term_decrement i :
  3 <= i -> (R_e_term i <= R_E (i - 1) - R_E i)%R.
Proof.
  intros Hi. unfold R_e_term, R_E. rewrite mult_IZR, minus_IZR.
  assert (Hx : (3 <= IZR i)%R) by (apply (IZR_le 3); lia).
  pose proof (ln_step_bound i Hi) as Hk.
  pose proof ln2_pos as H2.
  set (x := IZR i) in *. set (a := ln x) in *. set (b := ln (x - 1)) in *.
  replace ((b + 1) / ((x - 1) * ln 2) - (a + 1) / (x * ln 2))%R
    with ((x * x * (b + 1) - x * (x - 1) * (a + 1))
          / (x * x * (x - 1) * ln 2))%R by (field; lra).
  replace (a / ln 2 / (x * x))%R
    with (((x - 1) * a) / (x * x * (x - 1) * ln 2))%R by (field; lra).
  apply Rmult_le_compat_r.
  - apply Rlt_le, Rinv_0_lt_compat. repeat apply Rmult_lt_0_compat; lra.
  - nra.
Qed.

Lemma R_e_term_nonneg i : 2 <= i -> (0 <= R_e_term i)%R.
Proof.
  intros Hi. unfold R_e_term.
  assert (Hx : (2 <= IZR i)%R) by (apply (IZR_le 2); lia).
  pose proof (ln_pos (IZR i) ltac:(lra)). pose proof ln2_pos.
  assert (0 < IZR (i * i))%R by (apply IZR_sq_pos; lia).
  apply Rlt_le. repeat apply Rdiv_lt_0_compat; assumption.
Qed.

(** The sum of the terms from [n + 1] to [M] is at most [G n], for a
    positive [G] whose decrements bound the terms. *)
Lemma Rsum_tail_le (f G : Z -> R) (n M : Z) :
  n <= M ->
  (forall i, n < i <= M -> (f i <= G (i - 1)%Z - G i)%R) ->
  (0 <= G M)%R ->
  (Rsum (map f (py_range (n + 1) (M + 1))) <= G n)%R.
Proof.
  intros HnM Hf HG.
  pose proof (Rsum_telescope f G (n + 1) (Z.to_nat (M - n))) as H.
  replace (n + 1 + Z.of_nat (Z.to_nat (M - n))) with (M + 1) in H by lia.
  replace (n + 1 - 1) with n in H by lia.
  replace (M + 1 - 1) with M in H by lia.
  specialize (H (fun i Hi => Hf i ltac:(lia))). lra.
Qed.

(** X13.  The tail bounds certify the first two series, in exact
    arithmetic: for [2 <= n <= M], what [Xi] gains from [n] to [M] lies
    between 0 and [xi_tail_bound(n)], and what [E] gains lies between 0 and
    [e_tail_bound(n)]. *)
Theorem tail_bounds_certify (n M : Z) (Hn : 2 <= n) (HnM : n <= M) :
  exists xM xn eM en rx re : R,
    @Xi Exact M = Ok xM /\ @Xi Exact n = Ok xn
    /\ @E Exact M = Ok eM /\ @E Exact n = Ok en
    /\ @xi_tail_bound Exact n = Ok rx /\ @e_tail_bound Exact n = Ok re
    /\ (0 <= xM - xn <= rx)%R
    /\ (0 <= eM - en <= re)%R.
Proof.
  do 6 eexists.
  split; [apply Xi_exact|]. split; [apply Xi_exact|].
  split; [apply E_exact|]. split; [apply E_exact|].
  split; [apply xi_tail_bound_eval|]. split; [apply e_tail_bound_eval|].
  replace (Z.max n 2) with n by lia.
  rewrite (Rsum_range_split R_xi_term 3 (n + 1) (M + 1)) by lia.
  rewrite (Rsum_range_split R_e_term 2 (n + 1) (M + 1)) by lia.
  assert (Hx2 : (2 <= IZR n)%R) by (apply (IZR_le 2); lia).
  assert (HM2 : (2 <= IZR M)%R) by (apply (IZR_le 2); lia).
  split; split.
  - apply Rsum_nonneg. intros i Hi. apply py_range_In in Hi.
    apply Rlt_le, R_xi_term_pos. lia.
  - apply Rle_trans with (1 / IZR n ^ 2)%R.
    + apply (Rsum_tail_le R_xi_term (fun k => 1 / IZR k ^ 2)%R n M HnM).
      * intros i Hi. apply R_xi_term_decrement. lia.
      * apply Rlt_le, Rdiv_lt_0_compat; [lra|]. apply pow_lt. lra.
    + unfold R_Xi. apply Rmult_le_compat_r; [|lra].
      apply Rlt_le, Rinv_0_lt_compat, pow_lt. lra.
  - apply Rsum_nonneg. intros i Hi. apply py_range_In in Hi.
    apply R_e_term_nonneg. lia.
  - apply (Rsum_tail_le R_e_term R_E n M HnM).
    + intros i Hi. apply R_e_term_decrement. lia.
    + apply Rlt_le, R_E_pos. lia.
Qed.

Lemma tail_bounds_certify_witness :
  exists xM xn rx : R,
    @Xi Exact 5 = Ok xM /\ @Xi Exact 3 = Ok xn
    /\ @xi_tail_bound Exact 3 = Ok rx /\ (xM - xn <= rx)%R.
Proof.
  destruct (tail_bounds_certify 3 5 ltac:(lia) ltac:(lia))
    as (xM & xn & eM & en & rx & re & H1 & H2 & _ & _ & H3 & _ & H4 & _).
  exists xM, xn, rx. repeat (split; [assumption|]). apply H4.
Defined.

(** X14.  In exact arithmetic the scalar evaluators return the sums of
    their definitions: [Xi(n)] is the sum of [2 / (i^2 (i - 1))] for
    [3 <= i <= n], [E(n)] the sum of [log2(i) / i^2] for [2 <= i <= n], and on
    adequate tables [Omega(n)] the sum of [1 / (i (phi[i] + pi[i]))] for
    [2 <= i <= n]; each sum is empty, hence 0, below its start index. *)
Theorem scalar_evaluators_sums (N n : Z) (phi pi : list Z)
    (Had : adequate N phi pi) (Hn : n <= N) :
  @Xi Exact n = Ok (Rsum (map R_xi_term (py_range 3 (n + 1))))
  /\ @E Exact n = Ok (Rsum (map R_e_term (py_range 2 (n + 1))))
  /\ @Omega Exact n phi pi
     = Ok (Rsum (map (R_omega_term phi pi) (py_range 2 (n + 1))))
  /\ @F Exact n phi pi
     = Ok (Rsum (map R_xi_term (py_range 3 (n + 1)))
           + Rsum (map (R_omega_term phi pi) (py_range 2 (n + 1)))
           - Rsum (map R_e_term (py_range 2 (n + 1))))%R.
Proof.
  pose proof (Xi_exact n) as Hx. pose proof (E_exact n) as He.
  pose proof (Omega_exact N n phi pi Had Hn) as Ho.
  repeat (split; [assumption|]).
  unfold F. rewrite Hx, Ho, He. reflexivity.
Qed.

Lemma scalar_evaluators_sums_witness :
  @Omega Exact 3 [0; 1; 1; 2] [0; 0; 1; 2]
  = Ok (Rsum (map (R_omega_term [0; 1; 1; 2] [0; 0; 1; 2]) (py_range 2 4))).
Proof.
  refine (proj1 (proj2 (proj2
            (scalar_evaluators_sums 3 3 [0; 1; 1; 2] [0; 0; 1; 2] _ _)))).
  - split; [vm_compute; discriminate|]. split; [vm_compute; discriminate|].
    intros i Hi. assert (Hc : i = 2 \/ i = 3) by lia.
    destruct Hc as [-> | ->]; vm_compute; discriminate.
  - lia.
Defined.

(* ===================================================================== *)
(** ** The older script [scripts/triad_full.py] *)

(** A loop that writes the same value at given positions. *)
Lemma foldM_setitem_const {A : Type} (v : A) (idxs : list Z) : forall l : list A,
  (forall j, In j idxs -> 0 <= j < len l) ->
  foldM (fun t m => setitem t m v) idxs l
  = Ok (fold_left (fun t iv => upd t (Z.to_nat (fst iv)) (snd iv))
                  (combine idxs (repeat v (length idxs))) l).
Proof.
  induction idxs as [|j idxs IH]; intros l H; [reflexivity|].
  cbn [foldM length repeat combine fold_left fst snd].
  rewrite setitem_ok by (apply H; now left). cbn [bind].
  apply IH. intros k Hk. rewrite len_upd. apply H. now right.
Qed.

(** The inner loop of [sieve_prime_counts] clears the multiples of [p] from
    [p * p] on. *)
Lemma clear_multiples (t : list bool) (N p : Z) :
  0 < p -> len t = N + 1 ->
  exists t',
    foldM (fun is_prime m => setitem is_prime m false)
          (py_range_step (p * p) (N + 1) p) t = Ok t'
    /\ len t' = N + 1
    /\ forall k, 0 <= k <= N ->
         znth false t' k =
           znth false t k && negb ((p * p <=? k) && (k mod p =? 0)).
Proof.
  intros Hp Hlen.
  set (idxs := py_range_step (p * p) (N + 1) p).
  assert (Hin : forall j, In j idxs -> 0 <= j < len t).
  { intros j Hj. apply py_range_step_In in Hj; nia. }
  rewrite (foldM_setitem_const false idxs t Hin).
  destruct (@fold_upd_const bool false false idxs t Hin) as (Hl & Hi & Ho).
  eexists. split; [reflexivity|]. split; [lia|].
  intros k Hk.
  assert (Hmod : (k - p * p) mod p = k mod p).
  { replace (k - p * p) with (k + (- p) * p) by lia. apply Z.mod_add. lia. }
  destruct ((p * p <=? k) && (k mod p =? 0)) eqn:Eb.
  - apply andb_true_iff in Eb. destruct Eb as [E1 E2].
    apply Z.leb_le in E1. apply Z.eqb_eq in E2.
    rewrite andb_false_r. apply Hi. apply py_range_step_In; [lia|]. lia.
  - rewrite andb_true_r. apply Ho; [lia|]. intros Hj.
    apply py_range_step_In in Hj; [|lia]. rewrite Hmod in Hj.
    apply andb_false_iff in Eb. destruct Eb as [Eb|Eb].
    + apply Z.leb_gt in Eb. lia.
    + apply Z.eqb_neq in Eb. lia.
Qed.

(** One iteration of [for p in range(2, limit + 1)]. *)
Lemma sieve_for_step N p t :
  2 <= p <= N -> sieve_inv N p t ->
  exists t',
    (b <- getitem t p ;;
     (if b : bool then
        foldM (fun is_prime m => setitem is_prime m false)
              (py_range_step (p * p) (N + 1) p) t
      else Ok t)) = Ok t'
    /\ sieve_inv N (p + 1) t'.
Proof.
  intros Hp (Hlen & Hinv).
  rewrite (getitem_ok false) by lia. cbn [bind].
  destruct (znth false t p) eqn:Eb.
  - destruct (clear_multiples t N p ltac:(lia) Hlen) as (t' & E & Hl & Hk).
    exists t'. split; [exact E|]. split; [exact Hl|].
    intros k Hk0. rewrite Hk by exact Hk0. rewrite Hinv by exact Hk0.
    rewrite no_small_divisor_succ by lia. now rewrite andb_assoc.
  - exists t. split; [reflexivity|]. split; [exact Hlen|].
    intros k Hk0. rewrite Hinv by exact Hk0.
    rewrite no_small_divisor_succ by lia.
    rewrite Hinv in Eb by lia.
    replace (2 <=? p) with true in Eb by (symmetry; apply Z.leb_le; lia).
    simpl in Eb. apply no_small_divisor_false in Eb.
    destruct Eb as (q & Hq & Hqp & Hm).
    destruct (no_small_divisor p k) eqn:En; [|now rewrite !andb_false_r].
    destruct ((p * p <=? k) && (k mod p =? 0)) eqn:Em; [|now rewrite !andb_true_r].
    exfalso. apply andb_true_iff in Em. destruct Em as [E1 E2].
    apply Z.leb_le in E1. apply Z.eqb_eq in E2.
    apply (no_small_divisor_true p k q En Hq); [nia|].
    apply Z.mod_divide; [lia|].
    apply Z.divide_trans with p; apply Z.mod_divide; auto; lia.
Qed.

Lemma prime_count_0_1 : prime_count 0 = 0 /\ prime_count 1 = 0.
Proof.
  assert (H0 : prime_count 0 = 0).
  { rewrite prime_count_succ by lia. rewrite Zprime_lt2 by lia. reflexivity. }
  split; [exact H0|].
  rewrite prime_count_succ by lia. rewrite Zprime_lt2 by lia.
  replace (1 - 1) with 0 by lia. lia.
Qed.

(** The rest of [sieve_prime_counts] once [limit] is known, for a limit
    between the integer square root of [N] and [N]. *)
Lemma sieve_prime_counts_rest N limit :
  1 <= N -> Z.sqrt N <= limit <= N ->
  exists pi,
    (is_prime <- foldM (fun is_prime p =>
                          b <- getitem is_prime p ;;
                          if b : bool then
                            foldM (fun is_prime m => setitem is_prime m false)
                                  (py_range_step (p * p) (N + 1) p) is_prime
                          else Ok is_prime)
                       (py_range 2 (limit + 1))
                       (upd (upd (py_repeat true (N + 1)) (Z.to_nat 0) false)
                            (Z.to_nat 1) false) ;;
     '(pi, cnt) <- foldM (fun '(pi, cnt) i =>
                            b <- getitem is_prime i ;;
                            let cnt := if b : bool then cnt + 1 else cnt in
                            pi <- setitem pi i cnt ;;
                            Ok (pi, cnt))
                         (py_range 2 (N + 1)) (py_repeat 0 (N + 1), 0) ;;
     Ok pi) = Ok pi
    /\ len pi = N + 1
    /\ forall k, 0 <= k <= N -> znth 0 pi k = prime_count k.
Proof.
  intros HN Hlim.
  assert (Hlen : len (py_repeat true (N + 1)) = N + 1) by (apply len_repeat; lia).
  pose proof (Z.sqrt_spec N ltac:(lia)) as Hs. cbv zeta in Hs.
  assert (Hs1 : 1 <= Z.sqrt N).
  { destruct (Z_lt_le_dec (Z.sqrt N) 1) as [H|H]; [|exact H]. nia. }
  match goal with
  | |- context [foldM ?f (py_range 2 (limit + 1)) ?s0] =>
      destruct (foldM_range f (sieve_inv N) 2 (limit + 1) s0)
        as (t & Et & It)
  end.
  - split; [now rewrite !len_upd|].
    intros k Hk.
    replace (no_small_divisor 2 k) with true by reflexivity. rewrite andb_true_r.
    destruct (Z.eq_dec k 1) as [->|H1].
    + rewrite znth_upd_same by (rewrite len_upd; lia). reflexivity.
    + rewrite znth_upd_other by lia.
      destruct (Z.eq_dec k 0) as [->|H0].
      * rewrite znth_upd_same by lia. reflexivity.
      * rewrite znth_upd_other by lia. rewrite znth_repeat by lia.
        symmetry. apply Z.leb_le. lia.
  - intros p t Hp I. apply sieve_for_step; [lia | exact I].
  - rewrite Et. cbn [bind].
    replace (Z.max 2 (limit + 1)) with (limit + 1) in It by lia.
    assert (Ht : forall k, 0 <= k <= N -> znth false t k = Zprime k).
    { intros k Hk. apply (sieve_inv_exit N (limit + 1)); [lia | nia | exact It | exact Hk]. }
    destruct It as [Hlt _]. destruct prime_count_0_1 as [Hp0 Hp1].
    match goal with
    | |- context [foldM ?f (py_range 2 (N + 1)) ?s0] =>
        destruct (foldM_range f (pi_inv N) 2 (N + 1) s0)
          as ([pi cnt] & E & (Hl & Hc & Hj))
    end.
    + split; [apply len_repeat; lia|]. split; [cbn [snd]; change (2 - 1) with 1; now rewrite Hp1|].
      intros j Hj. cbn [fst]. rewrite znth_repeat by lia.
      assert (Hc : j = 0 \/ j = 1) by lia. destruct Hc as [-> | ->]; congruence.
    + intros k [pi cnt] Hk (Hl & Hc & Hj). simpl in Hl, Hc, Hj.
      rewrite (getitem_ok false) by lia. cbn [bind].
      rewrite setitem_ok by lia. cbn [bind].
      eexists. split; [reflexivity|]. split; [simpl; now rewrite len_upd|].
      assert (Hcnt : (if znth false t k then cnt + 1 else cnt) = prime_count k).
      { rewrite prime_count_succ by lia. rewrite Ht by lia. rewrite Hc.
        destruct (Zprime k); lia. }
      split; simpl.
      * replace (k + 1 - 1) with k by lia. exact Hcnt.
      * intros j Hj1. destruct (Z.eq_dec j k) as [->|Hn].
        -- rewrite znth_upd_same by lia. exact Hcnt.
        -- rewrite znth_upd_other by lia. apply Hj. lia.
    + rewrite E. cbn [bind]. exists pi. split; [reflexivity|].
      simpl in Hl, Hj. split; [exact Hl|].
      intros k Hk. apply Hj. lia.
Qed.

Lemma sieve_prime_counts_low {FO : FloatOps} {FM : FloatMore FO} N :
  N < 1 -> triad_full.sieve_prime_counts N = sieve_pi N.
Proof.
  intros HN. unfold triad_full.sieve_prime_counts.
  replace (N <? 1) with true by (symmetry; apply Z.ltb_lt; lia).
  destruct (Z_lt_le_dec N 0) as [Hneg|H0].
  - unfold sieve_pi, sieve_primes_bool.
    replace (N <? 1) with true by (symmetry; apply Z.ltb_lt; lia).
    rewrite py_range_nil by lia. unfold py_repeat.
    replace (Z.to_nat (N + 1)) with 0%nat by lia. reflexivity.
  - assert (N = 0) by lia. subst N. reflexivity.
Qed.

Lemma sieve_prime_counts_limit {FO : FloatOps} {FM : FloatMore FO} N x r l :
  1 <= N ->
  of_int N = Ok x -> fpow x (lit 5 (-1)) = Ok r -> to_int r = Ok l ->
  Z.sqrt N <= l <= N ->
  triad_full.sieve_prime_counts N = sieve_pi N.
Proof.
  intros HN Ex Er El Hl. unfold triad_full.sieve_prime_counts.
  replace (N <? 1) with false by (symmetry; apply Z.ltb_ge; lia).
  cbv zeta.
  assert (Hlen : len (py_repeat true (N + 1)) = N + 1) by (apply len_repeat; lia).
  rewrite setitem_ok by lia. cbn [bind].
  rewrite setitem_ok by (rewrite len_upd; lia). cbn [bind].
  rewrite Ex. cbn [bind]. rewrite Er. cbn [bind]. rewrite El. cbn [bind].
  destruct (sieve_prime_counts_rest N l HN Hl) as (pi & E & Hlp & Hp).
  cbv zeta in E. rewrite E.
  destruct (sieve_pi_spec N ltac:(lia)) as (pi' & E' & Hlp' & Hp').
  rewrite E'. f_equal. apply (list_eq_znth 0); [lia|].
  intros i Hi. rewrite Hp, Hp' by lia. reflexivity.
Qed.

(** [int(N ** 0.5)] in exact arithmetic is the integer square root. *)
Lemma exact_isqrt N :
  1 <= N ->
  exists x r,
    @of_int Exact N = Ok x /\ @fpow Exact x (@lit Exact 5 (-1)) = Ok r
    /\ @to_int Exact ExactMore r = Ok (Z.sqrt N).
Proof.
  intros HN. exists (IZR N), (sqrt (IZR N)).
  assert (HNR : (1 <= IZR N)%R) by (apply (IZR_le 1); lia).
  split; [reflexivity|]. split.
  - cbn [fpow Exact lit]. destruct (Rlt_dec 0 (IZR N)) as [_|Hn]; [|lra].
    replace (Rlit 5 (-1)) with (/ 2)%R by (unfold Rlit; simpl; lra).
    rewrite Rpower_sqrt by lra. reflexivity.
  - cbn [to_int ExactMore]. pose proof (sqrt_pos (IZR N)) as Hp.
    destruct (Rle_dec 0 (sqrt (IZR N))) as [_|Hn]; [|contradiction].
    apply (f_equal Ok). symmetry. apply Int_part_spec.
    pose proof (Z.sqrt_spec N ltac:(lia)) as Hs. cbv zeta in Hs.
    pose proof (Z.sqrt_nonneg N) as Hs0.
    set (s := Z.sqrt N) in *.
    assert (H0 : (0 <= IZR s)%R) by (apply (IZR_le 0); lia).
    assert (H1 : (IZR s * IZR s <= IZR N)%R)
      by (rewrite <- mult_IZR; apply IZR_le; lia).
    assert (H2 : (IZR N < (IZR s + 1) * (IZR s + 1))%R).
    { rewrite <- (plus_IZR s 1), <- mult_IZR. apply IZR_lt. lia. }
    split.
    + assert (sqrt (IZR N) < IZR s + 1)%R; [|lra].
      rewrite <- (sqrt_square (IZR s + 1)) by lra.
      apply sqrt_lt_1_alt. lra.
    + rewrite <- (sqrt_square (IZR s)) by lra.
      apply sqrt_le_1_alt. lra.
Qed.

Lemma sieve_prime_counts_exact N :
  @triad_full.sieve_prime_counts Exact ExactMore N = sieve_pi N.
Proof.
  destruct (Z_lt_le_dec N 1) as [Hlow|HN].
  - now apply sieve_prime_counts_low.
  - destruct (exact_isqrt N HN) as (x & r & Ex & Er & El).
    apply (sieve_prime_counts_limit N x r (Z.sqrt N) HN Ex Er El).
    pose proof (Z.sqrt_spec N ltac:(lia)) as Hs. cbv zeta in Hs.
    pose proof (Z.sqrt_nonneg N). split; [lia | nia].
Qed.

(** X15.  [sieve_prime_counts] of [scripts/triad_full.py] returns the table
    of [sieve_pi]: in every arithmetic for [N < 1], and for [N >= 1] when
    the limit [int(N ** 0.5)] it computes lies between the integer square
    root of [N] and [N]; in exact arithmetic always, the limit being the
    integer square root. *)
Theorem sieve_prime_counts_agrees (N : Z) :
  (forall (FO : FloatOps) (FM : FloatMore FO),
     (N < 1 -> triad_full.sieve_prime_counts N = sieve_pi N)
     /\ forall x r l,
          1 <= N ->
          of_int N = Ok x -> fpow x (lit 5 (-1)) = Ok r -> to_int r = Ok l ->
          Z.sqrt N <= l <= N ->
          triad_full.sieve_prime_counts N = sieve_pi N)
  /\ @triad_full.sieve_prime_counts Exact ExactMore N = sieve_pi N
  /\ (1 <= N ->
      exists x r,
        @of_int Exact N = Ok x /\ @fpow Exact x (@lit Exact 5 (-1)) = Ok r
        /\ @to_int Exact ExactMore r = Ok (Z.sqrt N)).
Proof.
  split; [|split].
  - intros FO FM. split; [apply sieve_prime_counts_low|].
    intros x r l. apply sieve_prime_counts_limit.
  - apply sieve_prime_counts_exact.
  - apply exact_isqrt.
Qed.

Lemma sieve_prime_counts_agrees_witness :
  @triad_full.sieve_prime_counts Exact ExactMore 10 = sieve_pi 10.
Proof.
  exact (proj1 (proj2 (sieve_prime_counts_agrees 10))).
Defined.

Lemma firstn_succ_nth {A : Type} (d : A) (l : list A) (k : nat) :
  (k < length l)%nat -> firstn (S k) l = firstn k l ++ [nth k l d].
Proof.
  revert k. induction l as [|x l IH]; intros k Hk; simpl in Hk; [lia|].
  destruct k as [|k]; [reflexivity|].
  cbn [firstn nth app]. f_equal. apply IH. lia.
Qed.

(** The sums of the first entries of a term table are the partial sums of
    the terms. *)
Lemma Rsum_table (t : list R) (v : Z -> R) (a N : Z) :
  0 <= a -> len t = N + 1 ->
  (forall i, 0 <= i <= N -> i < a -> znth 0%R t i = 0%R) ->
  (forall i, a <= i <= N -> znth 0%R t i = v i) ->
  forall n : nat, Z.of_nat n <= N ->
    Rsum (firstn (S n) t) = Rsum (map v (py_range a (Z.of_nat n + 1))).
Proof.
  intros Ha Hl Hlow Hhigh. induction n as [|n IH]; intros Hn.
  - rewrite (firstn_succ_nth 0%R) by (unfold len in Hl; lia).
    cbn [firstn app Rsum fold_right]. change (nth 0 t 0%R) with (znth 0%R t 0).
    destruct (Z.eq_dec a 0) as [->|Hne].
    + rewrite (Hhigh 0) by lia. reflexivity.
    + rewrite py_range_nil by lia. rewrite (Hlow 0) by lia. simpl. lra.
  - rewrite (firstn_succ_nth 0%R) by (unfold len in Hl; lia).
    rewrite Rsum_app, IH by lia. cbn [Rsum fold_right].
    replace (nth (S n) t 0%R) with (znth 0%R t (Z.of_nat (S n)))
      by (unfold znth; now rewrite Nat2Z.id).
    replace (Z.of_nat (S n) + 1) with (Z.of_nat n + 1 + 1) by lia.
    replace (Z.of_nat (S n)) with (Z.of_nat n + 1) by lia.
    destruct (Z_lt_le_dec (Z.of_nat n + 1) a) as [Hlt|Hge].
    + rewrite !py_range_nil by lia. rewrite Hlow by lia. simpl. lra.
    + rewrite (py_range_snoc a (Z.of_nat n + 1)) by lia.
      rewrite map_app, Rsum_app, Hhigh by lia. simpl. lra.
Qed.

Section ExactPrefixes.
#[local] Existing Instance Exact.
#[local] Existing Instance ExactMore.

(** A table of terms that never raise. *)
Lemma table_of_values (a N : Z) (g : Z -> result flt) (v : Z -> R)
    (res : result (list flt)) :
  (0 <= N)%Z ->
  table_of 0%R a N g res ->
  (forall i, (a <= i <= N)%Z -> g i = Ok (v i)) ->
  exists t, res = Ok t
    /\ len t = (N + 1)%Z
    /\ (forall i, (0 <= i <= N)%Z -> (i < a)%Z -> znth 0%R t i = 0%R)
    /\ (forall i, (a <= i <= N)%Z -> znth 0%R t i = v i).
Proof.
  intros HN H Hg. destruct res as [t|e].
  - destruct H as (Hl & Hlow & Hhigh). exists t. split; [reflexivity|].
    split; [to_real; lia|]. split; [exact Hlow|].
    intros i Hi. specialize (Hhigh i Hi). rewrite (Hg i Hi) in Hhigh. congruence.
  - destruct H as (i & Hi & Ei & _). rewrite (Hg i Hi) in Ei. discriminate.
Qed.

Lemma lit0_exact : @lit Exact 0 0 = 0%R.
Proof. cbn [lit Exact]. apply Rlit_int. Qed.

Lemma Xi_terms_full_exact N :
  (0 <= N)%Z ->
  exists t, triad_full.Xi_terms N = Ok t
    /\ len t = (N + 1)%Z
    /\ (forall i, (0 <= i <= N)%Z -> (i < 3)%Z -> znth 0%R t i = 0%R)
    /\ (forall i, (3 <= i <= N)%Z -> znth 0%R t i = R_xi_term i).
Proof.
  intros HN.
  apply (table_of_values 3 N
           (fun i => d <- of_int (i * i * (i - 1)) ;; fdiv (lit 2 0) d)); [exact HN| |].
  - unfold triad_full.Xi_terms. cbv zeta. rewrite <- lit0_exact.
    erewrite foldM_ext; [apply fill_table_spec; lia|].
    intros t i _. cbn [of_int Exact bind].
    destruct (fdiv _ _); reflexivity.
  - intros i Hi. cbn [of_int Exact bind lit].
    assert (Hx : (3 <= IZR i)%R) by (apply (IZR_le 3); lia).
    assert (Hd : IZR (i * i * (i - 1)) = (IZR (i * i) * (IZR i - 1))%R)
      by (now rewrite (mult_IZR (i * i)), minus_IZR).
    assert (0 < IZR (i * i))%R by (apply IZR_sq_pos; lia).
    rewrite fdiv_ok by (rewrite Hd; apply Rgt_not_eq, Rmult_lt_0_compat; lra).
    unfold R_xi_term. now rewrite Rlit_int, Hd.
Qed.

Lemma E_terms_full_exact N :
  (0 <= N)%Z ->
  exists t, triad_full.E_terms N = Ok t
    /\ len t = (N + 1)%Z
    /\ (forall i, (0 <= i <= N)%Z -> (i < 2)%Z -> znth 0%R t i = 0%R)
    /\ (forall i, (2 <= i <= N)%Z -> znth 0%R t i = R_e_term i).
Proof.
  intros HN. pose proof ln2_pos as H2.
  assert (EL : triad_full.LOG2 = Ok (ln 2)).
  { unfold triad_full.LOG2. cbn [lit Exact]. rewrite Rlit_int. apply flog_ok. lra. }
  apply (table_of_values 2 N
           (fun i => l <- @flog_int Exact i ;;
                     q <- @fdiv Exact l (ln 2) ;;
                     fii <- @of_int Exact (i * i) ;;
                     @fdiv Exact q fii)); [exact HN| |].
  - unfold triad_full.E_terms. rewrite EL. cbn [bind]. cbv zeta.
    rewrite <- lit0_exact.
    erewrite foldM_ext; [apply fill_table_spec; lia|].
    intros t i _. cbv beta.
    destruct (flog_int i); cbn [bind]; [|reflexivity].
    destruct (@fdiv Exact _ (ln 2)); cbn [bind]; [|reflexivity].
    cbn [of_int Exact bind]. destruct (fdiv _ _); reflexivity.
  - intros i Hi. rewrite flog_int_ok by lia. cbn [bind].
    rewrite fdiv_ok by lra. cbn [bind of_int Exact].
    assert (0 < IZR (i * i))%R by (apply IZR_sq_pos; lia).
    rewrite fdiv_ok by lra. reflexivity.
Qed.

Lemma Omega_terms_full_exact N phi pi :
  (0 <= N)%Z -> (N + 1 <= len phi)%Z -> (N + 1 <= len pi)%Z ->
  (forall i, (2 <= i <= N)%Z -> (0 < znth 0 phi i + znth 0 pi i)%Z) ->
  exists t, triad_full.Omega_terms N phi pi = Ok t
    /\ len t = (N + 1)%Z
    /\ (forall i, (0 <= i <= N)%Z -> (i < 2)%Z -> znth 0%R t i = 0%R)
    /\ (forall i, (2 <= i <= N)%Z -> znth 0%R t i = R_omega_term phi pi i).
Proof.
  intros HN Hlphi Hlpi Hden.
  apply (table_of_values 2 N
           (fun i =>
              phi_i <- getitem phi i ;;
              pi_i <- getitem pi i ;;
              (if (phi_i + pi_i <=? 0)%Z then Raise ArithmeticError
               else d <- of_int (i * (phi_i + pi_i)) ;; fdiv (lit 1 0) d)));
    [exact HN| |].
  - unfold triad_full.Omega_terms.
    replace ((len phi <? N + 1) || (len pi <? N + 1))%Z with false
      by (symmetry; apply orb_false_iff; split; apply Z.ltb_ge; lia).
    cbv zeta. rewrite <- lit0_exact.
    erewrite foldM_ext; [apply fill_table_spec; lia|].
    intros t i _. cbv beta.
    destruct (getitem phi i); cbn [bind]; [|reflexivity].
    destruct (getitem pi i); cbn [bind]; [|reflexivity].
    destruct (_ <=? 0)%Z; [reflexivity|].
    cbn [of_int Exact bind]. destruct (fdiv _ _); reflexivity.
  - intros i Hi. rewrite !(getitem_ok 0%Z) by lia. cbn [bind].
    specialize (Hden i Hi).
    replace (_ <=? 0)%Z with false by (symmetry; apply Z.leb_gt; lia).
    cbn [of_int Exact bind lit]. rewrite fdiv_ok by (apply not_0_IZR; nia).
    unfold R_omega_term. now rewrite Rlit_int.
Qed.

(** The running sums of a term table are the partial sums of the terms. *)
Lemma kahan_prefix_table (t : list R) (v : Z -> R) (a N : Z) :
  (0 <= a)%Z -> len t = (N + 1)%Z ->
  (forall i, (0 <= i <= N)%Z -> (i < a)%Z -> znth 0%R t i = 0%R) ->
  (forall i, (a <= i <= N)%Z -> znth 0%R t i = v i) ->
  exists out,
    triad_full.kahan_prefix_sum t = Ok out
    /\ len out = (N + 1)%Z
    /\ forall n, (0 <= n <= N)%Z ->
         znth 0%R out n = Rsum (map v (py_range a (n + 1))).
Proof.
  intros Ha Hl Hlow Hhigh.
  destruct (@kahan_prefix_sum_loop Exact t) as (out & E & Hlo & Hout).
  to_real.
  exists out. split; [exact E|]. split; [unfold len in *; lia|].
  intros n Hn.
  specialize (Hout (Z.to_nat n) ltac:(unfold len in Hl; lia)).
  unfold znth. rewrite (nth_error_nth _ _ _ Hout).
  rewrite Kahan_value_exact.
  rewrite (Rsum_table t v a N Ha Hl Hlow Hhigh) by lia.
  now rewrite Z2Nat.id by lia.
Qed.

Lemma triad_prefixes_exact N :
  (0 <= N)%Z ->
  exists phi pi xs es os,
    sieve_phi N = Ok phi /\ sieve_pi N = Ok pi
    /\ triad_full.triad_prefixes N = Ok (xs, es, os)
    /\ len xs = (N + 1)%Z /\ len es = (N + 1)%Z /\ len os = (N + 1)%Z
    /\ forall n, (0 <= n <= N)%Z ->
         Xi n = Ok (znth 0%R xs n)
         /\ E n = Ok (znth 0%R es n)
         /\ Omega n phi pi = Ok (znth 0%R os n)
         /\ ((1 <= n)%Z ->
             nth_error (fst (stream_prefix_values N phi pi)) (Z.to_nat (n - 1))
             = Some (mk_record n (znth 0%R xs n) (znth 0%R os n) (znth 0%R es n)
                       (znth 0%R xs n + znth 0%R os n - znth 0%R es n)%R)).
Proof.
  intros HN.
  destruct (sieve_phi_spec N HN) as (phi & Ephi & Lphi & _ & Hphi).
  destruct (sieve_pi_spec N HN) as (pi & Epi & Lpi & Hpi).
  assert (Had : adequate N phi pi) by (apply (sieve_adequate N N); auto; lia).
  assert (Hden : forall i, (2 <= i <= N)%Z -> (0 < znth 0 phi i + znth 0 pi i)%Z).
  { intros i Hi. rewrite Hphi, Hpi by lia.
    pose proof (@NT.Ztotient_gt0 i ltac:(lia)).
    pose proof (len_nonneg (filter Zprime (py_range 0 (i + 1)))).
    unfold prime_count. lia. }
  destruct (Xi_terms_full_exact N HN) as (tx & Etx & Ltx & Lowx & Hx).
  destruct (E_terms_full_exact N HN) as (te & Ete & Lte & Lowe & He).
  destruct (Omega_terms_full_exact N phi pi HN ltac:(lia) ltac:(lia) Hden)
    as (to & Eto & Lto & Lowo & Ho).
  destruct (kahan_prefix_table tx R_xi_term 3 N ltac:(lia) Ltx Lowx Hx)
    as (xs & Exs & Lxs & Hxs).
  destruct (kahan_prefix_table te R_e_term 2 N ltac:(lia) Lte Lowe He)
    as (es & Ees & Les & Hes).
  destruct (kahan_prefix_table to (R_omega_term phi pi) 2 N ltac:(lia) Lto Lowo Ho)
    as (os & Eos & Los & Hos).
  exists phi, pi, xs, es, os.
  split; [exact Ephi|]. split; [exact Epi|]. split.
  - unfold triad_full.triad_prefixes.
    rewrite sieve_totients_eq by exact HN. rewrite Ephi. cbn [bind].
    rewrite sieve_prime_counts_exact, Epi. cbn [bind].
    rewrite Etx. cbn [bind]. rewrite Ete. cbn [bind]. rewrite Eto. cbn [bind].
    rewrite Exs. cbn [bind]. rewrite Ees. cbn [bind]. rewrite Eos. reflexivity.
  - repeat (split; [assumption|]).
    intros n Hn. rewrite Hxs, Hes, Hos by exact Hn.
    pose proof (Xi_exact n) as Hx1. pose proof (E_exact n) as He1.
    pose proof (Omega_exact N n phi pi Had ltac:(lia)) as Ho1.
    repeat (split; [assumption|]).
    intros Hn1.
    destruct (stream_spec N phi pi HN Had) as (recs & Es & _ & Hr).
    destruct (Hr n ltac:(lia)) as (x & o & e & Ex & Eo & Ee & Enth).
    rewrite Es. cbn [fst]. rewrite Enth.
    rewrite Hx1 in Ex. rewrite He1 in Ee. rewrite Ho1 in Eo.
    injection Ex as <-. injection Ee as <-. injection Eo as <-. reflexivity.
Qed.

End ExactPrefixes.

(** X16.  The batch computation of [scripts/triad_full.py] agrees with the
    scalar evaluators and with the stream of [src/triad.py] in exact
    arithmetic: for [N >= 0], [triad_prefixes N] returns three lists of
    length [N + 1] whose entries at every [0 <= n <= N] are [Xi(n)], [E(n)]
    and [Omega(n, phi, pi)] on the tables of [sieve_phi N] and [sieve_pi N],
    and for [n >= 1] the record the stream yields at [n] is made of these
    entries and their balance.  For [N < 0] it raises [ValueError], in every
    arithmetic. *)
Theorem triad_prefixes_agree (N : Z) :
  (N < 0 ->
   forall (FO : FloatOps) (FM : FloatMore FO),
     triad_full.triad_prefixes N = Raise ValueError)
  /\ (0 <= N ->
      exists phi pi (xs es os : list R),
        sieve_phi N = Ok phi /\ sieve_pi N = Ok pi
        /\ @triad_full.triad_prefixes Exact ExactMore N = Ok (xs, es, os)
        /\ len xs = N + 1 /\ len es = N + 1 /\ len os = N + 1
        /\ forall n, 0 <= n <= N ->
             @Xi Exact n = Ok (znth 0%R xs n)
             /\ @E Exact n = Ok (znth 0%R es n)
             /\ @Omega Exact n phi pi = Ok (znth 0%R os n)
             /\ (1 <= n ->
                 nth_error (fst (@stream_prefix_values Exact N phi pi))
                           (Z.to_nat (n - 1))
                 = Some (@mk_record Exact n (znth 0%R xs n) (znth 0%R os n)
                           (znth 0%R es n)
                           (znth 0%R xs n + znth 0%R os n - znth 0%R es n)%R))).
Proof.
  split.
  - intros HN FO FM. unfold triad_full.triad_prefixes, triad_full.sieve_totients.
    now replace (N <? 0) with true by (symmetry; apply Z.ltb_lt; lia).
  - apply triad_prefixes_exact.
Qed.

Lemma triad_prefixes_agree_witness :
  exists xs es os : list R,
    @triad_full.triad_prefixes Exact ExactMore 3 = Ok (xs, es, os)
    /\ @Xi Exact 3 = Ok (znth 0%R xs 3)
    /\ @E Exact 3 = Ok (znth 0%R es 3).
Proof.
  destruct (proj2 (triad_prefixes_agree 3) ltac:(lia))
    as (phi & pi & xs & es & os & _ & _ & Ep & _ & _ & _ & H).
  destruct (H 3 ltac:(lia)) as (Hx & He & _).
  exists xs, es, os. split; [exact Ep|]. split; [exact Hx | exact He].
Defined.

Lemma ln3_gt : (1.0000001 < ln 3)%R.
Proof.
  rewrite <- (ln_exp 1.0000001). apply ln_increasing; [apply exp_pos|].
  set (y := (1.0000001 / 8)%R).
  replace 1.0000001%R with (((y + y) + (y + y)) + ((y + y) + (y + y)))%R
    by (unfold y; lra).
  rewrite !exp_plus.
  pose proof (exp_upper y ltac:(unfold y; lra)) as H.
  pose proof (exp_pos y) as Hp.
  assert (H1 : (exp y <= 1.1429)%R).
  { apply Rle_trans with (1 / (1 - y))%R; [exact H|].
    unfold y. apply (Rmult_le_reg_r (1 - 1.0000001 / 8)); [lra|].
    replace (1 / (1 - 1.0000001 / 8) * (1 - 1.0000001 / 8))%R with 1%R
      by (field; lra).
    lra. }
  set (e := exp y) in *.
  assert (H2 : (e * e <= 1.3063)%R).
  { apply Rle_trans with (1.1429 * 1.1429)%R; [apply Rmult_le_compat; lra | lra]. }
  assert (H2p : (0 < e * e)%R) by (apply Rmult_lt_0_compat; lra).
  assert (H4 : (e * e * (e * e) <= 1.7065)%R).
  { apply Rle_trans with (1.3063 * 1.3063)%R; [apply Rmult_le_compat; lra | lra]. }
  assert (H4p : (0 < e * e * (e * e))%R) by (apply Rmult_lt_0_compat; lra).
  assert (H8 : (e * e * (e * e) * (e * e * (e * e)) <= 1.7065 * 1.7065)%R)
    by (apply Rmult_le_compat; lra).
  lra.
Qed.

Section ExactTailBounds.
#[local] Existing Instance Exact.
#[local] Existing Instance ExactMore.

Lemma tail_bounds_exact n (D : R) :
  (2 <= n)%Z ->
  triad_full.tail_bounds n D
  = Ok (R_Xi n, R_E n,
        (exp 0.5772156649015329 * ln (ln (IZR (Z.max n 3))) + D) / IZR n)%R.
Proof.
  intros Hn. unfold triad_full.tail_bounds.
  replace (n <? 2)%Z with false by (symmetry; apply Z.ltb_ge; lia).
  assert (Hx : (2 <= IZR n)%R) by (apply (IZR_le 2); lia).
  assert (Hk : (3 <= IZR (Z.max n 3))%R) by (apply (IZR_le 3); lia).
  pose proof ln2_pos as H2. pose proof ln3_gt as H3.
  assert (Hlk : (1.0000001 < ln (IZR (Z.max n 3)))%R).
  { apply Rlt_le_trans with (ln 3); [exact H3|]. apply ln_le_mono; lra. }
  cbn [of_int Exact bind].
  rewrite fdiv_ok by (apply Rgt_not_eq, IZR_sq_pos; lia). cbn [bind].
  rewrite flog_int_ok by lia. cbn [bind].
  assert (EL : triad_full.LOG2 = Ok (ln 2)).
  { unfold triad_full.LOG2. cbn [lit Exact]. rewrite Rlit_int. apply flog_ok. lra. }
  rewrite EL. cbn [bind fadd fmul Exact].
  rewrite fdiv_ok by (apply Rgt_not_eq, Rmult_lt_0_compat; lra). cbn [bind].
  cbn [fexp ExactMore bind].
  rewrite flog_int_ok by lia. cbn [bind].
  assert (Emax : triad_full.fmax (ln (IZR (Z.max n 3))) (lit 10000001 (-7))
                 = ln (IZR (Z.max n 3))).
  { unfold triad_full.fmax. cbn [fgt ExactMore lit Exact].
    replace (Rlit 10000001 (-7)) with 1.0000001%R by (unfold Rlit; simpl; lra).
    destruct (Rgt_dec 1.0000001 (ln (IZR (Z.max n 3)))) as [Hgt|_]; [lra|reflexivity]. }
  rewrite Emax. rewrite flog_ok by lra. cbn [bind].
  replace (Z.max n 1) with n by lia.
  rewrite fdiv_ok by lra.
  unfold triad_full.EULER_GAMMA. cbn [lit Exact].
  rewrite Rlit_gamma, !Rlit_int.
  unfold R_Xi, R_E. rewrite mult_IZR.
  replace (IZR n ^ 2)%R with (IZR n * IZR n)%R by ring.
  reflexivity.
Qed.

(** The terms away from the ranges the loops use. *)
Lemma xi_term_exact i :
  xi_term i = if ((i =? 0) || (i =? 1))%Z then Raise ZeroDivisionError
              else Ok (R_xi_term i).
Proof.
  unfold xi_term. cbn [of_int Exact bind fsub fmul lit]. rewrite !Rlit_int.
  destruct ((i =? 0) || (i =? 1))%Z eqn:E.
  - apply orb_true_iff in E. destruct E as [E|E]; apply Z.eqb_eq in E; subst i.
    + replace (IZR (0 * 0) * (0 - 1))%R with 0%R by (simpl; lra). apply fdiv_zero.
    + replace (IZR (1 * 1) * (1 - 1))%R with 0%R by (simpl; lra). apply fdiv_zero.
  - apply orb_false_iff in E. destruct E as [E0 E1].
    apply Z.eqb_neq in E0, E1.
    rewrite fdiv_ok; [reflexivity|].
    apply Rmult_integral_contrapositive. split.
    + apply Rgt_not_eq, IZR_sq_pos. exact E0.
    + intros H. apply E1. apply eq_IZR. lra.
Qed.

Lemma e_term_exact i :
  e_term i = if (0 <? i)%Z then Ok (R_e_term i) else Raise ValueError.
Proof.
  unfold e_term. cbn [flog2_int Exact].
  destruct (0 <? i)%Z eqn:E; cbn [bind]; [|reflexivity].
  apply Z.ltb_lt in E. cbn [of_int Exact bind].
  rewrite fdiv_ok by (apply Rgt_not_eq, IZR_sq_pos; lia). reflexivity.
Qed.

Lemma terms_tables_agree_exact N :
  triad_full.Xi_terms N = Xi_terms N /\ triad_full.E_terms N = E_terms N.
Proof.
  destruct (Z_lt_le_dec N 0) as [Hneg|HN].
  - unfold triad_full.Xi_terms, triad_full.E_terms, Xi_terms, E_terms.
    assert (EL : triad_full.LOG2 = Ok (ln 2)).
    { unfold triad_full.LOG2. cbn [lit Exact]. rewrite Rlit_int.
      apply flog_ok. lra. }
    rewrite EL. cbn [bind]. cbv zeta. rewrite !py_range_nil by lia.
    split; reflexivity.
  - destruct (Xi_terms_full_exact N HN) as (t1 & E1 & L1 & Low1 & H1).
    destruct (E_terms_full_exact N HN) as (t2 & E2 & L2 & Low2 & H2).
    pose proof (@Xi_terms_table Exact N) as Tx. rewrite lit0_exact in Tx.
    pose proof (@E_terms_table Exact N) as Te. rewrite lit0_exact in Te.
    destruct (table_of_values 3 N xi_term R_xi_term (Xi_terms N) HN Tx)
      as (t1' & E1' & L1' & Low1' & H1').
    { intros i Hi. rewrite xi_term_ok by lia. reflexivity. }
    destruct (table_of_values 2 N e_term R_e_term (E_terms N) HN Te)
      as (t2' & E2' & L2' & Low2' & H2').
    { intros i Hi. rewrite e_term_ok by lia. reflexivity. }
    rewrite E1, E1', E2, E2'. to_real. split; f_equal.
    + apply (list_eq_znth 0%R); [lia|].
      intros i Hi. destruct (Z_lt_le_dec i 3).
      * now rewrite Low1, Low1' by lia.
      * now rewrite H1, H1' by lia.
    + apply (list_eq_znth 0%R); [lia|].
      intros i Hi. destruct (Z_lt_le_dec i 2).
      * now rewrite Low2, Low2' by lia.
      * now rewrite H2, H2' by lia.
Qed.

End ExactTailBounds.

(** X17.  [tail_bounds] of [scripts/triad_full.py]: zeros below 2, in every
    arithmetic; in exact arithmetic, from 2 on, its first two components are
    the bounds [xi_tail_bound(n)] and [e_tail_bound(n)] of [src/tails.py] and
    its third is [(exp(gamma) ln(ln(max(n, 3))) + D) / n]: the guards
    [max(., 1.0000001)] and [max(n, 1)] never change a value. *)
Theorem tail_bounds_full (n : Z) :
  (n < 2 ->
   forall (FO : FloatOps) (FM : FloatMore FO) (D : flt),
     triad_full.tail_bounds n D = Ok (lit 0 0, lit 0 0, lit 0 0))
  /\ (2 <= n ->
      forall D : R,
        exists rx re : R,
          @xi_tail_bound Exact n = Ok rx
          /\ @e_tail_bound Exact n = Ok re
          /\ @triad_full.tail_bounds Exact ExactMore n D
             = Ok (rx, re,
                   (exp 0.5772156649015329 * ln (ln (IZR (Z.max n 3))) + D)
                   / IZR n)%R).
Proof.
  split.
  - intros Hn FO FM D. unfold triad_full.tail_bounds.
    now replace (n <? 2) with true by (symmetry; apply Z.ltb_lt; lia).
  - intros Hn D. exists (R_Xi n), (R_E n).
    pose proof (xi_tail_bound_eval n) as Hx.
    pose proof (e_tail_bound_eval n) as He.
    replace (Z.max n 2) with n in Hx, He by lia.
    split; [exact Hx|]. split; [exact He|]. now apply tail_bounds_exact.
Qed.

(** X18.  Where the term functions are defined, in exact arithmetic:
    [xi_term(i)] raises [ZeroDivisionError] exactly at [i = 0] and [i = 1],
    [e_term(i)] raises [ValueError] exactly at [i <= 0], and elsewhere they
    return [2 / (i^2 (i - 1))] and [log2(i) / i^2]; so the loops, which start
    at 3 and at 2, never meet these exceptions. *)
Theorem term_domains (i : Z) :
  @xi_term Exact i
  = (if (i =? 0) || (i =? 1) then Raise ZeroDivisionError
     else Ok (R_xi_term i))
  /\ @e_term Exact i
     = (if 0 <? i then Ok (R_e_term i) else Raise ValueError)
  /\ (3 <= i -> exists v, @xi_term Exact i = Ok v /\ (0 < v)%R)
  /\ (2 <= i -> exists v, @e_term Exact i = Ok v /\ (0 < v)%R).
Proof.
  split; [apply xi_term_exact|]. split; [apply e_term_exact|]. split.
  - intros Hi. exists (R_xi_term i). split; [|apply R_xi_term_pos; lia].
    rewrite xi_term_exact.
    now replace ((i =? 0) || (i =? 1)) with false
      by (symmetry; apply orb_false_iff; split; apply Z.eqb_neq; lia).
  - intros Hi. exists (R_e_term i). split.
    + rewrite e_term_exact.
      now replace (0 <? i) with true by (symmetry; apply Z.ltb_lt; lia).
    + unfold R_e_term.
      assert (Hx : (2 <= IZR i)%R) by (apply (IZR_le 2); lia).
      pose proof (ln_pos (IZR i) ltac:(lra)). pose proof ln2_pos.
      assert (0 < IZR (i * i))%R by (apply IZR_sq_pos; lia).
      repeat apply Rdiv_lt_0_compat; assumption.
Qed.

(** X19.  In exact arithmetic the term tables of [scripts/triad_full.py],
    which take [i * i * (i - 1)] on integers and [math.log(i) / LOG2], are
    the tables of [src/triad.py]. *)
Theorem term_tables_agree (N : Z) :
  @triad_full.Xi_terms Exact N = @Xi_terms Exact N
  /\ @triad_full.E_terms Exact N = @E_terms Exact N
  /\ exists tx te, @Xi_terms Exact N = Ok tx /\ @E_terms Exact N = Ok te
                   /\ len tx = Z.max 0 (N + 1) /\ len te = Z.max 0 (N + 1).
Proof.
  destruct (terms_tables_agree_exact N) as [H1 H2].
  split; [exact H1|]. split; [exact H2|].
  pose proof (@Xi_terms_table Exact N) as Tx.
  pose proof (@E_terms_table Exact N) as Te.
  destruct (table_of_ok _ _ _ _ _ Tx) as (tx & Ex).
  { intros i Hi. apply exact_terms_ok. lia. }
  destruct (table_of_ok _ _ _ _ _ Te) as (te & Ee).
  { intros i Hi. apply exact_terms_ok. lia. }
  rewrite Ex in Tx. rewrite Ee in Te.
  destruct Tx as (Lx & _). destruct Te as (Le & _).
  exists tx, te. repeat split; assumption.
Qed.

Lemma tail_bounds_full_witness :
  exists rx re : R,
    @xi_tail_bound Exact 2 = Ok rx
    /\ @e_tail_bound Exact 2 = Ok re
    /\ @triad_full.tail_bounds Exact ExactMore 2 10%R
       = Ok (rx, re,
             (exp 0.5772156649015329 * ln (ln (IZR (Z.max 2 3))) + 10)
             / IZR 2)%R.
Proof.
  exact (proj2 (tail_bounds_full 2) ltac:(lia) 10%R).
Defined.

Lemma sieve_tables_entries N phi pi :
  0 <= N -> sieve_phi N = Ok phi -> sieve_pi N = Ok pi ->
  forall i, 1 <= i <= N ->
    znth 0 phi i = Ztotient i /\ znth 0 pi i = prime_count i.
Proof.
  intros HN Ephi Epi i Hi.
  destruct (sieve_phi_spec N HN) as (phi0 & E0 & _ & _ & Hphi).
  destruct (sieve_pi_spec N HN) as (pi0 & E1 & _ & Hpi).
  rewrite Ephi in E0. injection E0 as <-.
  rewrite Epi in E1. injection E1 as <-.
  split; [apply Hphi; lia | apply Hpi; lia].
Qed.

(** X20.  In exact arithmetic the interval [compute_values] returns depends
    on [N_ref] and [D] only, not on the sample points: it is
    [F(N_ref) - R_total, F(N_ref) + R_total] with [F(N_ref)] evaluated on the
    tables built for [N_ref] itself. *)
Theorem compute_values_reference_only (points : list Z) (N_ref : Z) (D : R)
    (Hpts : points <> []) (Href : 1 <= N_ref) :
  exists phi pi (f : R) vals Rb,
    sieve_phi N_ref = Ok phi /\ sieve_pi N_ref = Ok pi
    /\ @F Exact N_ref phi pi = Ok f
    /\ @compute_values Exact points N_ref D
       = Ok (vals, Rb, (f - R_total D N_ref, f + R_total D N_ref)%R).
Proof.
  destruct (compute_values_exact_ok points N_ref D Hpts Href)
    as (vals & Rb & lo & hi & Ec).
  destruct (@compute_values_returns Exact points N_ref D vals Rb lo hi Ec)
    as (m & phiN & piN & r & rx & re & ro & rt & _ & EphiN & EpiN & _ & _ & HF
        & Etb & -> & ->).
  rewrite triad_tail_bound_eval in Etb. unfold tail_at in Etb.
  injection Etb as _ _ _ <-.
  set (N := Z.max m N_ref) in *.
  destruct (sieve_phi_spec N_ref ltac:(lia)) as (phi & Ephi & _).
  destruct (sieve_pi_spec N_ref ltac:(lia)) as (pi & Epi & _).
  assert (HadN : adequate N phiN piN) by (apply (sieve_adequate N N); auto; lia).
  assert (Had : adequate N_ref phi pi)
    by (apply (sieve_adequate N_ref N_ref); auto; lia).
  exists phi, pi, (rec_F r), vals, Rb.
  split; [exact Ephi|]. split; [exact Epi|]. split; [|exact Ec].
  transitivity (@F Exact N_ref phiN piN); [|exact HF]. unfold F.
  rewrite (Omega_exact N N_ref phiN piN HadN ltac:(lia)).
  rewrite (Omega_exact N_ref N_ref phi pi Had ltac:(lia)).
  replace (map (R_omega_term phi pi) (py_range 2 (N_ref + 1)))
    with (map (R_omega_term phiN piN) (py_range 2 (N_ref + 1))); [reflexivity|].
  apply map_ext_in. intros i Hi. apply py_range_In in Hi. unfold R_omega_term.
  destruct (sieve_tables_entries N phiN piN ltac:(lia) EphiN EpiN i ltac:(lia))
    as [-> ->].
  destruct (sieve_tables_entries N_ref phi pi ltac:(lia) Ephi Epi i ltac:(lia))
    as [-> ->].
  reflexivity.
Qed.

Lemma compute_values_reference_only_witness :
  exists phi pi (f : R) vals Rb,
    sieve_phi 1 = Ok phi /\ sieve_pi 1 = Ok pi
    /\ @F Exact 1 phi pi = Ok f
    /\ @compute_values Exact [3; 2] 1 (@D_omega_default Exact)
       = Ok (vals, Rb, (f - R_total (@D_omega_default Exact) 1,
                        f + R_total (@D_omega_default Exact) 1)%R).
Proof.
  exact (compute_values_reference_only [3; 2] 1 (@D_omega_default Exact)
           ltac:(discriminate) ltac:(lia)).
Defined.

(* ===================================================================== *)
(** ** The two tables against each other, and the balance in the stream *)

(** A composite number has at least two numbers of [[1, k]] not coprime to
    it: a proper divisor and itself. *)
Lemma coprime_count_composite k :
  2 <= k -> ~ prime k -> coprime_count k <= k - 2.
Proof.
  intros Hk Hnp.
  destruct (not_prime_divide k ltac:(lia) Hnp) as (n & Hn & Hdiv).
  unfold coprime_count.
  rewrite (py_range_app 1 n (k + 1)) by lia.
  rewrite (py_range_app n (n + 1) (k + 1)) by lia.
  rewrite (py_range_app (n + 1) k (k + 1)) by lia.
  rewrite (py_range_cons n (n + 1)) by lia.
  rewrite (py_range_cons k (k + 1)) by lia.
  rewrite !(py_range_nil (_ + 1) (_ + 1)) by lia.
  rewrite !filter_app. cbn [filter].
  assert (Gn : Z.gcd n k =? 1 = false).
  { apply Z.eqb_neq. rewrite (proj1 (Z.divide_gcd_iff n k ltac:(lia)) Hdiv). lia. }
  assert (Gk : Z.gcd k k =? 1 = false).
  { apply Z.eqb_neq. rewrite Z.gcd_diag, Z.abs_eq by lia. lia. }
  rewrite Gn, Gk. cbn [app]. rewrite app_nil_r. unfold len.
  rewrite length_app.
  pose proof (filter_length_le (fun j => Z.gcd j k =? 1) (py_range 1 n)) as H1.
  pose proof (filter_length_le (fun j => Z.gcd j k =? 1) (py_range (n + 1) k)) as H2.
  pose proof (py_range_length 1 n) as L1.
  pose proof (py_range_length (n + 1) k) as L2.
  unfold len in L1, L2. lia.
Qed.

(** X21.  The two sieve tables agree on which numbers are prime: on the
    tables of [sieve_phi N] and [sieve_pi N], at every [2 <= i <= N], [i] is
    prime exactly when [phi[i] = i - 1], exactly when [pi] steps up by one at
    [i]; and [pi] stays put at [i] exactly when [i] is not prime. *)
Theorem sieve_tables_primes (N : Z) (HN : 0 <= N) :
  exists phi pi,
    sieve_phi N = Ok phi /\ sieve_pi N = Ok pi
    /\ forall i, 2 <= i <= N ->
         (prime i <-> znth 0 phi i = i - 1)
         /\ (prime i <-> znth 0 pi i = znth 0 pi (i - 1) + 1)
         /\ (~ prime i <-> znth 0 pi i = znth 0 pi (i - 1)).
Proof.
  destruct (sieve_phi_spec N HN) as (phi & Ephi & _ & _ & Hphi).
  destruct (sieve_pi_spec N HN) as (pi & Epi & _ & Hpi).
  exists phi, pi. split; [exact Ephi|]. split; [exact Epi|].
  intros i Hi. rewrite (Hphi i ltac:(lia)), !Hpi by lia.
  rewrite (prime_count_succ i) by lia.
  pose proof (Zprime_iff_prime i) as Hp.
  split; [|split].
  - split.
    + intros H. apply Hp in H. now apply NT.Ztotient_prime.
    + intros H. destruct (prime_dec i) as [Hpr|Hnp]; [exact Hpr|]. exfalso.
      pose proof (coprime_count_composite i ltac:(lia) Hnp) as Hc.
      rewrite <- (@NT.Ztotient_count i) in Hc by lia. lia.
  - destruct (Zprime i); split; intros H; try lia.
    + now apply Hp.
    + apply Hp in H. discriminate.
  - destruct (Zprime i); split; intros H; try lia.
    + exfalso. apply H. now apply Hp.
    + intros Hpr. apply Hp in Hpr. discriminate.
Qed.

Lemma sieve_tables_primes_witness :
  exists phi pi,
    sieve_phi 7 = Ok phi /\ sieve_pi 7 = Ok pi
    /\ (prime 7 <-> znth 0 phi 7 = 7 - 1).
Proof.
  destruct (sieve_tables_primes 7 ltac:(lia)) as (phi & pi & E1 & E2 & H).
  exists phi, pi. split; [exact E1|]. split; [exact E2|].
  exact (proj1 (H 7 ltac:(lia))).
Defined.

(** X22.  The balance in the stream against the scalar [F], in every
    arithmetic: when the stream yields its [n]-th record, [F(n, phi, pi)]
    returns the fifth component of that record; when the stream ends before
    it, [F(n, phi, pi)] raises. *)
Theorem stream_F_matches_scalar (N n : Z) (Hn : 1 <= n <= N) :
  forall (FO : FloatOps) (phi pi : list Z),
    match nth_error (fst (stream_prefix_values N phi pi)) (Z.to_nat (n - 1)) with
    | Some r => rec_n r = n /\ F n phi pi = Ok (rec_F r)
    | None => exists e, F n phi pi = Raise e
    end.
Proof.
  intros FO phi pi.
  pose proof (stream_nth_scalar N phi pi n Hn) as Hs.
  destruct (stream_records_shape N phi pi ltac:(lia))
    as (recs & fin & Es & _ & _ & _ & Hshape).
  rewrite Es in Hs |- *. cbn [fst] in *.
  destruct (nth_error recs (Z.to_nat (n - 1))) as [r|] eqn:Er.
  - destruct Hs as (Hrn & Hx & Ho & He). split; [exact Hrn|].
    destruct (Hshape r (nth_error_In _ _ Er)) as (HF & _).
    unfold F. rewrite Hx, Ho, He. cbn [bind]. now rewrite HF.
  - destruct Hs as (e & Hs). unfold F.
    destruct (Xi n) as [x|e1]; cbn [bind]; [|eauto].
    destruct (Omega n phi pi) as [o|e2]; cbn [bind]; [|eauto].
    destruct (E n) as [ev|e3]; cbn [bind]; [|eauto].
    exfalso. destruct Hs as [H|[H|H]]; discriminate.
Qed.

Lemma stream_F_matches_scalar_witness :
  match nth_error (fst (@stream_prefix_values Exact 3 [0; 1; 1; 2] [0; 0; 1; 2])) 2 with
  | Some r => rec_n r = 3 /\ @F Exact 3 [0; 1; 1; 2] [0; 0; 1; 2] = Ok (rec_F r)
  | None => exists e, @F Exact 3 [0; 1; 1; 2] [0; 0; 1; 2] = Raise e
  end.
Proof.
  exact (stream_F_matches_scalar 3 3 ltac:(lia) Exact [0; 1; 1; 2] [0; 0; 1; 2]).
Defined.
